(** * Spotify song logger: play filter, reconciliation, persisted state and retry queue

    A shallow embedding of the ingestion pipeline of the repository
    (lib/play-filter.js, lib/deduplication.js, lib/state-manager.js in its
    local and hybrid variants, api/retry-failed.js and the hourly logging
    handler) together with the properties stated about it.

    Conventions.
    - A JavaScript number that can be [NaN] is an [option Z]; [None] is [NaN]
      and every comparison with it is false.
    - [new Date(s).getTime()] is the parameter [DateParse]; the only fact
      assumed about it, where needed, is that the empty string is an invalid
      date.
    - A string field that may be missing is conflated with the empty string
      where the code only tests its truthiness; [null]/[undefined] object
      fields are [option]s.
    - Arrays are lists; [arr[i]] is stdpp's lookup, [arr[i] = v] its insert. *)

From stdpp Require Import base option list strings sorting.
From Stdlib Require Import ZArith Lia.

Local Open Scope Z_scope.

(** ** JavaScript values *)

Module Js.

(** A number or [NaN]. *)
Definition num := option Z.

Definition sub (a b : num) : num :=
  match a, b with
  | Some x, Some y => Some (x - y)
  | _, _ => None
  end.

(** [Math.abs] *)
Definition abs (a : num) : num := Z.abs <$> a.

Definition lt (a b : num) : bool :=
  match a, b with
  | Some x, Some y => bool_decide (x < y)
  | _, _ => false
  end.

Definition le (a b : num) : bool :=
  match a, b with
  | Some x, Some y => bool_decide (x <= y)
  | _, _ => false
  end.

Definition gt (a b : num) : bool := lt b a.
Definition ge (a b : num) : bool := le b a.

(** Truthiness of a string: only the empty string is falsy. *)
Definition truthy (s : string) : bool := bool_decide (s ≠ "").

(** Truthiness of a possibly [undefined] string ([row[7]], [track.id]). *)
Definition truthy_opt (s : option string) : bool :=
  match s with
  | Some s => truthy s
  | None => false
  end.

(** A result of an [await]: a value or a thrown error with its message. *)
Inductive res (A : Type) : Type :=
| Ok (a : A)
| Throw (message : string).
Arguments Ok {A} a.
Arguments Throw {A} message.

(** A table of ISO-8601 instants with their epoch milliseconds, as
    [new Date(s).getTime()] gives them; every other string is treated as
    unparseable. It instantiates [DateParse] in the examples. *)
Definition isoSample (s : string) : num :=
  if bool_decide (s = "2024-01-15T11:59:00.000Z") then Some 1705319940000
  else if bool_decide (s = "2024-01-15T12:00:00.000Z") then Some 1705320000000
  else if bool_decide (s = "2024-01-15T12:00:10.000Z") then Some 1705320010000
  else if bool_decide (s = "2024-01-15T12:00:30.000Z") then Some 1705320030000
  else if bool_decide (s = "2024-01-15T12:01:00.000Z") then Some 1705320060000
  else if bool_decide (s = "2024-01-15T12:05:00.000Z") then Some 1705320300000
  else if bool_decide (s = "2024-01-15T13:00:00.000Z") then Some 1705323600000
  else if bool_decide (s = "2024-01-15T13:30:00.000Z") then Some 1705325400000
  else if bool_decide (s = "2024-01-16T13:00:00.000Z") then Some 1705410000000
  else None.

End Js.

(** ** Data model *)

Module Model.

(** The [track] object of a recently-played item. [track_id] is [None] for
    a local file ([id: null]). *)
Record Track := {
  track_id : option string;
  track_name : option string;
  duration_ms : option Z;
  artists : list string
}.

(** An item of the recently-played list. *)
Record PlayItem := {
  track : option Track;
  played_at : string
}.

(** [state.lastProcessed]. The marker written by the state manager has
    [trackId], [timestamp], [playedAt]; the one derived from the sheet also
    has [trackName]. *)
Record LastProcessed := {
  lp_trackId : string;
  lp_trackName : option string;
  lp_timestamp : string;
  lp_playedAt : string
}.

(** An entry of [state.failedQueue]. *)
Record FailedEntry := {
  fe_trackId : string;
  fe_trackName : string;
  fe_playedAt : string;
  attemptCount : Z;
  lastAttempt : string;
  fe_error : string;
  partialData : PlayItem
}.

Record Stats := {
  lastRun : option string;
  successCount : Z;
  failureCount : Z
}.

(** A JSON value kept as its text; the alerting, metrics and import
    modules store theirs under keys of their own in the state document. *)
Definition Json := string.

(** The persisted document. *)
Record State := {
  lastProcessed : option LastProcessed;
  failedQueue : list FailedEntry;
  stats : Stats;
  alerts : option Json;
  metrics : option Json;
  historicalImport : option Json
}.

Definition zeroStats : Stats :=
  {| lastRun := None; successCount := 0; failureCount := 0 |}.

(** The literal [DEFAULT_STATE] of the state manager. *)
Definition DEFAULT_STATE : State :=
  {| lastProcessed := None; failedQueue := []; stats := zeroStats;
     alerts := None; metrics := None; historicalImport := None |}.

#[global] Instance Track_eq_dec : EqDecision Track.
Proof. solve_decision. Defined.
#[global] Instance PlayItem_eq_dec : EqDecision PlayItem.
Proof. solve_decision. Defined.

Definition set_lastProcessed (v : option LastProcessed) (s : State) : State :=
  {| lastProcessed := v; failedQueue := failedQueue s; stats := stats s;
     alerts := alerts s; metrics := metrics s;
     historicalImport := historicalImport s |}.

Definition set_failedQueue (v : list FailedEntry) (s : State) : State :=
  {| lastProcessed := lastProcessed s; failedQueue := v; stats := stats s;
     alerts := alerts s; metrics := metrics s;
     historicalImport := historicalImport s |}.

Definition set_stats (v : Stats) (s : State) : State :=
  {| lastProcessed := lastProcessed s; failedQueue := failedQueue s; stats := v;
     alerts := alerts s; metrics := metrics s;
     historicalImport := historicalImport s |}.

Definition set_alerts (v : option Json) (s : State) : State :=
  {| lastProcessed := lastProcessed s; failedQueue := failedQueue s;
     stats := stats s; alerts := v; metrics := metrics s;
     historicalImport := historicalImport s |}.

Definition set_metrics (v : option Json) (s : State) : State :=
  {| lastProcessed := lastProcessed s; failedQueue := failedQueue s;
     stats := stats s; alerts := alerts s; metrics := v;
     historicalImport := historicalImport s |}.

End Model.

(** ** lib/play-filter.js *)

Module PlayFilter.
Import Model.

Definition MIN_PLAY_DURATION_MS : Z := 30000.

(** [track.track?.duration_ms || 0] *)
Definition trackDuration (item : PlayItem) : Z :=
  default 0 (track item ≫= duration_ms).

Definition isValidPlay (item : PlayItem) (minDuration : Z) : bool :=
  let trackDuration := trackDuration item in
  if bool_decide (trackDuration < minDuration)
  then bool_decide (trackDuration > 0)
  else true.

Section WithDate.
Variable DateParse : string → Js.num.

Definition isDuplicate (item : PlayItem) (lastProcessed : option LastProcessed)
  : bool :=
  match lastProcessed with
  | None => false
  | Some lp =>
      if negb (Js.truthy (lp_trackId lp)) then false
      else
        let trackId := track item ≫= track_id in
        let playedAt := DateParse (played_at item) in
        let lastPlayedAt := DateParse (lp_playedAt lp) in
        if bool_decide (trackId = Some (lp_trackId lp)) then
          let timeDiff := Js.abs (Js.sub playedAt lastPlayedAt) in
          if Js.lt timeDiff (Some MIN_PLAY_DURATION_MS) then true else false
        else false
  end.

(** [lastProcessedState?.lastProcessed?.playedAt ? new Date(...).getTime() : 0] *)
Definition lastProcessedTime (lastProcessedState : option State) : Js.num :=
  match lastProcessedState ≫= lastProcessed with
  | Some lp =>
      if Js.truthy (lp_playedAt lp) then DateParse (lp_playedAt lp) else Some 0
  | None => Some 0
  end.

(** The callback of [recentTracks.filter]. *)
Definition keepPlay (lastProcessedState : option State) (item : PlayItem) : bool :=
  if negb (isValidPlay item MIN_PLAY_DURATION_MS) then false
  else if isDuplicate item (lastProcessedState ≫= lastProcessed) then false
  else
    let playedAt := DateParse (played_at item) in
    if Js.le playedAt (lastProcessedTime lastProcessedState) then false
    else true.

Definition filterNewPlays (recentTracks : list PlayItem)
    (lastProcessedState : option State) : list PlayItem :=
  match recentTracks with
  | [] => []
  | _ => List.filter (keepPlay lastProcessedState) recentTracks
  end.

(** Insertion of [x] into a list sorted by the comparator
    [timeA - timeB]: [x] goes after every element it does not precede
    (a [NaN] difference counts as zero, as in [Array.prototype.sort]). *)
Fixpoint insertByTime (x : PlayItem) (l : list PlayItem) : list PlayItem :=
  match l with
  | [] => [x]
  | y :: l' =>
      if Js.lt (Js.sub (DateParse (played_at x)) (DateParse (played_at y))) (Some 0)
      then x :: y :: l'
      else y :: insertByTime x l'
  end.

(** [[...tracks].sort((a, b) => timeA - timeB)]: the stable ascending
    sort, oldest first. This is the result the language fixes for a
    consistent comparator, as the one here is when every [played_at] is a
    valid date. With an invalid date the differences are [NaN], the
    comparator is not consistent and the order of the result is left to
    the engine; the definition then returns the same plays in the order of
    the linear insertion. *)
Definition sortTracksByTimestamp (tracks : list PlayItem) : list PlayItem :=
  foldl (λ sorted x, insertByTime x sorted) [] tracks.

(** [tracks.reduce((latest, current) => currentTime > latestTime ? current : latest)] *)
Definition getMostRecentTrack (tracks : list PlayItem) : option PlayItem :=
  match tracks with
  | [] => None
  | first :: rest =>
      Some (foldl (λ latest current,
                     if Js.gt (DateParse (played_at current))
                              (DateParse (played_at latest))
                     then current else latest) first rest)
  end.

End WithDate.

(** [createLastProcessedState]; [now] is [new Date().toISOString()]. *)
Definition createLastProcessedState (item : PlayItem) (now : string) : LastProcessed :=
  {| lp_trackId := default "" (track item ≫= track_id);
     lp_trackName := None;
     lp_timestamp := now;
     lp_playedAt := played_at item |}.

(** What an optional chain such as [tracks[i].track?.id] reads:
    [undefined] when the item has no [track] object, [null] when the
    field of the track is [null] (the id of a local file), or the value. *)
Inductive Optional (A : Type) : Type :=
| Undefined
| Null
| Defined (a : A).
Arguments Undefined {A}.
Arguments Null {A}.
Arguments Defined {A} a.

#[global] Instance Optional_eq_dec {A} `{EqDecision A} : EqDecision (Optional A).
Proof. solve_decision. Defined.

Definition optionalChain {A} (item : PlayItem) (field : Track → option A)
  : Optional A :=
  match track item with
  | None => Undefined
  | Some t =>
      match field t with
      | None => Null
      | Some a => Defined a
      end
  end.

(** The object returned by [analyzeRepeatBehavior]. [ra_trackName] is
    [None] when the object has no [trackName] key, as the one returned for
    fewer than two tracks. *)
Record RepeatAnalysis := {
  isRepeating : bool;
  repeatCount : nat;
  ra_trackName : option (Optional string)
}.

(** The loop [for (let i = 1; ...)] of [analyzeRepeatBehavior]: how many
    of the tracks after the first carry [firstTrackId] before the first one
    that does not. The comparison is [===]: [undefined] and [null] are
    equal to themselves and to nothing else. *)
Fixpoint countRepeats (firstTrackId : Optional string) (rest : list PlayItem) : nat :=
  match rest with
  | [] => 0
  | item :: rest' =>
      if bool_decide (optionalChain item track_id = firstTrackId)
      then S (countRepeats firstTrackId rest')
      else 0
  end.

Definition analyzeRepeatBehavior (tracks : list PlayItem) : RepeatAnalysis :=
  if bool_decide (length tracks < 2)%nat
  then {| isRepeating := false; repeatCount := 0; ra_trackName := None |}
  else
    match tracks with
    | [] => {| isRepeating := false; repeatCount := 0; ra_trackName := None |}
    | first :: rest =>
        let firstTrackId := optionalChain first track_id in
        let repeatCount := (1 + countRepeats firstTrackId rest)%nat in
        {| isRepeating := bool_decide (1 < repeatCount)%nat;
           repeatCount := repeatCount;
           ra_trackName := Some (optionalChain first track_name) |}
    end.

End PlayFilter.

(** ** lib/deduplication.js *)

Module Deduplication.
Import Model.

Definition MIN_PLAY_DURATION_MS : Z := 30000.

(** A row of the sheet as the Sheets API returns it: the cell texts, with
    trailing empty cells left out. Column 0 is the timestamp, 1 the track
    name, 7 the track id. *)
Definition Row := list string.

(** [findLastProcessedInSheet] does not parse dates. *)
Definition findLastProcessedInSheet (sheetRows : list Row) : option LastProcessed :=
  if bool_decide (length sheetRows ≤ 1)%nat then None
  else
    match last sheetRows with
    | None => None
    | Some lastRow =>
        let timestamp := lastRow !! 0%nat in
        let trackName := lastRow !! 1%nat in
        let trackId := lastRow !! 7%nat in
        if negb (Js.truthy_opt trackId) || negb (Js.truthy_opt timestamp) then None
        else
          Some {| lp_trackId := default "" trackId;
                  lp_trackName := trackName;
                  lp_timestamp := default "" timestamp;
                  lp_playedAt := default "" timestamp |}
    end.

Section WithDate.
Variable DateParse : string → Js.num.

(** The [isDuplicate] of this module, a second copy of the one in
    lib/play-filter.js. *)
Definition isDuplicate (item : PlayItem) (lastProcessed : option LastProcessed)
  : bool :=
  match lastProcessed with
  | None => false
  | Some lp =>
      if negb (Js.truthy (lp_trackId lp)) then false
      else
        let trackId := track item ≫= track_id in
        let playedAt := DateParse (played_at item) in
        let lastPlayedAt := DateParse (lp_playedAt lp) in
        if bool_decide (trackId = Some (lp_trackId lp)) then
          let timeDiff := Js.abs (Js.sub playedAt lastPlayedAt) in
          if Js.lt timeDiff (Some MIN_PLAY_DURATION_MS) then true else false
        else false
  end.

(** The object literals built by [reconcileState] have exactly the keys
    [lastProcessed], [failedQueue] and [stats]. *)
Definition reconcileState (sheetData : list Row) (localState : option State)
  : option State :=
  match findLastProcessedInSheet sheetData with
  | None => localState
  | Some sheetLastProcessed =>
      let fromSheet (failedQueue : list FailedEntry) (stats : Stats) :=
        {| lastProcessed := Some sheetLastProcessed;
           failedQueue := failedQueue; stats := stats;
           alerts := None; metrics := None; historicalImport := None |} in
      match localState with
      | None => Some (fromSheet [] zeroStats)
      | Some local =>
          match lastProcessed local with
          | None => Some (fromSheet (failedQueue local) (stats local))
          | Some localLastProcessed =>
              let sheetTime := DateParse (lp_playedAt sheetLastProcessed) in
              let localTime := DateParse (lp_playedAt localLastProcessed) in
              if Js.gt sheetTime localTime
              then Some (fromSheet (failedQueue local) (stats local))
              else localState
          end
      end
  end.

(** The body of the loop of [isTrackInSheet] for one data row. *)
Definition rowMatches (item : PlayItem) (row : Row) : bool :=
  let trackId := track item ≫= track_id in
  let playedAt := DateParse (played_at item) in
  let rowTrackId := row !! 7%nat in
  let rowTimestamp := row !! 0%nat in
  if negb (Js.truthy_opt rowTrackId) || negb (Js.truthy_opt rowTimestamp) then false
  else if bool_decide (rowTrackId = trackId) then
    let rowTime := DateParse (default "" rowTimestamp) in
    let timeDiff := Js.abs (Js.sub playedAt rowTime) in
    Js.lt timeDiff (Some MIN_PLAY_DURATION_MS)
  else false.

Definition isTrackInSheet (item : PlayItem) (sheetRows : list Row) : bool :=
  if bool_decide (length sheetRows ≤ 1)%nat then false
  else existsb (rowMatches item) (drop 1 sheetRows).

Definition filterDuplicatesAgainstSheet (tracks : list PlayItem)
    (sheetRows : list Row) : list PlayItem :=
  match tracks with
  | [] => []
  | _ => List.filter (λ item, negb (isTrackInSheet item sheetRows)) tracks
  end.

End WithDate.

(** [validateState]. The [typeof] and [Array.isArray] tests hold of every
    [State]; what is left is the test for [null] and the one on the marker. *)
Definition validateState (state : option State) : bool :=
  match state with
  | None => false
  | Some state =>
      match lastProcessed state with
      | Some lp =>
          if negb (Js.truthy (lp_trackId lp)) || negb (Js.truthy (lp_playedAt lp))
          then false
          else true
      | None => true
      end
  end.

End Deduplication.

(** ** The process and its storage *)

Module Runtime.
Import Model.

(** The environment variables the state manager reads. *)
Record Env := {
  USE_KV : option string;
  VERCEL_ENV : option string;
  KV_REST_API_URL : option string;
  KV_REST_API_TOKEN : option string
}.

(** What [fs.readFile] followed by [JSON.parse] finds at a path: no file
    ([ENOENT]), a file that cannot be read, text that does not parse, or a
    state document. *)
Inductive File :=
| Missing
| Unreadable
| Corrupt
| Doc (s : State).

(** The state directory: present, absent and creatable, or absent with
    [fs.mkdir] failing. *)
Inductive Dir :=
| DirPresent
| DirAbsent
| DirBlocked.

Record LocalFiles := {
  STATE_DIR : Dir;
  writable : bool;
  STATE_FILE : File;
  BACKUP_FILE : File
}.

(** The names of the four keys the state manager writes: ['state:full'],
    ['state:lastProcessed'], ['state:failedQueue'] and ['state:stats']. *)
Inductive Key :=
| state_full
| state_lastProcessed
| state_failedQueue
| state_stats.

(** The key/value store: whether its requests reach it, the keys for which
    it rejects a [kv.set], and the values under the four keys. *)
Record KV := {
  kv_reachable : bool;
  kv_refused : Key → bool;
  KV_STATE_KEY : option State;
  KV_LAST_PROCESSED_KEY : option (option LastProcessed);
  KV_FAILED_QUEUE_KEY : option (list FailedEntry);
  KV_STATS_KEY : option Stats
}.

(** A [kv.set] of [key] succeeds. *)
Definition kvAccepts (kv : KV) (key : Key) : bool :=
  kv_reachable kv && negb (kv_refused kv key).

Definition set_KV_STATE_KEY (v : State) (kv : KV) : KV :=
  {| kv_reachable := kv_reachable kv; kv_refused := kv_refused kv;
     KV_STATE_KEY := Some v;
     KV_LAST_PROCESSED_KEY := KV_LAST_PROCESSED_KEY kv;
     KV_FAILED_QUEUE_KEY := KV_FAILED_QUEUE_KEY kv;
     KV_STATS_KEY := KV_STATS_KEY kv |}.

Definition set_KV_LAST_PROCESSED_KEY (v : option LastProcessed) (kv : KV) : KV :=
  {| kv_reachable := kv_reachable kv; kv_refused := kv_refused kv;
     KV_STATE_KEY := KV_STATE_KEY kv;
     KV_LAST_PROCESSED_KEY := Some v;
     KV_FAILED_QUEUE_KEY := KV_FAILED_QUEUE_KEY kv;
     KV_STATS_KEY := KV_STATS_KEY kv |}.

Definition set_KV_FAILED_QUEUE_KEY (v : list FailedEntry) (kv : KV) : KV :=
  {| kv_reachable := kv_reachable kv; kv_refused := kv_refused kv;
     KV_STATE_KEY := KV_STATE_KEY kv;
     KV_LAST_PROCESSED_KEY := KV_LAST_PROCESSED_KEY kv;
     KV_FAILED_QUEUE_KEY := Some v;
     KV_STATS_KEY := KV_STATS_KEY kv |}.

Definition set_KV_STATS_KEY (v : Stats) (kv : KV) : KV :=
  {| kv_reachable := kv_reachable kv; kv_refused := kv_refused kv;
     KV_STATE_KEY := KV_STATE_KEY kv;
     KV_LAST_PROCESSED_KEY := KV_LAST_PROCESSED_KEY kv;
     KV_FAILED_QUEUE_KEY := KV_FAILED_QUEUE_KEY kv;
     KV_STATS_KEY := Some v |}.

(** The storage together with the module-level variables of the process:
    the object [DEFAULT_STATE] of the state manager, whose [failedQueue]
    array and [stats] object are shared by every [{ ...DEFAULT_STATE }],
    and whether [currentExecutionMetrics.startTime] is set. Which reads
    and writes fail is part of the world: a file or store that starts or
    stops failing between two operations is another world. *)
Record World := {
  w_env : Env;
  w_files : LocalFiles;
  w_kv : KV;
  w_DEFAULT_STATE : State;
  w_executionStarted : bool
}.

Definition set_files (f : LocalFiles) (w : World) : World :=
  {| w_env := w_env w; w_files := f; w_kv := w_kv w;
     w_DEFAULT_STATE := w_DEFAULT_STATE w;
     w_executionStarted := w_executionStarted w |}.

Definition set_kv (k : KV) (w : World) : World :=
  {| w_env := w_env w; w_files := w_files w; w_kv := k;
     w_DEFAULT_STATE := w_DEFAULT_STATE w;
     w_executionStarted := w_executionStarted w |}.

Definition set_DEFAULT_STATE (d : State) (w : World) : World :=
  {| w_env := w_env w; w_files := w_files w; w_kv := w_kv w;
     w_DEFAULT_STATE := d;
     w_executionStarted := w_executionStarted w |}.

Definition set_executionStarted (b : bool) (w : World) : World :=
  {| w_env := w_env w; w_files := w_files w; w_kv := w_kv w;
     w_DEFAULT_STATE := w_DEFAULT_STATE w;
     w_executionStarted := b |}.

(** An [async] computation: it runs on the world and resolves or rejects. *)
Definition M (A : Type) : Type := World → Js.res A * World.

Definition ret {A} (a : A) : M A := λ w, (Js.Ok a, w).

Definition throw {A} (message : string) : M A := λ w, (Js.Throw message, w).

Definition bind {A B} (m : M A) (k : A → M B) : M B :=
  λ w, match m w with
       | (Js.Ok a, w') => k a w'
       | (Js.Throw message, w') => (Js.Throw message, w')
       end.

(** [try { m } catch (error) { h error.message }] *)
Definition catch {A} (m : M A) (h : string → M A) : M A :=
  λ w, match m w with
       | (Js.Ok a, w') => (Js.Ok a, w')
       | (Js.Throw message, w') => h message w'
       end.

(** An [await] of an external call whose outcome is given. *)
Definition lift {A} (r : Js.res A) : M A := λ w, (r, w).

(** [for (const x of l) { await f x }] *)
Fixpoint forEach {A} (f : A → M unit) (l : list A) : M unit :=
  match l with
  | [] => ret ()
  | x :: l' => bind (f x) (λ _, forEach f l')
  end.

End Runtime.

(** [const x = await m; k] *)
Notation "'await' x ':=' m 'in' k" := (Runtime.bind m (fun x => k))
  (at level 10, x binder, m at level 100, k at level 200).

(** ** lib/state-manager.js, local and hybrid *)

Module StateManager.
Import Model Runtime.

(** [shouldUseKV] of the hybrid state manager. The local state manager is
    the hybrid one in an environment where this is false. *)
Definition shouldUseKV (env : Env) : bool :=
  let useKV := bool_decide (USE_KV env = Some "true") in
  let isVercel := bool_decide (VERCEL_ENV env ≠ None) in
  let hasKVCredentials :=
    Js.truthy_opt (KV_REST_API_URL env) && Js.truthy_opt (KV_REST_API_TOKEN env) in
  (useKV || isVercel) && hasKVCredentials.

(** A state object in memory: its value, and whether its [failedQueue]
    and [stats] are the array and object of [DEFAULT_STATE]. *)
Record Loaded := {
  value : State;
  sharesDefault : bool
}.

Definition parsed (s : State) : Loaded := {| value := s; sharesDefault := false |}.

(** [{ ...DEFAULT_STATE }] *)
Definition copyOfDefault : M Loaded :=
  λ w, (Js.Ok {| value := w_DEFAULT_STATE w; sharesDefault := true |}, w).

Definition ensureStateDir : M unit :=
  λ w, match STATE_DIR (w_files w) with
       | DirPresent => (Js.Ok (), w)
       | DirAbsent =>
           (Js.Ok (), set_files {| STATE_DIR := DirPresent;
                                   writable := writable (w_files w);
                                   STATE_FILE := STATE_FILE (w_files w);
                                   BACKUP_FILE := BACKUP_FILE (w_files w) |} w)
       | DirBlocked => (Js.Throw "EACCES: permission denied, mkdir", w)
       end.

(** [JSON.parse(await fs.readFile(path))] with the thrown error's kind. *)
Definition readJson (file : File) : Js.res State :=
  match file with
  | Doc s => Js.Ok s
  | Missing => Js.Throw "ENOENT"
  | Unreadable => Js.Throw "EACCES"
  | Corrupt => Js.Throw "SyntaxError"
  end.

Definition loadStateLocal : M Loaded :=
  await _ := ensureStateDir in
  catch
    (await state := (λ w, (readJson (STATE_FILE (w_files w)), w)) in
     ret (parsed state))
    (λ code,
       if bool_decide (code = "ENOENT") then copyOfDefault
       else
         catch
           (await state := (λ w, (readJson (BACKUP_FILE (w_files w)), w)) in
            ret (parsed state))
           (λ _, copyOfDefault)).

Definition saveStateLocal (state : State) : M unit :=
  await _ := ensureStateDir in
  λ w,
    let f := w_files w in
    (* the inner try: copy the current file to the backup, best effort *)
    let backup :=
      match STATE_FILE f with
      | Doc _ | Corrupt => if writable f then STATE_FILE f else BACKUP_FILE f
      | Missing | Unreadable => BACKUP_FILE f
      end in
    if writable f then
      (Js.Ok (), set_files {| STATE_DIR := STATE_DIR f; writable := writable f;
                              STATE_FILE := Doc state; BACKUP_FILE := backup |} w)
    else (Js.Throw "Failed to save state", w).

Definition loadStateKV : M Loaded :=
  catch
    (λ w, if kv_reachable (w_kv w) then
            match KV_STATE_KEY (w_kv w) with
            | Some state => (Js.Ok (parsed state), w)
            | None => copyOfDefault w
            end
          else (Js.Throw "kv.get failed", w))
    (λ _, copyOfDefault).

(** [await kv.set(key, value)]: [put] stores the value under [key]. *)
Definition kvSet (key : Key) (put : KV → KV) : M unit :=
  λ w, if kvAccepts (w_kv w) key
       then (Js.Ok (), set_kv (put (w_kv w)) w)
       else (Js.Throw "kv.set failed", w).

(** The four [kv.set] calls are awaited one after the other: one that is
    rejected leaves the keys set before it written and the keys after it
    as they were. *)
Definition saveStateKV (state : State) : M unit :=
  catch
    (await _ := kvSet state_full (set_KV_STATE_KEY state) in
     await _ := kvSet state_lastProcessed
                  (set_KV_LAST_PROCESSED_KEY (lastProcessed state)) in
     await _ := kvSet state_failedQueue
                  (set_KV_FAILED_QUEUE_KEY (failedQueue state)) in
     kvSet state_stats (set_KV_STATS_KEY (stats state)))
    (λ _, throw "Failed to save state to KV").

Definition loadState : M Loaded :=
  λ w, if shouldUseKV (w_env w) then loadStateKV w else loadStateLocal w.

Definition saveState (state : State) : M unit :=
  λ w, if shouldUseKV (w_env w) then saveStateKV state w else saveStateLocal state w.

(** A mutation in place of [state.failedQueue] or of [state.stats]
    ([push], [arr[i] = v], [arr[i].attemptCount++], [state.stats.x = v]).
    [f] gives the new value of the state object; when the object is a copy
    of [DEFAULT_STATE] the same array and object are reached from
    [DEFAULT_STATE] too. *)
Definition mutateInPlace (state : Loaded) (f : State → State) : M Loaded :=
  λ w,
    let state' := {| value := f (value state); sharesDefault := sharesDefault state |} in
    (Js.Ok state',
     if sharesDefault state
     then set_DEFAULT_STATE
            (set_failedQueue (failedQueue (value state'))
               (set_stats (stats (value state')) (w_DEFAULT_STATE w))) w
     else w).

Definition getLastProcessed : M (option LastProcessed) :=
  await state := loadState in
  ret (lastProcessed (value state)).

(** [now] is [new Date().toISOString()]. *)
Definition updateLastProcessed (item : PlayItem) (now : string) : M unit :=
  await state := loadState in
  let state :=
    set_lastProcessed
      (Some {| lp_trackId := default "" (track item ≫= track_id);
               lp_trackName := None;
               lp_timestamp := now;
               lp_playedAt := played_at item |})
      (value state) in
  saveState state.

(** The test of [findIndex] and of [filter] on the retry queue. *)
Definition sameEntry (trackId playedAt : string) (item : FailedEntry) : Prop :=
  fe_trackId item = trackId ∧ fe_playedAt item = playedAt.

#[global] Instance sameEntry_dec trackId playedAt item :
  Decision (sameEntry trackId playedAt item).
Proof. unfold sameEntry. apply _. Defined.

Definition addToFailedQueue (item : PlayItem) (error : string) (now : string)
  : M unit :=
  await state := loadState in
  let failedEntry :=
    {| fe_trackId := default "" (track item ≫= track_id);
       fe_trackName :=
         (let name := default "" (track item ≫= track_name) in
          if Js.truthy name then name else "Unknown");
       fe_playedAt := played_at item;
       attemptCount := 1;
       lastAttempt := now;
       fe_error := error;
       partialData := item |} in
  let queue := failedQueue (value state) in
  match list_find (sameEntry (fe_trackId failedEntry) (fe_playedAt failedEntry)) queue with
  | Some (existingIndex, existing) =>
      await state :=
        mutateInPlace state
          (set_failedQueue
             (<[existingIndex :=
                  {| fe_trackId := fe_trackId existing;
                     fe_trackName := fe_trackName existing;
                     fe_playedAt := fe_playedAt existing;
                     attemptCount := attemptCount existing + 1;
                     lastAttempt := lastAttempt failedEntry;
                     fe_error := error;
                     partialData := partialData existing |}]> queue)) in
      saveState (value state)
  | None =>
      await state := mutateInPlace state (set_failedQueue (queue ++ [failedEntry])) in
      saveState (value state)
  end.

Definition getFailedQueue : M (list FailedEntry) :=
  await state := loadState in
  ret (failedQueue (value state)).

Definition clearFromFailedQueue (trackId playedAt : string) : M unit :=
  await state := loadState in
  let originalLength := length (failedQueue (value state)) in
  let state :=
    set_failedQueue
      (filter (λ item, ¬ sameEntry trackId playedAt item) (failedQueue (value state)))
      (value state) in
  let removed := (originalLength - length (failedQueue state))%nat in
  if bool_decide (0 < removed)%nat then saveState state else ret ().

Definition updateStats (successes failures : Z) (now : string) : M unit :=
  await state := loadState in
  await state :=
    mutateInPlace state
      (λ s, set_stats {| lastRun := Some now;
                         successCount := successCount (stats s) + successes;
                         failureCount := failureCount (stats s) + failures |} s) in
  saveState (value state).

Definition getStats : M Stats :=
  await state := loadState in
  ret (stats (value state)).

(** [state.stats = { ...DEFAULT_STATE.stats }]: the loaded object gets a
    stats object of its own, with the values [DEFAULT_STATE.stats] has now. *)
Definition resetStats : M unit :=
  await state := loadState in
  await defaults := copyOfDefault in
  saveState (set_stats (stats (value defaults)) (value state)).

Definition clearAllState : M unit :=
  await defaults := copyOfDefault in
  saveState (value defaults).

Definition getFullState : M Loaded := loadState.

End StateManager.

(** ** lib/metrics.js and lib/alerting.js, as far as they touch the state document *)

Module Telemetry.
Import Model Runtime StateManager.

(** [startExecution] *)
Definition startExecution : M unit :=
  λ w, (Js.Ok (), set_executionStarted true w).

(** [endExecution]. The aggregation of the counters into the [metrics]
    value is not modelled: [aggregate] maps the stored value to the new one. *)
Definition endExecution (aggregate : option Json → Json) : M unit :=
  await started := (λ w, (Js.Ok (w_executionStarted w), w)) in
  if negb started then ret ()
  else
    (* getMetricsState *)
    await state := loadState in
    let metricsState := aggregate (metrics (value state)) in
    (* saveMetricsState *)
    await state := loadState in
    await _ := saveState (set_metrics (Some metricsState) (value state)) in
    λ w, (Js.Ok (), set_executionStarted false w).

Definition getAlertState : M (option Json) :=
  await state := loadState in
  ret (alerts (value state)).

Definition saveAlertState (alertState : Json) : M unit :=
  await state := loadState in
  saveState (set_alerts (Some alertState) (value state)).

(** What [sendAlert] does with the state document. The thresholds, the
    configuration and the 24-hour deduplication are not modelled: the
    decision is given. *)
Inductive AlertDecision :=
| NotRaised                               (* below threshold, or alerts disabled *)
| Deduplicated                            (* [isAlertDuplicate] answered true *)
| Sent (markSent : option Json → Json).  (* delivered, then [markAlertSent] *)

Definition sendAlert (decision : AlertDecision) : M unit :=
  match decision with
  | NotRaised => ret ()
  | Deduplicated =>
      await _ := getAlertState in ret ()
  | Sent markSent =>
      await _ := getAlertState in
      await alertState := getAlertState in
      saveAlertState (markSent alertState)
  end.

(** [trackSuccessfulRun]; [reset] clears the failure counter. *)
Definition trackSuccessfulRun (reset : option Json → Json) : M unit :=
  await alertState := getAlertState in
  saveAlertState (reset alertState).

(** [trackFailedRun]; [bump] increments the failure counter. *)
Definition trackFailedRun (bump : option Json → Json) (decision : AlertDecision)
  : M unit :=
  await alertState := getAlertState in
  await _ := saveAlertState (bump alertState) in
  sendAlert decision.

(** [checkAlertThresholds]: the slow-execution alert, then the error-rate
    alert. *)
Definition checkAlertThresholds (slow errorRate : AlertDecision) : M unit :=
  await _ := sendAlert slow in
  sendAlert errorRate.

End Telemetry.

(** ** api/retry-failed.js *)

Module RetryFailed.
Import Model Runtime StateManager.

Definition MAX_RETRY_ATTEMPTS : Z := 3.
Definition MAX_ENTRIES_PER_RUN : nat := 50.
Definition EXECUTION_TIMEOUT_MS : Z := 45000.

(** The object returned by [processFailedEntry]. *)
Record RetryResult := {
  rr_success : bool;
  rr_trackId : string;
  rr_error : string;
  rr_attemptCount : Z
}.

(** The counters and the [details] of the response. *)
Record Results := {
  processed : Z;
  succeeded : Z;
  failed : Z;
  skipped : Z;
  maxedOut : Z;
  details : list RetryResult
}.

(** The variables of the loop over [entriesToProcess]. *)
Record Loop := {
  results : Results;
  entriesToRemove : list (string * string);
  entriesToUpdate : list FailedEntry;
  maxedOutEntries : list FailedEntry
}.

Definition emptyResults : Results :=
  {| processed := 0; succeeded := 0; failed := 0; skipped := 0; maxedOut := 0;
     details := [] |}.

Definition emptyLoop : Loop :=
  {| results := emptyResults; entriesToRemove := []; entriesToUpdate := [];
     maxedOutEntries := [] |}.

Record Response := {
  statusCode : Z;
  message : string;
  responseStats : Results;
  maxedOutTracks : list string
}.

(** What the run is given from outside: the clock, the sheet, and the
    outcome of the retry of the entry handled in iteration [i] ([None] when
    [processFailedEntry] succeeds, the error message when it catches). One
    reading [clock i] serves both [Date.now()] calls of an iteration. *)
Record Inputs := {
  startTime : Z;
  clock : nat → Z;
  now : string;
  listeningLog : Js.res (list Deduplication.Row);
  retryOutcome : nat → option string
}.

Section WithDate.
Variable DateParse : string → Js.num.

(** The test of the loop of [findErrorRowIndex] on one data row: column 7
    is the track id, column 26 the status, column 0 the timestamp. A cell
    the row does not have is [undefined], an invalid date. *)
Definition isErrorRowOf (trackId playedAt : string) (row : Deduplication.Row) : bool :=
  let rowTrackId := row !! 7%nat in
  let rowStatus := row !! 26%nat in
  let rowTimestamp := row !! 0%nat in
  if bool_decide (rowTrackId = Some trackId) && bool_decide (rowStatus = Some "ERROR")
  then
    let rowTime := rowTimestamp ≫= DateParse in
    let targetTime := DateParse playedAt in
    let timeDiff := Js.abs (Js.sub rowTime targetTime) in
    Js.lt timeDiff (Some (5 * 60 * 1000))
  else false.

(** The loop of [findErrorRowIndex] from index [i]; the answer is the
    1-indexed row number [i + 1]. *)
Fixpoint findErrorRowFrom (i : nat) (trackId playedAt : string)
    (rows : list Deduplication.Row) : option nat :=
  match rows with
  | [] => None
  | row :: rest =>
      if isErrorRowOf trackId playedAt row then Some (i + 1)%nat
      else findErrorRowFrom (S i) trackId playedAt rest
  end.

Definition findErrorRowIndex (sheetRows : list Deduplication.Row)
    (trackId playedAt : string) : option nat :=
  findErrorRowFrom 1 trackId playedAt (drop 1 sheetRows).

Definition isReadyForRetry (nowMs : Z) (failedEntry : FailedEntry) : bool :=
  let lastAttempt := DateParse (lastAttempt failedEntry) in
  let timeSinceLastAttempt := Js.sub (Some nowMs) lastAttempt in
  if bool_decide (attemptCount failedEntry = 1) then
    Js.ge timeSinceLastAttempt (Some 3600000)
  else if bool_decide (attemptCount failedEntry = 2) then
    Js.ge timeSinceLastAttempt (Some 86400000)
  else false.

(** [processFailedEntry] never rejects: its body is one try/catch. *)
Definition processFailedEntry (outcome : option string) (failedEntry : FailedEntry)
  : RetryResult :=
  match outcome with
  | None =>
      {| rr_success := true; rr_trackId := fe_trackId failedEntry;
         rr_error := ""; rr_attemptCount := attemptCount failedEntry |}
  | Some errorMessage =>
      {| rr_success := false; rr_trackId := fe_trackId failedEntry;
         rr_error := errorMessage;
         rr_attemptCount := attemptCount failedEntry + 1 |}
  end.

Section WithInputs.
Variable inp : Inputs.

(** The loop [for (const entry of entriesToProcess)], from iteration [i]. *)
Fixpoint processEntries (i : nat) (entries : list FailedEntry) (acc : Loop) : Loop :=
  match entries with
  | [] => acc
  | entry :: rest =>
      let r := results acc in
      if bool_decide (clock inp i - startTime inp > EXECUTION_TIMEOUT_MS) then acc
      else if bool_decide (attemptCount entry >= MAX_RETRY_ATTEMPTS) then
        processEntries (S i) rest
          {| results :=
               {| processed := processed r; succeeded := succeeded r;
                  failed := failed r; skipped := skipped r;
                  maxedOut := maxedOut r + 1; details := details r |};
             entriesToRemove := entriesToRemove acc;
             entriesToUpdate := entriesToUpdate acc;
             maxedOutEntries := maxedOutEntries acc ++ [entry] |}
      else if negb (isReadyForRetry (clock inp i) entry) then
        processEntries (S i) rest
          {| results :=
               {| processed := processed r; succeeded := succeeded r;
                  failed := failed r; skipped := skipped r + 1;
                  maxedOut := maxedOut r; details := details r |};
             entriesToRemove := entriesToRemove acc;
             entriesToUpdate := entriesToUpdate acc;
             maxedOutEntries := maxedOutEntries acc |}
      else
        let result := processFailedEntry (retryOutcome inp i) entry in
        if rr_success result then
          processEntries (S i) rest
            {| results :=
                 {| processed := processed r + 1; succeeded := succeeded r + 1;
                    failed := failed r; skipped := skipped r;
                    maxedOut := maxedOut r; details := details r ++ [result] |};
               entriesToRemove :=
                 entriesToRemove acc ++ [(fe_trackId entry, fe_playedAt entry)];
               entriesToUpdate := entriesToUpdate acc;
               maxedOutEntries := maxedOutEntries acc |}
        else
          processEntries (S i) rest
            {| results :=
                 {| processed := processed r + 1; succeeded := succeeded r;
                    failed := failed r + 1; skipped := skipped r;
                    maxedOut := maxedOut r; details := details r ++ [result] |};
               entriesToRemove := entriesToRemove acc;
               entriesToUpdate :=
                 entriesToUpdate acc ++
                   [{| fe_trackId := fe_trackId entry;
                       fe_trackName := fe_trackName entry;
                       fe_playedAt := fe_playedAt entry;
                       attemptCount := rr_attemptCount result;
                       lastAttempt := now inp;
                       fe_error := rr_error result;
                       partialData := partialData entry |}];
               maxedOutEntries := maxedOutEntries acc |}
  end.

(** One round of the loop over [entriesToUpdate]:
    [findIndex], then [currentState.failedQueue[index] = updatedEntry]. *)
Definition applyUpdate (queue : list FailedEntry) (updatedEntry : FailedEntry)
  : list FailedEntry :=
  match list_find (sameEntry (fe_trackId updatedEntry) (fe_playedAt updatedEntry)) queue with
  | Some (index, _) => <[index := updatedEntry]> queue
  | None => queue
  end.

(** One round of the loop over [maxedOutEntries]. *)
Definition dropEntry (queue : list FailedEntry) (entry : FailedEntry)
  : list FailedEntry :=
  filter (λ e, ¬ sameEntry (fe_trackId entry) (fe_playedAt entry) e) queue.

(** The handler. The counters echoed in the body of the 500 response are
    left out. *)
Definition handler : M Response :=
  catch
    (await queue := getFailedQueue in
     if bool_decide (length queue = 0%nat) then
       ret {| statusCode := 200; message := "No failed entries to process";
              responseStats := emptyResults; maxedOutTracks := [] |}
     else
       await sheetRows := lift (listeningLog inp) in
       await state := loadState in
       let entriesToProcess := take MAX_ENTRIES_PER_RUN queue in
       let loop := processEntries 0 entriesToProcess emptyLoop in
       await _ :=
         forEach (λ key, clearFromFailedQueue key.1 key.2) (entriesToRemove loop) in
       await _ :=
         (if bool_decide (0 < length (entriesToUpdate loop))%nat then
            await currentState := loadState in
            await currentState :=
              mutateInPlace currentState
                (λ s, set_failedQueue
                        (foldl applyUpdate (failedQueue s) (entriesToUpdate loop)) s) in
            saveState (value currentState)
          else ret ()) in
       await _ :=
         (if bool_decide (0 < length (maxedOutEntries loop))%nat then
            await currentState := loadState in
            saveState
              (set_failedQueue
                 (foldl dropEntry (failedQueue (value currentState))
                    (maxedOutEntries loop))
                 (value currentState))
          else ret ()) in
       await _ :=
         updateStats (succeeded (results loop)) (failed (results loop)) (now inp) in
       ret {| statusCode := 200; message := "Retry processing complete";
              responseStats := results loop;
              maxedOutTracks := fe_trackId <$> maxedOutEntries loop |})
    (λ errorMessage,
       ret {| statusCode := 500; message := errorMessage;
              responseStats := emptyResults; maxedOutTracks := [] |}).

End WithInputs.
End WithDate.

End RetryFailed.

(** ** The hourly logging handler (api/log-spotify.js) *)

Module LogSpotify.
Import Model Runtime StateManager Telemetry.

(** A formatted track, as far as the rows matter here. *)
Record FormattedTrack := {
  ft_trackId : string;
  ft_timestamp : string;
  ft_status : string;
  ft_errorDetails : string
}.

(** The variables of the enrichment loop. *)
Record Enrichment := {
  formattedTracks : list FormattedTrack;
  failedTracks : list (PlayItem * string);
  successes : Z;
  failures : Z
}.

Definition emptyEnrichment : Enrichment :=
  {| formattedTracks := []; failedTracks := []; successes := 0; failures := 0 |}.

Record Response := {
  statusCode : Z;
  message : string;
  logged : Z;
  failedCount : Z
}.

(** What the run is given from outside: the clock, the answers of the
    streaming API and of the sheet, the outcome of the enrichment of the
    [i]-th unique track ([None] when the try block completes, the error
    message when it throws), the outcome of the batch append, and the
    values the metrics and alerting modules compute. *)
Record Inputs := {
  now : string;
  recentlyPlayed : Js.res (list PlayItem);
  listeningLog : Js.res (list Deduplication.Row);
  enrichment : nat → PlayItem → option string;
  appendRows : Js.res unit;
  aggregate : option Json → Json;
  resetAlerts : option Json → Json;
  bumpAlerts : option Json → Json;
  slowAlert : AlertDecision;
  errorRateAlert : AlertDecision;
  failureAlert : AlertDecision
}.

Section WithDate.
Variable DateParse : string → Js.num.

Section WithInputs.
Variable inp : Inputs.

(** [createErrorPlaceholder]: [formatTimestamp(played_at || new Date())]
    calls [toISOString] on the parsed date, which throws on an invalid one. *)
Definition createErrorPlaceholder (item : PlayItem) (error : string)
  : Js.res FormattedTrack :=
  let placeholder timestamp :=
    {| ft_trackId := default "" (track item ≫= track_id);
       ft_timestamp := timestamp;
       ft_status := "ERROR";
       ft_errorDetails := error |} in
  if Js.truthy (played_at item) then
    match DateParse (played_at item) with
    | Some _ => Js.Ok (placeholder (played_at item))
    | None => Js.Throw "Invalid time value"
    end
  else Js.Ok (placeholder (now inp)).

(** The loop [for (const track of uniqueTracks)] of step 6, from
    iteration [i]. *)
Fixpoint enrichTracks (i : nat) (uniqueTracks : list PlayItem) (acc : Enrichment)
  : Js.res Enrichment :=
  match uniqueTracks with
  | [] => Js.Ok acc
  | item :: rest =>
      match enrichment inp i item with
      | None =>
          enrichTracks (S i) rest
            {| formattedTracks :=
                 formattedTracks acc ++
                   [{| ft_trackId := default "" (track item ≫= track_id);
                       ft_timestamp := played_at item;
                       ft_status := "COMPLETED";
                       ft_errorDetails := "" |}];
               failedTracks := failedTracks acc;
               successes := successes acc + 1;
               failures := failures acc |}
      | Some errorMessage =>
          match createErrorPlaceholder item errorMessage with
          | Js.Throw thrown => Js.Throw thrown
          | Js.Ok errorPlaceholder =>
              enrichTracks (S i) rest
                {| formattedTracks := formattedTracks acc ++ [errorPlaceholder];
                   failedTracks := failedTracks acc ++ [(item, errorMessage)];
                   successes := successes acc;
                   failures := failures acc + 1 |}
          end
      end
  end.

Definition respond (code : Z) (text : string) (successCount failureCount : Z)
  : Response :=
  {| statusCode := code; message := text;
     logged := successCount; failedCount := failureCount |}.

(** Steps 8 to 10: the batch append, then the state updates. *)
Definition commit (uniqueTracks : list PlayItem) (enriched : Enrichment)
  : M Response :=
  await _ := lift (appendRows inp) in
  await _ :=
    match PlayFilter.getMostRecentTrack DateParse uniqueTracks with
    | Some mostRecent => updateLastProcessed mostRecent (now inp)
    | None => ret ()
    end in
  await _ :=
    forEach (λ failed, addToFailedQueue failed.1 failed.2 (now inp))
      (failedTracks enriched) in
  await _ := updateStats (successes enriched) (failures enriched) (now inp) in
  await _ := endExecution (aggregate inp) in
  await _ := checkAlertThresholds (slowAlert inp) (errorRateAlert inp) in
  await _ := trackSuccessfulRun (resetAlerts inp) in
  ret (respond 200 "Logging complete" (successes enriched) (failures enriched)).

(** The [try] block of the handler. *)
Definition run : M Response :=
  await state := loadState in
  await _ := getStats in
  await tracks := lift (recentlyPlayed inp) in
  if bool_decide (length tracks = 0%nat) then
    ret (respond 200 "No recent tracks to process" 0 0)
  else
    let filteredTracks :=
      PlayFilter.filterNewPlays DateParse tracks (Some (value state)) in
    let sortedTracks := PlayFilter.sortTracksByTimestamp DateParse filteredTracks in
    if bool_decide (length filteredTracks = 0%nat) then
      ret (respond 200 "No new plays to log" 0 0)
    else
      await sheetRows := lift (listeningLog inp) in
      let reconciled :=
        Deduplication.reconcileState DateParse sheetRows (Some (value state)) in
      let uniqueTracks :=
        Deduplication.filterDuplicatesAgainstSheet DateParse sortedTracks sheetRows in
      if bool_decide (length uniqueTracks = 0%nat) then
        ret (respond 200 "All tracks already logged" 0 0)
      else
        await enriched := lift (enrichTracks 0 uniqueTracks emptyEnrichment) in
        commit uniqueTracks enriched.

(** The handler: [startExecution], the [try] block, and the [catch] block
    with [endExecution] and [trackFailedRun]. The counters echoed in the
    body of the 500 response are left out. *)
Definition handler : M Response :=
  await _ := startExecution in
  catch run
    (λ errorMessage,
       await _ := endExecution (aggregate inp) in
       await _ := trackFailedRun (bumpAlerts inp) (failureAlert inp) in
       ret (respond 500 errorMessage 0 0)).

End WithInputs.
End WithDate.

End LogSpotify.

(** ** lib/data-validator.js: strings for the sheet *)

Module DataValidator.

Definition MAX_STRING_LENGTH : nat := 500.

(** A string value as the list of its UTF-16 code units, the units that
    [length], [substring] and the regular expressions count. *)
Definition CodeUnits := list N.

(** The class [[\x00-\x08\x0B\x0C\x0E-\x1F\x7F]]. *)
Definition isControlCharacter (c : N) : bool :=
  (c <=? 8)%N || (c =? 11)%N || (c =? 12)%N
  || ((14 <=? c)%N && (c <=? 31)%N) || (c =? 127)%N.

(** [validateString] on a string value: [None] is [null], no error. *)
Definition validateString (value : CodeUnits) (fieldName : string) : option string :=
  if bool_decide (value = []) then None
  else if bool_decide (MAX_STRING_LENGTH < length value)%nat
  then Some (fieldName +:+ " exceeds maximum length of 500 characters")
  else if existsb isControlCharacter value
  then Some (fieldName +:+ " contains invalid control characters")
  else None.

(** [sanitizeString] on a string value; the three dots are three code
    units 46. *)
Definition sanitizeString (value : CodeUnits) : CodeUnits :=
  if bool_decide (value = []) then value
  else
    let sanitized := List.filter (λ c, negb (isControlCharacter c)) value in
    if bool_decide (MAX_STRING_LENGTH < length sanitized)%nat
    then take (MAX_STRING_LENGTH - 3) sanitized ++ [46; 46; 46]%N
    else sanitized.

End DataValidator.

(** ** lib/sheets-api.js: requests with retries *)

Module SheetsApi.

Definition MAX_RETRIES : nat := 3.
Definition INITIAL_RETRY_DELAY : Z := 1000.

(** A rejected request: [error.code] when it is a number, and
    [error.message]. *)
Record ApiError := {
  code : option Z;
  errorMessage : string
}.

Inductive Outcome (A : Type) : Type :=
| Resolved (a : A)
| Rejected (error : ApiError).
Arguments Resolved {A} a.
Arguments Rejected {A} error.

(** What a call of [makeSheetsRequest] did: the [sleep]s it awaited, in
    order, and how it settled. It called [requestFn] once more than it
    slept. *)
Record Trace (A : Type) := {
  slept : list Z;
  outcome : Outcome A
}.
Arguments slept {A} _.
Arguments outcome {A} _.

Definition sleepThen {A} (ms : Z) (rest : Trace A) : Trace A :=
  {| slept := ms :: slept rest; outcome := outcome rest |}.

(** The two tests that lead to a retry: [status === 429] and
    [status >= 500 && status < 600]. *)
Definition isRetryable (error : ApiError) : bool :=
  bool_decide (code error = Some 429)
  || (Js.ge (code error) (Some 500) && Js.lt (code error) (Some 600)).

(** The end of the [catch] block: what is thrown when no retry is made. *)
Definition rethrown (error : ApiError) : ApiError :=
  if bool_decide (code error = Some 403) then
    {| code := None;
       errorMessage :=
         "Permission denied: Service account needs Editor access to the Google Sheet" |}
  else if bool_decide (code error = Some 404) then
    {| code := None;
       errorMessage :=
         "Sheet not found: Verify GOOGLE_SHEETS_ID in environment variables" |}
  else error.

(** [makeSheetsRequest(requestFn, retryCount)], where [requestFn k] is how
    the request made at retry count [k] settles. The recursion is on
    [budget], which [makeSheetsRequest] starts at
    [MAX_RETRIES - retryCount]: it is positive wherever
    [retryCount < MAX_RETRIES] holds. *)
Fixpoint attempt {A} (requestFn : nat → Outcome A) (budget retryCount : nat)
  : Trace A :=
  match requestFn retryCount with
  | Resolved a => {| slept := []; outcome := Resolved a |}
  | Rejected error =>
      let waitTime := INITIAL_RETRY_DELAY * 2 ^ Z.of_nat retryCount in
      if isRetryable error && bool_decide (retryCount < MAX_RETRIES)%nat then
        match budget with
        | S budget' => sleepThen waitTime (attempt requestFn budget' (S retryCount))
        | O => {| slept := []; outcome := Rejected (rethrown error) |}
        end
      else {| slept := []; outcome := Rejected (rethrown error) |}
  end.

Definition makeSheetsRequest {A} (requestFn : nat → Outcome A) (retryCount : nat)
  : Trace A :=
  attempt requestFn (MAX_RETRIES - retryCount) retryCount.

(** The requests at retry counts [from], ..., [from + n - 1] were
    rejected with an error that leads to a retry. *)
Definition retried {A} (requestFn : nat → Outcome A) (from n : nat) : Prop :=
  ∀ k, (from ≤ k < from + n)%nat →
    ∃ error, requestFn k = Rejected error ∧ isRetryable error = true.

End SheetsApi.

(** ** lib/system-logger.js: the log buffer *)

Module SystemLogger.


Record LogEntry := {
  le_timestamp : string;
  le_level : string;
  le_eventType : string;
  le_details : string;
  le_retryCount : option Z;
  le_resolutionTime : option string;
  le_affectedTracks : string
}.




(** How the two requests of a flush settle: [createSheetIfNotExists] and
    [appendRows]. A rejected append has written nothing. *)
Record Sheets := {
  createSheet : Js.res unit;
  appendRows : Js.res unit
}.




(** A call into the logger: one of the [log...] functions, which build an
    entry and add it, or [flush]. *)
Inductive Call :=
| Log (entry : LogEntry) (sheets : Sheets)
| Flush (sheets : Sheets).


(** The entries a sequence of calls logs. *)
Definition logged (calls : list Call) : list LogEntry :=
  omap (λ c, match c with Log entry _ => Some entry | Flush _ => None end) calls.




End SystemLogger.

(** ** What the storage shows *)

Module View.
Import Model Runtime StateManager.

(** Where [loadState] takes its answer from. *)
Inductive Source :=
| FromDoc (s : State)
| FromDefault
| Rejects (message : string).

Definition source (w : World) : Source :=
  if shouldUseKV (w_env w) then
    if kv_reachable (w_kv w) then
      match KV_STATE_KEY (w_kv w) with
      | Some s => FromDoc s
      | None => FromDefault
      end
    else FromDefault
  else
    match STATE_DIR (w_files w) with
    | DirBlocked => Rejects "EACCES: permission denied, mkdir"
    | DirPresent | DirAbsent =>
        match STATE_FILE (w_files w) with
        | Doc s => FromDoc s
        | Missing => FromDefault
        | Unreadable | Corrupt =>
            match BACKUP_FILE (w_files w) with
            | Doc s => FromDoc s
            | Missing | Unreadable | Corrupt => FromDefault
            end
        end
    end.

(** The state a [loadState] would return now. *)
Definition view (w : World) : Js.res State :=
  match source w with
  | FromDoc s => Js.Ok s
  | FromDefault => Js.Ok (w_DEFAULT_STATE w)
  | Rejects message => Js.Throw message
  end.

(** The storage accepts a [saveState]: on the store, each of the four
    [kv.set] calls. *)
Definition accepts (w : World) : bool :=
  if shouldUseKV (w_env w) then
    kvAccepts (w_kv w) state_full && kvAccepts (w_kv w) state_lastProcessed
    && kvAccepts (w_kv w) state_failedQueue && kvAccepts (w_kv w) state_stats
  else
    match STATE_DIR (w_files w) with
    | DirBlocked => false
    | DirPresent | DirAbsent => writable (w_files w)
    end.

(** The stored documents, without the state directory. *)
Definition stored (w : World) : File * File * KV :=
  (STATE_FILE (w_files w), BACKUP_FILE (w_files w), w_kv w).

(** The three fields the pipeline maintains. *)
Definition core (s : State) : option LastProcessed * list FailedEntry * Stats :=
  (lastProcessed s, failedQueue s, stats s).

(** The view satisfies [Q]. *)
Definition shows (Q : State → Prop) (w : World) : Prop :=
  ∃ s, view w = Js.Ok s ∧ Q s.

(** The view is [s] and the storage accepts writes. *)
Definition holds (s : State) (w : World) : Prop :=
  view w = Js.Ok s ∧ accepts w = true.

(** Hoare triples of the [M] computations. *)
Definition hoare {A} (P : World → Prop) (m : M A) (Q : Js.res A → World → Prop)
  : Prop :=
  ∀ w, P w → Q (m w).1 (m w).2.

(** A step that keeps an invariant whatever it returns. *)
Definition keeps {A} (I : World → Prop) (m : M A) : Prop :=
  hoare I m (λ _, I).



(** The marker of [s'] is [m0], or one played strictly later than [t0]. *)
Definition notOlder (DateParse : string → Js.num) (m0 : LastProcessed) (t0 : Z)
    (s' : State) : Prop :=
  ∃ m' t', lastProcessed s' = Some m'
           ∧ DateParse (lp_playedAt m') = Some t'
           ∧ (m' = m0 ∨ t0 < t')
           ∧ t0 ≤ t'.

(** [Q] can be judged on the shared [failedQueue] and [stats] of one state
    put into another. *)
Definition separable (Q : State → Prop) : Prop :=
  ∀ a d, Q a → Q d →
    Q (set_failedQueue (failedQueue a) (set_stats (stats a) d)).

End View.

(** ** Notions of the further properties *)

Module Notions.
Import Model Runtime StateManager View.

(** [a] was played no later than [b], both at a valid date. *)
Definition playedNoLater (DateParse : string → Js.num) (a b : PlayItem) : Prop :=
  ∃ ta tb, DateParse (played_at a) = Some ta
           ∧ DateParse (played_at b) = Some tb
           ∧ ta ≤ tb.

(** Every play of the list has a valid [played_at]. *)
Definition allDated (DateParse : string → Js.num) (tracks : list PlayItem) : Prop :=
  ∀ item, item ∈ tracks → is_Some (DateParse (played_at item)).

(** The key of a queue entry: the pair [findIndex] and [filter] compare. *)
Definition entryKey (e : FailedEntry) : string * string :=
  (fe_trackId e, fe_playedAt e).

(** The key [addToFailedQueue] gives the entry of a play. *)
Definition playKey (item : PlayItem) : string * string :=
  (default "" (track item ≫= track_id), played_at item).

(** No two entries of the retry queue are for the same play. *)
Definition uniqueKeys (s : State) : Prop := NoDup (entryKey <$> failedQueue s).

(** The keys of the queue of [s] are among [keys], in the same order. *)
Definition keysWithin (keys : list (string * string)) (s : State) : Prop :=
  (entryKey <$> failedQueue s) `sublist_of` keys.

(** Two states that differ at most in their retry queue. *)
Definition sameOutsideQueue (s s' : State) : Prop :=
  lastProcessed s' = lastProcessed s
  ∧ stats s' = stats s
  ∧ alerts s' = alerts s
  ∧ metrics s' = metrics s
  ∧ historicalImport s' = historicalImport s.

(** The world [w] with the main state file replaced by [file]: the file
    got lost, unreadable or corrupt behind the back of the process. *)
Definition withStateFile (file : File) (w : World) : World :=
  set_files {| STATE_DIR := STATE_DIR (w_files w);
               writable := writable (w_files w);
               STATE_FILE := file;
               BACKUP_FILE := BACKUP_FILE (w_files w) |} w.

(** The storage accepts writes and its view satisfies [Φ]. *)
Definition accepting (Φ : State → Prop) (w : World) : Prop :=
  accepts w = true ∧ ∃ s, view w = Js.Ok s ∧ Φ s.

(** The tracks the logging run goes on with after its two filters. *)
Definition uniqueTracksOf (DateParse : string → Js.num) (tracks : list PlayItem)
    (sheetRows : list Deduplication.Row) (s : State) : list PlayItem :=
  Deduplication.filterDuplicatesAgainstSheet DateParse
    (PlayFilter.sortTracksByTimestamp DateParse
       (PlayFilter.filterNewPlays DateParse tracks (Some s)))
    sheetRows.

(** The counters of a retry pass add up, and count at most [limit]
    entries. *)
Definition tallied (limit : Z) (results : RetryFailed.Results) : Prop :=
  RetryFailed.processed results
  = RetryFailed.succeeded results + RetryFailed.failed results
  ∧ Z.of_nat (length (RetryFailed.details results)) = RetryFailed.processed results
  ∧ 0 ≤ RetryFailed.succeeded results
  ∧ 0 ≤ RetryFailed.failed results
  ∧ 0 ≤ RetryFailed.skipped results
  ∧ 0 ≤ RetryFailed.maxedOut results
  ∧ RetryFailed.processed results + RetryFailed.skipped results
    + RetryFailed.maxedOut results ≤ limit.

(** The component keys of the store repeat the fields of [state:full]. *)
Definition mirrored (kv : KV) : Prop :=
  ∀ s, KV_STATE_KEY kv = Some s →
    KV_LAST_PROCESSED_KEY kv = Some (lastProcessed s)
    ∧ KV_FAILED_QUEUE_KEY kv = Some (failedQueue s)
    ∧ KV_STATS_KEY kv = Some (stats s).

(** The store rejects no [kv.set] of one of the three component keys. *)
Definition componentsAccepted (kv : KV) : Prop :=
  kv_refused kv state_lastProcessed = false
  ∧ kv_refused kv state_failedQueue = false
  ∧ kv_refused kv state_stats = false.

(** A state document can be read and [DEFAULT_STATE] is [d]. *)
Definition documentWithDefault (d : State) (w : World) : Prop :=
  w_DEFAULT_STATE w = d ∧ ∃ s, source w = FromDoc s.

End Notions.

(** ** Sample values and the statements under test *)

Module Examples.
Import Model.

Definition song (id : string) (ms : Z) : Track :=
  {| track_id := Some id; track_name := Some "Song"; duration_ms := Some ms;
     artists := ["artist1"] |}.

Definition play (id : string) (ms : Z) (at_ : string) : PlayItem :=
  {| track := Some (song id ms); played_at := at_ |}.

Definition marker (id : string) (at_ : string) : LastProcessed :=
  {| lp_trackId := id; lp_trackName := None;
     lp_timestamp := "2024-01-15T12:05:00.000Z"; lp_playedAt := at_ |}.

Definition stateWith (m : LastProcessed) : State :=
  set_lastProcessed (Some m) DEFAULT_STATE.

(** The marker is track [abc123] played at noon. *)
Definition noonState : State := stateWith (marker "abc123" "2024-01-15T12:00:00.000Z").

(** The same track one minute before the marker, ten seconds after it and
    one minute after it. *)
Definition olderPlay : PlayItem := play "abc123" 180000 "2024-01-15T11:59:00.000Z".
Definition nearPlay : PlayItem := play "abc123" 180000 "2024-01-15T12:00:10.000Z".
Definition laterPlay : PlayItem := play "abc123" 180000 "2024-01-15T12:01:00.000Z".

(** A marker written for a play without track id ([trackId: '']), and a
    play with the empty id ten seconds after it. *)
Definition anonState : State := stateWith (marker "" "2024-01-15T12:00:00.000Z").
Definition anonPlay : PlayItem := play "" 180000 "2024-01-15T12:00:10.000Z".

(** A play whose track has duration zero. *)
Definition silentPlay : PlayItem := play "zzz999" 0 "2024-01-15T12:01:00.000Z".

(** A process that has just loaded its modules, on the local backend. *)
Definition localEnv : Runtime.Env :=
  {| Runtime.USE_KV := None; Runtime.VERCEL_ENV := None;
     Runtime.KV_REST_API_URL := None; Runtime.KV_REST_API_TOKEN := None |}.

Definition emptyKV : Runtime.KV :=
  {| Runtime.kv_reachable := false; Runtime.kv_refused := λ _, false;
     Runtime.KV_STATE_KEY := None;
     Runtime.KV_LAST_PROCESSED_KEY := None; Runtime.KV_FAILED_QUEUE_KEY := None;
     Runtime.KV_STATS_KEY := None |}.

Definition freshProcess (files : Runtime.LocalFiles) : Runtime.World :=
  {| Runtime.w_env := localEnv; Runtime.w_files := files; Runtime.w_kv := emptyKV;
     Runtime.w_DEFAULT_STATE := DEFAULT_STATE;
     Runtime.w_executionStarted := false |}.

(** A state directory without files, writable or not. *)
Definition emptyDir : Runtime.LocalFiles :=
  {| Runtime.STATE_DIR := Runtime.DirPresent; Runtime.writable := true;
     Runtime.STATE_FILE := Runtime.Missing; Runtime.BACKUP_FILE := Runtime.Missing |}.

Definition readOnlyDir : Runtime.LocalFiles :=
  {| Runtime.STATE_DIR := Runtime.DirPresent; Runtime.writable := false;
     Runtime.STATE_FILE := Runtime.Missing; Runtime.BACKUP_FILE := Runtime.Missing |}.

(** A directory holding a state document. *)
Definition dirWith (s : State) : Runtime.LocalFiles :=
  {| Runtime.STATE_DIR := Runtime.DirPresent; Runtime.writable := true;
     Runtime.STATE_FILE := Runtime.Doc s; Runtime.BACKUP_FILE := Runtime.Missing |}.

(** A retry pass started at [start] during which [elapsed] milliseconds
    have gone by when the loop begins, and in which every retry fails. *)
Definition failingPass (start elapsed : Z) (nowIso : string) : RetryFailed.Inputs :=
  {| RetryFailed.startTime := start;
     RetryFailed.clock := λ _, start + elapsed;
     RetryFailed.now := nowIso;
     RetryFailed.listeningLog := Js.Ok [];
     RetryFailed.retryOutcome := λ _, Some "429 Too Many Requests" |}.








(** A pass within its time budget. *)
Definition timelyPass : RetryFailed.Inputs :=
  failingPass 1705413600000 0 "2024-01-16T14:00:00.000Z".

(** The sheet: the header and one logged row, played at 12:01. *)
Definition headerRow : Deduplication.Row :=
  ["Timestamp"; "Track Name"; "Artist(s)"; "Album"; "Duration (ms)";
   "Play Duration (ms)"; "Completion %"; "Track ID"].

Definition loggedRow : Deduplication.Row :=
  ["2024-01-15T12:01:00.000Z"; "Song"; "Artist"; "Album"; "180000"; "180000";
   "100"; "abc123"].

Definition sheetMarker : LastProcessed :=
  {| lp_trackId := "abc123"; lp_trackName := Some "Song";
     lp_timestamp := "2024-01-15T12:01:00.000Z";
     lp_playedAt := "2024-01-15T12:01:00.000Z" |}.

(** A run of the logging handler that fetches the plays at 12:00:10 and
    12:01, finds only the header in the sheet, fails to enrich the first
    unique track, and whose batch append has the given outcome. *)
Definition loggingRun (append : Js.res ()) : LogSpotify.Inputs :=
  {| LogSpotify.now := "2024-01-15T12:05:00.000Z";
     LogSpotify.recentlyPlayed := Js.Ok [laterPlay; nearPlay];
     LogSpotify.listeningLog := Js.Ok [headerRow];
     LogSpotify.enrichment := λ i _, if bool_decide (i = 0%nat)
                                     then Some "503 Service Unavailable" else None;
     LogSpotify.appendRows := append;
     LogSpotify.aggregate := λ _, "{}";
     LogSpotify.resetAlerts := λ _, "{}";
     LogSpotify.bumpAlerts := λ _, "{}";
     LogSpotify.slowAlert := Telemetry.NotRaised;
     LogSpotify.errorRateAlert := Telemetry.NotRaised;
     LogSpotify.failureAlert := Telemetry.NotRaised |}.

(** Two queued entries. *)
Definition entryFor (item : PlayItem) (count : Z) : FailedEntry :=
  {| fe_trackId := default "" (track item ≫= track_id);
     fe_trackName := "Song"; fe_playedAt := played_at item;
     attemptCount := count; lastAttempt := "2024-01-15T12:00:00.000Z";
     fe_error := "503 Service Unavailable"; partialData := item |}.

Definition twoQueued : State :=
  set_failedQueue [entryFor laterPlay 3; entryFor nearPlay 1] noonState.

(** The exclusion half of the duplicate rule as the specification words it. *)
Definition exclusion_as_stated (DateParse : string → Js.num) : Prop :=
  ∀ (tracks : list PlayItem) (st : State) (lp : LastProcessed) (e : PlayItem) (t t0 : Z),
    In e tracks →
    lastProcessed st = Some lp →
    track e ≫= track_id = Some (lp_trackId lp) →
    DateParse (played_at e) = Some t →
    DateParse (lp_playedAt lp) = Some t0 →
    Z.abs (t - t0) < 30000 →
    ¬ In e (PlayFilter.filterNewPlays DateParse tracks (Some st)).

(** The retention half of the duplicate rule as the specification words it. *)
Definition retention_as_stated (DateParse : string → Js.num) : Prop :=
  ∀ (tracks : list PlayItem) (st : State) (lp : LastProcessed) (e : PlayItem) (t t0 : Z),
    In e tracks →
    lastProcessed st = Some lp →
    track e ≫= track_id = Some (lp_trackId lp) →
    DateParse (played_at e) = Some t →
    DateParse (lp_playedAt lp) = Some t0 →
    30000 ≤ Z.abs (t - t0) →
    In e (PlayFilter.filterNewPlays DateParse tracks (Some st)).

End Examples.

(** ** Sample values of the further properties *)

Module Samples.
Import Model Examples.

(** A play of a known track whose [played_at] is not a date. *)
Definition undatedPlay : PlayItem := play "abc123" 180000 "yesterday".

(** A play of a local file: its track has no id. *)
Definition localFilePlay : PlayItem :=
  {| track := Some {| track_id := None; track_name := Some "Home recording";
                      duration_ms := Some 200000; artists := [] |};
     played_at := "2024-01-15T12:01:00.000Z" |}.

(** An item without a [track] object. *)
Definition tracklessPlay : PlayItem :=
  {| track := None; played_at := "2024-01-15T12:00:30.000Z" |}.

(** Three plays, not in the order they were played. *)
Definition threePlays : list PlayItem := [laterPlay; olderPlay; nearPlay].

(** Two plays with the same timestamp, then an older one. *)
Definition tiedPlays : list PlayItem := [laterPlay; localFilePlay; olderPlay].

(** Two plays of one track, then a play of another. *)
Definition repeatedPlays : list PlayItem := [nearPlay; laterPlay; silentPlay].

(** The marker is track [abc123] played at 12:05. *)
Definition lateState : State :=
  stateWith (marker "abc123" "2024-01-15T12:05:00.000Z").

(** The state whose marker was built for the play at 12:01. *)
Definition recordedState : State :=
  stateWith (PlayFilter.createLastProcessedState laterPlay "2024-01-15T12:05:00.000Z").

(** A deployment with the key/value store. *)
Definition kvEnv : Runtime.Env :=
  {| Runtime.USE_KV := Some "true"; Runtime.VERCEL_ENV := Some "production";
     Runtime.KV_REST_API_URL := Some "https://kv.example";
     Runtime.KV_REST_API_TOKEN := Some "token" |}.

(** A store that holds [s] under its four keys. *)
Definition kvWith (s : State) : Runtime.KV :=
  {| Runtime.kv_reachable := true; Runtime.kv_refused := λ _, false;
     Runtime.KV_STATE_KEY := Some s;
     Runtime.KV_LAST_PROCESSED_KEY := Some (lastProcessed s);
     Runtime.KV_FAILED_QUEUE_KEY := Some (failedQueue s);
     Runtime.KV_STATS_KEY := Some (stats s) |}.

(** The same store when it rejects a [kv.set] of ['state:lastProcessed']. *)
Definition kvStale (s : State) : Runtime.KV :=
  {| Runtime.kv_reachable := true;
     Runtime.kv_refused :=
       λ key, match key with
              | Runtime.state_lastProcessed => true
              | _ => false
              end;
     Runtime.KV_STATE_KEY := Some s;
     Runtime.KV_LAST_PROCESSED_KEY := Some (lastProcessed s);
     Runtime.KV_FAILED_QUEUE_KEY := Some (failedQueue s);
     Runtime.KV_STATS_KEY := Some (stats s) |}.

Definition kvProcess (kv : Runtime.KV) : Runtime.World :=
  {| Runtime.w_env := kvEnv; Runtime.w_files := emptyDir; Runtime.w_kv := kv;
     Runtime.w_DEFAULT_STATE := DEFAULT_STATE;
     Runtime.w_executionStarted := false |}.

(** A play of the marker's track whose [played_at] is the empty string. *)
Definition blankPlay : PlayItem := play "abc123" 180000 "".

(** A run of the logging handler that fetches that play alone, finds only
    the header in the sheet, enriches the play and appends its row. *)
Definition blankRun : LogSpotify.Inputs :=
  {| LogSpotify.now := "2024-01-15T12:05:00.000Z";
     LogSpotify.recentlyPlayed := Js.Ok [blankPlay];
     LogSpotify.listeningLog := Js.Ok [headerRow];
     LogSpotify.enrichment := λ _ _, None;
     LogSpotify.appendRows := Js.Ok ();
     LogSpotify.aggregate := λ _, "{}";
     LogSpotify.resetAlerts := λ _, "{}";
     LogSpotify.bumpAlerts := λ _, "{}";
     LogSpotify.slowAlert := Telemetry.NotRaised;
     LogSpotify.errorRateAlert := Telemetry.NotRaised;
     LogSpotify.failureAlert := Telemetry.NotRaised |}.

(** The order of the markers as the specification words it: across a run
    that answers 200, the [playedAt] of the persisted marker is a time not
    earlier than the one before the run. *)
Definition monotone_as_stated (DateParse : string → Js.num) : Prop :=
  ∀ (inp : LogSpotify.Inputs) (w : Runtime.World) (s s' : State)
    (m0 m' : LastProcessed) (t0 : Z) (response : LogSpotify.Response),
    View.view w = Js.Ok s →
    lastProcessed s = Some m0 →
    DateParse (lp_playedAt m0) = Some t0 →
    (LogSpotify.handler DateParse inp w).1 = Js.Ok response →
    LogSpotify.statusCode response = 200 →
    View.view (LogSpotify.handler DateParse inp w).2 = Js.Ok s' →
    lastProcessed s' = Some m' →
    ∃ t', DateParse (lp_playedAt m') = Some t' ∧ t0 ≤ t'.


(** A retry pass that cannot read the sheet. *)
Definition blindPass : RetryFailed.Inputs :=
  {| RetryFailed.startTime := 1705413600000;
     RetryFailed.clock := λ _, 1705413600000;
     RetryFailed.now := "2024-01-16T14:00:00.000Z";
     RetryFailed.listeningLog := Js.Throw "The service is currently unavailable";
     RetryFailed.retryOutcome := λ _, None |}.




End Samples.


(** * Properties *)

(** ** Facts about JavaScript comparisons *)

Module JsFacts.

Lemma lt_Some (x y : Z) : Js.lt (Some x) (Some y) = true ↔ x < y.
Proof. unfold Js.lt. apply bool_decide_eq_true. Qed.

Lemma truthy_true (s : string) : Js.truthy s = true ↔ s ≠ "".
Proof. unfold Js.truthy. apply bool_decide_eq_true. Qed.

Lemma truthy_false (s : string) : Js.truthy s = false ↔ s = "".
Proof.
  unfold Js.truthy. rewrite bool_decide_eq_false. split.
  - intros H. by destruct (decide (s = "")) as [->|Hne]; [|destruct (H Hne)].
  - intros -> H. by apply H.
Qed.

End JsFacts.

(** ** The play filter *)

Module PlayFilterProps.
Import Model PlayFilter Examples.

Section WithDate.
Variable DateParse : string → Js.num.

Lemma filterNewPlays_In (tracks : list PlayItem) (st : option State) (e : PlayItem) :
  In e (filterNewPlays DateParse tracks st)
  ↔ In e tracks ∧ keepPlay DateParse st e = true.
Proof.
  unfold filterNewPlays. destruct tracks as [|x tracks].
  - simpl. tauto.
  - apply filter_In.
Qed.

Lemma isValidPlay_positive (e : PlayItem) (minDuration : Z) :
  isValidPlay e minDuration = true → 0 < trackDuration e ∨ minDuration ≤ trackDuration e.
Proof.
  unfold isValidPlay. case_bool_decide as Hshort.
  - intros H%bool_decide_eq_true. lia.
  - intros _. lia.
Qed.

(** C9: an event whose catalog duration is zero, negative or absent is not
    in the result of [filterNewPlays]. *)
Theorem filterNewPlays_excludes_nonpositive_duration
    (tracks : list PlayItem) (st : option State) (e : PlayItem) :
  trackDuration e ≤ 0 →
  ¬ In e (filterNewPlays DateParse tracks st).
Proof.
  intros Hdur [_ Hkeep]%filterNewPlays_In.
  unfold keepPlay in Hkeep.
  destruct (isValidPlay e MIN_PLAY_DURATION_MS) eqn:Hvalid; [|discriminate].
  apply isValidPlay_positive in Hvalid. unfold MIN_PLAY_DURATION_MS in Hvalid. lia.
Qed.

Lemma isDuplicate_same_track (e : PlayItem) (lp : LastProcessed) (t t0 : Z) :
  lp_trackId lp ≠ "" →
  track e ≫= track_id = Some (lp_trackId lp) →
  DateParse (played_at e) = Some t →
  DateParse (lp_playedAt lp) = Some t0 →
  isDuplicate DateParse e (Some lp) = bool_decide (Z.abs (t - t0) < 30000).
Proof.
  intros Hid Hsame Ht Ht0. unfold isDuplicate.
  apply JsFacts.truthy_true in Hid. rewrite Hid. simpl.
  rewrite Hsame, Ht, Ht0. rewrite bool_decide_eq_true_2 by done.
  simpl. unfold MIN_PLAY_DURATION_MS. by case_bool_decide.
Qed.

Lemma lastProcessedTime_parsed (st : State) (lp : LastProcessed) (t0 : Z) :
  DateParse "" = None →
  lastProcessed st = Some lp →
  DateParse (lp_playedAt lp) = Some t0 →
  lastProcessedTime DateParse (Some st) = Some t0.
Proof.
  intros Hempty Hlp Ht0. unfold lastProcessedTime. simpl. rewrite Hlp.
  destruct (Js.truthy (lp_playedAt lp)) eqn:Htruthy; [done|].
  apply JsFacts.truthy_false in Htruthy. congruence.
Qed.

(** C1, amended: for a marker with a non-empty track id, an event of the
    same track within 30000 ms of the marker is excluded, and one at least
    30000 ms away is retained exactly when it passes the duration check and
    is strictly later than the marker. *)
Theorem filterNewPlays_same_track_as_marker
    (tracks : list PlayItem) (st : State) (lp : LastProcessed) (e : PlayItem)
    (t t0 : Z) :
  DateParse "" = None →
  lastProcessed st = Some lp →
  lp_trackId lp ≠ "" →
  track e ≫= track_id = Some (lp_trackId lp) →
  DateParse (played_at e) = Some t →
  DateParse (lp_playedAt lp) = Some t0 →
  (Z.abs (t - t0) < 30000 →
     ¬ In e (filterNewPlays DateParse tracks (Some st)))
  ∧ (30000 ≤ Z.abs (t - t0) →
     (In e (filterNewPlays DateParse tracks (Some st))
      ↔ In e tracks ∧ isValidPlay e MIN_PLAY_DURATION_MS = true ∧ t0 < t)).
Proof.
  intros Hempty Hlp Hid Hsame Ht Ht0.
  pose proof (isDuplicate_same_track e lp t t0 Hid Hsame Ht Ht0) as Hdup.
  pose proof (lastProcessedTime_parsed st lp t0 Hempty Hlp Ht0) as Hlast.
  assert (Hkeep : keepPlay DateParse (Some st) e
                  = isValidPlay e MIN_PLAY_DURATION_MS
                    && negb (bool_decide (Z.abs (t - t0) < 30000))
                    && negb (bool_decide (t ≤ t0))).
  { unfold keepPlay. simpl. rewrite Hlp, Hdup, Hlast, Ht. simpl.
    destruct (isValidPlay e MIN_PLAY_DURATION_MS); simpl; [|done].
    destruct (bool_decide (Z.abs (t - t0) < 30000)); simpl; [done|].
    by destruct (bool_decide (t ≤ t0)). }
  split.
  - intros Hnear [_ Hk]%filterNewPlays_In. rewrite Hkeep in Hk.
    rewrite (bool_decide_eq_true_2 _ Hnear) in Hk.
    by rewrite andb_false_r in Hk.
  - intros Hfar. rewrite filterNewPlays_In, Hkeep.
    rewrite bool_decide_eq_false_2 by lia. simpl. rewrite andb_true_r.
    rewrite andb_true_iff, negb_true_iff, bool_decide_eq_false. intuition lia.
Qed.

End WithDate.

Lemma filterNewPlays_same_track_as_marker_witness :
  ¬ In nearPlay (filterNewPlays Js.isoSample [nearPlay; laterPlay] (Some noonState))
  ∧ In laterPlay (filterNewPlays Js.isoSample [nearPlay; laterPlay] (Some noonState)).
Proof.
  assert (Hid : lp_trackId (marker "abc123" "2024-01-15T12:00:00.000Z") ≠ "")
    by discriminate.
  split.
  - refine (proj1 (filterNewPlays_same_track_as_marker Js.isoSample
             [nearPlay; laterPlay] noonState
             (marker "abc123" "2024-01-15T12:00:00.000Z") nearPlay
             1705320010000 1705320000000
             eq_refl eq_refl Hid eq_refl eq_refl eq_refl) _).
    reflexivity.
  - refine (proj2 (proj2 (filterNewPlays_same_track_as_marker Js.isoSample
             [nearPlay; laterPlay] noonState
             (marker "abc123" "2024-01-15T12:00:00.000Z") laterPlay
             1705320060000 1705320000000
             eq_refl eq_refl Hid eq_refl eq_refl eq_refl) _) _).
    + vm_compute. discriminate.
    + split; [right; left; reflexivity | split; reflexivity].
Defined.

(** C1 as stated fails twice: a play of the marker's track one minute
    before the marker is dropped although it is 60000 ms away, and when the
    marker's track id is empty a play with the same empty id ten seconds
    after the marker is kept. *)
Lemma same_track_rule_counterexample :
  ¬ retention_as_stated Js.isoSample ∧ ¬ exclusion_as_stated Js.isoSample.
Proof.
  split.
  - intros H.
    specialize (H [olderPlay] noonState
                  (marker "abc123" "2024-01-15T12:00:00.000Z") olderPlay
                  1705319940000 1705320000000).
    assert (Hin : In olderPlay (filterNewPlays Js.isoSample [olderPlay] (Some noonState))).
    { apply H; try reflexivity; [by left | vm_compute; discriminate]. }
    vm_compute in Hin. destruct Hin.
  - intros H.
    apply (H [anonPlay] anonState
             (marker "" "2024-01-15T12:00:00.000Z") anonPlay
             1705320010000 1705320000000); try reflexivity.
    + by left.
    + vm_compute. by left.
Qed.

Lemma filterNewPlays_excludes_nonpositive_duration_witness :
  trackDuration silentPlay ≤ 0
  ∧ ¬ In silentPlay
        (filterNewPlays Js.isoSample [silentPlay; laterPlay] (Some noonState)).
Proof.
  split.
  - vm_compute. discriminate.
  - apply (filterNewPlays_excludes_nonpositive_duration Js.isoSample).
    vm_compute. discriminate.
Defined.

End PlayFilterProps.

(** ** Reconciliation with the sheet *)

Module DeduplicationProps.
Import Model Deduplication.

Lemma findLastProcessedInSheet_Some (sheetRows : list Row) (m : LastProcessed) :
  findLastProcessedInSheet sheetRows = Some m →
  ∃ lastRow,
    (1 < length sheetRows)%nat
    ∧ last sheetRows = Some lastRow
    ∧ lastRow !! 7%nat = Some (lp_trackId m)
    ∧ lastRow !! 0%nat = Some (lp_playedAt m)
    ∧ lp_timestamp m = lp_playedAt m
    ∧ lp_trackName m = lastRow !! 1%nat
    ∧ lp_trackId m ≠ "" ∧ lp_playedAt m ≠ "".
Proof.
  unfold findLastProcessedInSheet. case_bool_decide as Hlen; [discriminate|].
  destruct (last sheetRows) as [lastRow|]; [|discriminate].
  destruct (lastRow !! 7%nat) as [trackId|] eqn:Hid; simpl; [|discriminate].
  destruct (lastRow !! 0%nat) as [timestamp|] eqn:Hts; simpl;
    [|rewrite orb_true_r; discriminate].
  destruct (Js.truthy trackId) eqn:Htid; simpl; [|discriminate].
  destruct (Js.truthy timestamp) eqn:Htts; simpl; [|discriminate].
  intros [= <-]. simpl. exists lastRow.
  apply JsFacts.truthy_true in Htid, Htts.
  repeat split; try done. lia.
Qed.

Section WithDate.
Variable DateParse : string → Js.num.

Lemma gt_irrefl (a : Js.num) : Js.gt a a = false.
Proof.
  unfold Js.gt, Js.lt. destruct a as [x|]; [|done].
  apply bool_decide_eq_false. lia.
Qed.

(** C4: reconciling an already reconciled state against the same sheet
    changes nothing. *)
Theorem reconcileState_idempotent (sheetData : list Row) (localState : option State) :
  reconcileState DateParse sheetData (reconcileState DateParse sheetData localState)
  = reconcileState DateParse sheetData localState.
Proof.
  unfold reconcileState.
  destruct (findLastProcessedInSheet sheetData) as [sheetLastProcessed|]; [|done].
  destruct localState as [local|]; simpl.
  - destruct (lastProcessed local) as [localLastProcessed|] eqn:Hlocal; simpl.
    + destruct (Js.gt (DateParse (lp_playedAt sheetLastProcessed))
                      (DateParse (lp_playedAt localLastProcessed))) eqn:Hnewer; simpl.
      * by rewrite gt_irrefl.
      * by rewrite Hlocal, Hnewer.
    + by rewrite gt_irrefl.
  - by rewrite gt_irrefl.
Qed.

(** C5: when the sheet yields a marker and the local state has one, the
    marker of the final sheet row replaces the local one if its timestamp is
    strictly newer, keeping the local [failedQueue] and [stats]; otherwise
    the local state is returned. *)
Theorem reconcileState_newer_marker_wins
    (sheetData : list Row) (localState : State)
    (sheetMarker localMarker : LastProcessed) (sheetTime localTime : Z) :
  findLastProcessedInSheet sheetData = Some sheetMarker →
  lastProcessed localState = Some localMarker →
  DateParse (lp_playedAt sheetMarker) = Some sheetTime →
  DateParse (lp_playedAt localMarker) = Some localTime →
  (∃ lastRow,
     last sheetData = Some lastRow
     ∧ lastRow !! 7%nat = Some (lp_trackId sheetMarker)
     ∧ lastRow !! 0%nat = Some (lp_playedAt sheetMarker))
  ∧ (localTime < sheetTime →
       ∃ reconciled,
         reconcileState DateParse sheetData (Some localState) = Some reconciled
         ∧ lastProcessed reconciled = Some sheetMarker
         ∧ failedQueue reconciled = failedQueue localState
         ∧ stats reconciled = stats localState)
  ∧ (sheetTime ≤ localTime →
       reconcileState DateParse sheetData (Some localState) = Some localState).
Proof.
  intros Hsheet Hlocal Hts Htl. split; [|split].
  - destruct (findLastProcessedInSheet_Some _ _ Hsheet)
      as (lastRow & _ & Hlast & Hid & Hat & _). eauto.
  - intros Hnewer. unfold reconcileState. rewrite Hsheet, Hlocal, Hts, Htl.
    unfold Js.gt. rewrite (proj2 (JsFacts.lt_Some _ _) Hnewer). eauto.
  - intros Holder. unfold reconcileState. rewrite Hsheet, Hlocal, Hts, Htl.
    unfold Js.gt, Js.lt. by rewrite bool_decide_eq_false_2 by lia.
Qed.

End WithDate.

End DeduplicationProps.

(** ** The backoff schedule *)

Module RetryScheduleProps.
Import Model RetryFailed.

(** C8: an entry is ready for retry exactly when its last attempt lies at
    least one hour back and its attempt count is 1, or at least 24 hours
    back and its attempt count is 2. *)
Theorem isReadyForRetry_schedule
    (DateParse : string → Js.num) (nowMs : Z) (failedEntry : FailedEntry) :
  isReadyForRetry DateParse nowMs failedEntry = true
  ↔ ∃ lastAttemptMs,
      DateParse (lastAttempt failedEntry) = Some lastAttemptMs
      ∧ ((attemptCount failedEntry = 1 ∧ 3600000 ≤ nowMs - lastAttemptMs)
         ∨ (attemptCount failedEntry = 2 ∧ 86400000 ≤ nowMs - lastAttemptMs)).
Proof.
  unfold isReadyForRetry, Js.ge.
  destruct (DateParse (lastAttempt failedEntry)) as [t|]; simpl.
  - repeat case_bool_decide; split;
      try (intros Habs; discriminate Habs);
      try (intros _; exists t; split; [done|lia]);
      try (intros (t' & [= <-] & Hcases); lia).
  - repeat case_bool_decide; split;
      try (intros Habs; discriminate Habs);
      intros (t' & Hnone & _); discriminate.
Qed.

End RetryScheduleProps.

(** ** Storage: what [loadState] and [saveState] do to the view *)

Module StorageProps.
Import Model Runtime StateManager View.

Lemma source_set_DEFAULT_STATE (d : State) (w : World) :
  source (set_DEFAULT_STATE d w) = source w.
Proof. done. Qed.

(** [loadState] answers with the view and changes nothing the view, the
    stored documents or [DEFAULT_STATE] depend on. *)
Lemma loadState_run (w : World) :
  ∃ w',
    (loadState w).2 = w'
    ∧ source w' = source w
    ∧ stored w' = stored w
    ∧ accepts w' = accepts w
    ∧ w_env w' = w_env w
    ∧ w_DEFAULT_STATE w' = w_DEFAULT_STATE w
    ∧ w_executionStarted w' = w_executionStarted w
    ∧ (loadState w).1 =
        match source w with
        | FromDoc s => Js.Ok (parsed s)
        | FromDefault =>
            Js.Ok {| value := w_DEFAULT_STATE w; sharesDefault := true |}
        | Rejects message => Js.Throw message
        end.
Proof.
  eexists. split; [reflexivity|].
  destruct w as [env [dir wr main backup] [reach refused full k1 k2 k3] d started].
  unfold loadState, source, stored, accepts; simpl.
  destruct (shouldUseKV env) eqn:Hkv.
  - unfold loadStateKV, catch, copyOfDefault; simpl.
    destruct reach, full; simpl; by rewrite ?Hkv.
  - unfold loadStateLocal, bind, catch, ensureStateDir, copyOfDefault, ret; simpl.
    destruct dir, main, backup; simpl; by rewrite ?Hkv.
Qed.

Lemma saveStateKV_run (state : State) (w : World) :
  shouldUseKV (w_env w) = true →
  ∃ kv',
    (saveStateKV state w).2 = set_kv kv' w
    ∧ kv_reachable kv' = kv_reachable (w_kv w)
    ∧ kv_refused kv' = kv_refused (w_kv w)
    ∧ if accepts w
      then (saveStateKV state w).1 = Js.Ok ()
           ∧ kv_reachable kv' = true ∧ KV_STATE_KEY kv' = Some state
      else (saveStateKV state w).1 = Js.Throw "Failed to save state to KV"
           ∧ (kv' = w_kv w
              ∨ kv_reachable kv' = true ∧ KV_STATE_KEY kv' = Some state).
Proof.
  intros Hkv. unfold accepts. rewrite Hkv.
  destruct w as [env files [reach refused full k1 k2 k3] d started].
  unfold saveStateKV, catch, bind, kvSet, kvAccepts, throw. cbn.
  destruct reach; cbn; [|eexists; repeat split; eauto].
  destruct (refused state_full); cbn; [eexists; repeat split; eauto|].
  destruct (refused state_lastProcessed); cbn; [eexists; repeat split; eauto|].
  destruct (refused state_failedQueue); cbn; [eexists; repeat split; eauto|].
  destruct (refused state_stats); cbn; eexists; repeat split; eauto.
Qed.

(** A [saveState] that resolves leaves [state] as the view. One that
    rejects leaves the view and the stored documents as they were, or, on
    the store, when the [kv.set] that is rejected is not the first,
    [state] as the view. *)
Lemma saveState_run (state : State) (w : World) :
  ∃ w',
    (saveState state w).2 = w'
    ∧ w_env w' = w_env w
    ∧ w_DEFAULT_STATE w' = w_DEFAULT_STATE w
    ∧ w_executionStarted w' = w_executionStarted w
    ∧ accepts w' = accepts w
    ∧ if accepts w
      then (saveState state w).1 = Js.Ok () ∧ source w' = FromDoc state
      else (∃ message, (saveState state w).1 = Js.Throw message)
           ∧ (source w' = source w ∧ stored w' = stored w
              ∨ source w' = FromDoc state).
Proof.
  eexists. split; [reflexivity|].
  unfold saveState. destruct (shouldUseKV (w_env w)) eqn:Hkv.
  - destruct (saveStateKV_run state w Hkv) as (kv' & -> & Hreach & Hrefused & Hcase).
    assert (Hacc : accepts (set_kv kv' w) = accepts w).
    { unfold accepts, kvAccepts. simpl. by rewrite Hkv, Hreach, Hrefused. }
    repeat split; try done.
    unfold source. simpl. rewrite Hkv.
    destruct (accepts w).
    + destruct Hcase as (-> & -> & ->). by split.
    + destruct Hcase as [-> [->|[-> ->]]]; (split; [by eexists|]).
      * left. by destruct w.
      * by right.
  - destruct w as [env [dir wr main backup] kv d started].
    unfold saveStateLocal, bind, ensureStateDir, source, stored, accepts; simpl in *.
    destruct dir, wr; simpl; rewrite ?Hkv; simpl; eauto 10.
Qed.

(** The view is what [loadState] answers. *)
Lemma view_loadState (w : World) :
  view w = match (loadState w).1 with
           | Js.Ok state => Js.Ok (value state)
           | Js.Throw message => Js.Throw message
           end.
Proof.
  destruct (loadState_run w) as (w' & _ & _ & _ & _ & _ & _ & _ & ->).
  unfold view. by destruct (source w).
Qed.

End StorageProps.

(** ** Hoare rules *)

Module HoareProps.
Import Model Runtime StateManager View StorageProps.

Lemma hoare_weaken {A} (P P' : World → Prop) (Q Q' : Js.res A → World → Prop)
    (m : M A) :
  hoare P' m Q' → (∀ w, P w → P' w) → (∀ r w, Q' r w → Q r w) → hoare P m Q.
Proof. intros Hm HP HQ w Hw. apply HQ, Hm, HP, Hw. Qed.

Lemma hoare_lift {A} (P : World → Prop) (r0 : Js.res A) :
  hoare P (lift r0) (λ r w, r = r0 ∧ P w).
Proof. intros w Hw. by split. Qed.

Lemma hoare_bind {A B} (P : World → Prop) (Q : Js.res A → World → Prop)
    (R : Js.res B → World → Prop) (m : M A) (k : A → M B) :
  hoare P m Q →
  (∀ a, hoare (Q (Js.Ok a)) (k a) R) →
  (∀ message w, Q (Js.Throw message) w → R (Js.Throw message) w) →
  hoare P (bind m k) R.
Proof.
  intros Hm Hk Hthrow w Hw. specialize (Hm w Hw). unfold bind.
  destruct (m w) as [[a|message] w']; simpl in *.
  - by apply Hk.
  - by apply Hthrow.
Qed.

Lemma hoare_catch {A} (P : World → Prop) (Q R : Js.res A → World → Prop)
    (m : M A) (h : string → M A) :
  hoare P m Q →
  (∀ a w, Q (Js.Ok a) w → R (Js.Ok a) w) →
  (∀ message, hoare (Q (Js.Throw message)) (h message) R) →
  hoare P (catch m h) R.
Proof.
  intros Hm Hok Hh w Hw. specialize (Hm w Hw). unfold catch.
  destruct (m w) as [[a|message] w']; simpl in *.
  - by apply Hok.
  - by apply Hh.
Qed.

Lemma hoare_assume {A} (fact : Prop) (P : World → Prop) (m : M A)
    (Q : Js.res A → World → Prop) :
  (fact → hoare P m Q) → hoare (λ w, P w ∧ fact) m Q.
Proof. intros Hm w [Hw Hfact]. by apply Hm. Qed.

Lemma keeps_ret {A} (I : World → Prop) (a : A) : keeps I (ret a).
Proof. by intros w Hw. Qed.

Lemma keeps_lift {A} (I : World → Prop) (r : Js.res A) : keeps I (lift r).
Proof. by intros w Hw. Qed.

Lemma keeps_bind {A B} (I : World → Prop) (m : M A) (k : A → M B) :
  keeps I m → (∀ a, keeps I (k a)) → keeps I (bind m k).
Proof. intros Hm Hk. eapply hoare_bind; [exact Hm|exact Hk|done]. Qed.

(** The continuation may use what the step establishes about its result. *)
Lemma keeps_bind_with {A B} (I : World → Prop) (F : A → Prop) (m : M A)
    (k : A → M B) :
  hoare I m (λ r w, I w ∧ ∀ a, r = Js.Ok a → F a) →
  (∀ a, F a → keeps I (k a)) →
  keeps I (bind m k).
Proof.
  intros Hm Hk. eapply hoare_bind; [exact Hm| |].
  - intros a w [Hw Ha]. by apply (Hk a); [apply Ha|].
  - by intros message w [Hw _].
Qed.

Lemma keeps_catch {A} (I : World → Prop) (m : M A) (h : string → M A) :
  keeps I m → (∀ message, keeps I (h message)) → keeps I (catch m h).
Proof. intros Hm Hh. eapply hoare_catch; [exact Hm|done|exact Hh]. Qed.

Lemma keeps_forEach {A} (I : World → Prop) (f : A → M unit) (l : list A) :
  (∀ x, x ∈ l → keeps I (f x)) → keeps I (forEach f l).
Proof.
  induction l as [|x l IH]; intros Hf; simpl.
  - apply keeps_ret.
  - apply keeps_bind.
    + apply Hf. by left.
    + intros _. apply IH. intros y Hy. apply Hf. by right.
Qed.

Lemma keeps_if {A} (I : World → Prop) (b : bool) (m1 m2 : M A) :
  keeps I m1 → keeps I m2 → keeps I (if b then m1 else m2).
Proof. by destruct b. Qed.

(** *** The view under the primitives *)

Section Shows.
Variable Q : State → Prop.

Lemma loadState_shows :
  hoare (shows Q) loadState
    (λ r w, shows Q w ∧ ∀ state, r = Js.Ok state → Q (value state)).
Proof.
  intros w (s & Hview & Hs).
  destruct (loadState_run w) as (w' & -> & Hsrc & _ & _ & _ & Hdef & _ & ->).
  unfold shows, view in *. rewrite Hsrc, Hdef.
  split; [by exists s|].
  destruct (source w); intros state [= <-]; simpl; congruence.
Qed.

Lemma saveState_shows (state : State) :
  Q state → keeps (shows Q) (saveState state).
Proof.
  intros Hstate w (s & Hview & Hs).
  destruct (saveState_run state w) as (w' & -> & _ & Hdef & _ & _ & Hcase).
  unfold shows, view in *. destruct (accepts w).
  - destruct Hcase as [_ ->]. by exists state.
  - destruct Hcase as (_ & [[-> _]| ->]); [|by exists state].
    rewrite Hdef. by exists s.
Qed.

Lemma mutateInPlace_shows (state : Loaded) (f : State → State) :
  (∀ d, Q d → Q (set_failedQueue (failedQueue (f (value state)))
                    (set_stats (stats (f (value state))) d))) →
  hoare (shows Q) (mutateInPlace state f)
    (λ r w, shows Q w
            ∧ r = Js.Ok {| value := f (value state);
                           sharesDefault := sharesDefault state |}).
Proof.
  intros Hf w (s & Hview & Hs). unfold mutateInPlace; simpl. split; [|done].
  destruct (sharesDefault state); [|by exists s].
  unfold shows, view in *. rewrite source_set_DEFAULT_STATE.
  destruct (source w); simplify_eq/=; eauto.
Qed.

Lemma set_executionStarted_shows (b : bool) :
  keeps (shows Q) (λ w, (Js.Ok (), set_executionStarted b w)).
Proof. by intros w Hw. Qed.

End Shows.

(** *** The storage while it accepts writes *)

Lemma loadState_holds (s : State) :
  hoare (holds s) loadState
    (λ r w, holds s w ∧ ∃ state, r = Js.Ok state ∧ value state = s).
Proof.
  intros w [Hview Hacc].
  destruct (loadState_run w) as (w' & -> & Hsrc & _ & Hacc' & _ & Hdef & _ & ->).
  unfold holds, view in *. rewrite Hsrc, Hdef, Hacc'. split; [done|].
  destruct (source w); simplify_eq/=; eauto.
Qed.

Lemma saveState_accepted (state : State) :
  hoare (λ w, accepts w = true) (saveState state)
    (λ r w, r = Js.Ok () ∧ holds state w).
Proof.
  intros w Hacc.
  destruct (saveState_run state w) as (w' & -> & _ & _ & _ & Hacc' & Hcase).
  rewrite Hacc in Hcase. destruct Hcase as [-> Hsrc].
  split; [done|]. unfold holds, view. rewrite Hsrc. split; [done|congruence].
Qed.

Lemma mutateInPlace_accepts (state : Loaded) (f : State → State) :
  hoare (λ w, accepts w = true) (mutateInPlace state f)
    (λ r w, accepts w = true
            ∧ r = Js.Ok {| value := f (value state);
                           sharesDefault := sharesDefault state |}).
Proof.
  intros w Hacc. unfold mutateInPlace; simpl. split; [|done].
  by destruct (sharesDefault state).
Qed.

End HoareProps.

(** ** The operations of the state manager keep what their update keeps *)

Module StateManagerProps.
Import Model Runtime StateManager Telemetry View StorageProps HoareProps.

Section Shows.
Variable Q : State → Prop.

Lemma keeps_after_load {B} (k : Loaded → M B) :
  (∀ state, Q (value state) → keeps (shows Q) (k state)) →
  keeps (shows Q) (await state := loadState in k state).
Proof.
  intros Hk.
  apply keeps_bind_with with (F := λ state, Q (value state)); [|exact Hk].
  intros w Hw. destruct (loadState_shows Q w Hw) as [Hw' Hstate]. eauto.
Qed.

(** [state.x = v] on the loaded object, then [saveState]. *)
Lemma modifyCopy_shows (f : State → State) :
  (∀ s, Q s → Q (f s)) →
  keeps (shows Q) (await state := loadState in saveState (f (value state))).
Proof.
  intros Hf. apply keeps_after_load.
  intros state Hstate. by apply saveState_shows, Hf.
Qed.

(** A mutation in place of the loaded object, then [saveState]. *)
Lemma modifyInPlace_shows (f : State → State) :
  separable Q →
  (∀ s, Q s → Q (f s)) →
  keeps (shows Q)
    (await state := loadState in
     await state := mutateInPlace state f in
     saveState (value state)).
Proof.
  intros Hsep Hf. apply keeps_after_load. intros state Hstate.
  eapply hoare_bind; [apply (mutateInPlace_shows Q state f)| |].
  - intros d Hd. apply Hsep; [by apply Hf|done].
  - intros state' w [Hw [= ->]]. simpl. revert w Hw.
    apply saveState_shows. by apply Hf.
  - by intros message w [Hw _].
Qed.

Lemma updateLastProcessed_shows (item : PlayItem) (now : string) :
  (∀ s, Q s →
     Q (set_lastProcessed
          (Some {| lp_trackId := default "" (track item ≫= track_id);
                   lp_trackName := None;
                   lp_timestamp := now;
                   lp_playedAt := played_at item |}) s)) →
  keeps (shows Q) (updateLastProcessed item now).
Proof. intros Hf. by apply (modifyCopy_shows (set_lastProcessed _)). Qed.

Lemma addToFailedQueue_shows (item : PlayItem) (error now : string) :
  separable Q →
  (∀ s queue, Q s → Q (set_failedQueue queue s)) →
  keeps (shows Q) (addToFailedQueue item error now).
Proof.
  intros Hsep Hf. unfold addToFailedQueue.
  apply keeps_after_load. intros state Hstate.
  destruct (list_find _ _) as [[existingIndex existing]|].
  - eapply hoare_bind; [apply (mutateInPlace_shows Q state)| |].
    + intros d Hd. apply Hsep; [by apply Hf|done].
    + intros state' w [Hw [= ->]]. simpl. revert w Hw.
      apply saveState_shows. by apply Hf.
    + by intros message w [Hw _].
  - eapply hoare_bind; [apply (mutateInPlace_shows Q state)| |].
    + intros d Hd. apply Hsep; [by apply Hf|done].
    + intros state' w [Hw [= ->]]. simpl. revert w Hw.
      apply saveState_shows. by apply Hf.
    + by intros message w [Hw _].
Qed.

Lemma getFailedQueue_shows :
  hoare (shows Q) getFailedQueue
    (λ r w, shows Q w ∧ ∀ queue, r = Js.Ok queue → ∃ s, Q s ∧ queue = failedQueue s).
Proof.
  unfold getFailedQueue. eapply hoare_bind; [apply loadState_shows| |].
  - intros state w [Hw Hstate]. simpl. split; [done|].
    intros queue [= <-]. exists (value state). split; [by apply Hstate|done].
  - intros message w [Hw _]. by split.
Qed.

Lemma getStats_shows : keeps (shows Q) getStats.
Proof.
  unfold getStats. apply keeps_after_load.
  intros state _. apply keeps_ret.
Qed.

Lemma clearFromFailedQueue_shows (trackId playedAt : string) :
  (∀ s, Q s →
     Q (set_failedQueue
          (filter (λ item, ¬ sameEntry trackId playedAt item) (failedQueue s)) s)) →
  keeps (shows Q) (clearFromFailedQueue trackId playedAt).
Proof.
  intros Hf. unfold clearFromFailedQueue.
  apply keeps_after_load. intros state Hstate. simpl.
  apply keeps_if; [|apply keeps_ret].
  by apply saveState_shows, Hf.
Qed.

Lemma updateStats_shows (successes failures : Z) (now : string) :
  separable Q →
  (∀ s st, Q s → Q (set_stats st s)) →
  keeps (shows Q) (updateStats successes failures now).
Proof.
  intros Hsep Hf. apply (modifyInPlace_shows _ Hsep). intros s Hs. by apply Hf.
Qed.

(** The metrics and alerting modules only replace their own keys. *)
Hypothesis Q_metrics : ∀ s v, Q s → Q (set_metrics v s).
Hypothesis Q_alerts : ∀ s v, Q s → Q (set_alerts v s).

Lemma startExecution_shows : keeps (shows Q) startExecution.
Proof. apply set_executionStarted_shows. Qed.

Lemma endExecution_shows (aggregate : option Json → Json) :
  keeps (shows Q) (endExecution aggregate).
Proof.
  unfold endExecution. eapply hoare_bind with (Q := λ _, shows Q).
  - by intros w Hw.
  - intros started. apply keeps_if; [apply keeps_ret|].
    apply keeps_after_load. intros state _.
    apply keeps_after_load. intros state' Hstate.
    apply keeps_bind.
    + by apply saveState_shows, Q_metrics.
    + intros _. apply set_executionStarted_shows.
  - done.
Qed.

Lemma getAlertState_shows : keeps (shows Q) getAlertState.
Proof.
  unfold getAlertState. apply keeps_after_load.
  intros state _. apply keeps_ret.
Qed.

Lemma saveAlertState_shows (alertState : Json) :
  keeps (shows Q) (saveAlertState alertState).
Proof. apply (modifyCopy_shows (set_alerts _)). intros s. apply Q_alerts. Qed.

Lemma sendAlert_shows (decision : AlertDecision) : keeps (shows Q) (sendAlert decision).
Proof.
  destruct decision as [| |markSent]; simpl.
  - apply keeps_ret.
  - apply keeps_bind; [apply getAlertState_shows|]. intros _. apply keeps_ret.
  - apply keeps_bind; [apply getAlertState_shows|]. intros _.
    apply keeps_bind; [apply getAlertState_shows|]. intros alertState.
    apply saveAlertState_shows.
Qed.

Lemma trackSuccessfulRun_shows (reset : option Json → Json) :
  keeps (shows Q) (trackSuccessfulRun reset).
Proof.
  unfold trackSuccessfulRun.
  apply keeps_bind; [apply getAlertState_shows|]. intros alertState.
  apply saveAlertState_shows.
Qed.

Lemma trackFailedRun_shows (bump : option Json → Json) (decision : AlertDecision) :
  keeps (shows Q) (trackFailedRun bump decision).
Proof.
  unfold trackFailedRun.
  apply keeps_bind; [apply getAlertState_shows|]. intros alertState.
  apply keeps_bind; [apply saveAlertState_shows|]. intros _.
  apply sendAlert_shows.
Qed.

Lemma checkAlertThresholds_shows (slow errorRate : AlertDecision) :
  keeps (shows Q) (checkAlertThresholds slow errorRate).
Proof.
  unfold checkAlertThresholds.
  apply keeps_bind; [apply sendAlert_shows|]. intros _. apply sendAlert_shows.
Qed.

End Shows.

End StateManagerProps.

(** ** The hourly logging handler *)

Module LogSpotifyProps.
Import Model Runtime StateManager Telemetry View StorageProps HoareProps.
Import StateManagerProps LogSpotify.

Section WithDate.
Variable DateParse : string → Js.num.

(** *** Where the most recent unique track comes from *)

Lemma insertByTime_In (x y : PlayItem) (l : list PlayItem) :
  In y (PlayFilter.insertByTime DateParse x l) → y = x ∨ In y l.
Proof.
  induction l as [|z l IH]; simpl.
  - intros [->|[]]. by left.
  - destruct (Js.lt _ _); simpl.
    + intros [->|[->|H]]; auto.
    + intros [->|H]; auto. destruct (IH H); auto.
Qed.

Lemma sortTracksByTimestamp_In (y : PlayItem) (l : list PlayItem) :
  In y (PlayFilter.sortTracksByTimestamp DateParse l) → In y l.
Proof.
  unfold PlayFilter.sortTracksByTimestamp.
  assert (Hgen : ∀ sorted, In y (foldl (λ sorted x, PlayFilter.insertByTime DateParse x sorted) sorted l)
                           → In y sorted ∨ In y l).
  { induction l as [|x l IH]; simpl; intros sorted H; [by left|].
    destruct (IH _ H) as [Hin|Hin]; [|by auto].
    destruct (insertByTime_In _ _ _ Hin); auto. }
  intros H. by destruct (Hgen [] H) as [[]|].
Qed.

Lemma filterDuplicatesAgainstSheet_In (y : PlayItem) (l : list PlayItem)
    (rows : list Deduplication.Row) :
  In y (Deduplication.filterDuplicatesAgainstSheet DateParse l rows) → In y l.
Proof.
  unfold Deduplication.filterDuplicatesAgainstSheet. destruct l as [|x l]; [done|].
  intros H. by apply filter_In in H as [H _].
Qed.

Lemma getMostRecentTrack_In (l : list PlayItem) (x : PlayItem) :
  PlayFilter.getMostRecentTrack DateParse l = Some x → In x l.
Proof.
  destruct l as [|first rest]; simpl; [done|]. intros [= <-].
  assert (Hgen : ∀ latest,
            foldl (λ latest current,
                     if Js.gt (DateParse (played_at current)) (DateParse (played_at latest))
                     then current else latest) latest rest = latest
            ∨ In (foldl (λ latest current,
                     if Js.gt (DateParse (played_at current)) (DateParse (played_at latest))
                     then current else latest) latest rest) rest).
  { induction rest as [|c rest IH]; simpl; intros latest; [by left|].
    destruct (Js.gt _ _).
    - destruct (IH c) as [->|H]; auto.
    - destruct (IH latest) as [->|H]; auto. }
  destruct (Hgen first) as [->|H]; auto.
Qed.

(** An event that passes the filter and has a valid timestamp is strictly
    later than the marker the filter was given. *)
Lemma filterNewPlays_later (tracks : list PlayItem) (s : State)
    (m0 : LastProcessed) (t0 t : Z) (e : PlayItem) :
  DateParse "" = None →
  lastProcessed s = Some m0 →
  DateParse (lp_playedAt m0) = Some t0 →
  DateParse (played_at e) = Some t →
  In e (PlayFilter.filterNewPlays DateParse tracks (Some s)) →
  t0 < t.
Proof.
  intros Hempty Hm0 Ht0 Ht [_ Hkeep]%PlayFilterProps.filterNewPlays_In.
  unfold PlayFilter.keepPlay in Hkeep.
  rewrite (PlayFilterProps.lastProcessedTime_parsed DateParse s m0 t0) in Hkeep by done.
  rewrite Ht in Hkeep.
  destruct (negb _); [done|]. destruct (PlayFilter.isDuplicate _ _ _); [done|].
  simpl in Hkeep. case_bool_decide; [done|lia].
Qed.

(** *** The run when the batch append throws *)

Section WithInputs.
Variable inp : Inputs.

Lemma commit_rejected (I : World → Prop) (uniqueTracks : list PlayItem)
    (enriched : Enrichment) (thrown : string) :
  appendRows inp = Js.Throw thrown →
  hoare I (commit DateParse inp uniqueTracks enriched)
    (λ r w, I w ∧ r = Js.Throw thrown).
Proof. intros Happend w Hw. unfold commit, bind, lift. by rewrite Happend. Qed.

Lemma run_append_fails (Q : State → Prop) (thrown : string) :
  appendRows inp = Js.Throw thrown →
  hoare (shows Q) (run DateParse inp)
    (λ r w, shows Q w ∧ ∀ response, r = Js.Ok response →
                          message response ≠ "Logging complete").
Proof.
  intros Happend. unfold run.
  eapply hoare_bind; [apply (loadState_shows Q)| |by intros ?? [? _]].
  intros state. eapply hoare_bind with (Q := λ _, shows Q);
    [|intros _|by intros].
  { intros w [Hw _]. by apply getStats_shows. }
  eapply hoare_bind; [apply hoare_lift| |by intros ?? [_ ?]].
  intros tracks. case_bool_decide.
  { intros w [_ Hw]. split; [done|]. by intros response [= <-]. }
  case_bool_decide.
  { intros w [_ Hw]. split; [done|]. by intros response [= <-]. }
  eapply hoare_bind with (Q := λ _, shows Q); [|intros sheetRows|by intros].
  { by intros w [_ Hw]. }
  case_bool_decide.
  { intros w Hw. split; [done|]. by intros response [= <-]. }
  eapply hoare_bind with (Q := λ _, shows Q); [by intros w Hw|intros enriched|by intros].
  eapply hoare_weaken; [by apply commit_rejected|done|].
  intros r w [Hw ->]. by split.
Qed.

(** C6: when the batch append throws, the state document shows the same
    [lastProcessed], [failedQueue] and [stats] after the run as before it,
    and the run does not answer that logging is complete. *)
Theorem append_failure_persists_nothing (w : World) (s : State) (thrown : string) :
  appendRows inp = Js.Throw thrown →
  view w = Js.Ok s →
  (∃ s', view (handler DateParse inp w).2 = Js.Ok s'
         ∧ lastProcessed s' = lastProcessed s
         ∧ failedQueue s' = failedQueue s
         ∧ stats s' = stats s)
  ∧ (∀ response, (handler DateParse inp w).1 = Js.Ok response →
       statusCode response = 200 → message response ≠ "Logging complete")
  ∧ (∀ uniqueTracks enriched w0,
       commit DateParse inp uniqueTracks enriched w0 = (Js.Throw thrown, w0)).
Proof.
  intros Happend Hview.
  assert (Hcommit : ∀ uniqueTracks enriched w0,
            commit DateParse inp uniqueTracks enriched w0 = (Js.Throw thrown, w0)).
  { intros. unfold commit, bind, lift. by rewrite Happend. }
  set (Q := λ s' : State, core s' = core s).
  assert (Hmetrics : ∀ s' v, Q s' → Q (set_metrics v s')) by done.
  assert (Halerts : ∀ s' v, Q s' → Q (set_alerts v s')) by done.
  assert (Hgoal : hoare (shows Q) (handler DateParse inp)
                    (λ r w', shows Q w' ∧ ∀ response, r = Js.Ok response →
                               statusCode response = 200 →
                               message response ≠ "Logging complete")).
  { unfold handler.
    eapply hoare_bind with (Q := λ _, shows Q);
      [apply startExecution_shows|intros _|by intros].
    eapply hoare_catch; [by apply (run_append_fails Q thrown)| |].
    - intros response w' [Hw' Hmsg]. split; [done|].
      intros response' [= <-] _. by apply Hmsg.
    - intros errorMessage.
      eapply hoare_bind with (Q := λ _, shows Q); [|intros _|by intros].
      { intros w' [Hw' _]. by apply endExecution_shows. }
      eapply hoare_bind with (Q := λ _, shows Q);
        [by apply trackFailedRun_shows|intros _|by intros].
      intros w' Hw'. split; [done|]. by intros response [= <-]. }
  destruct (Hgoal w) as [(s' & Hs' & Hcore) Hresp]; [by exists s|].
  split; [|done]. exists s'. unfold Q, core in Hcore. by simplify_eq.
Qed.

(** *** The marker across a run *)

Lemma notOlder_separable (m0 : LastProcessed) (t0 : Z) :
  separable (notOlder DateParse m0 t0).
Proof. by intros a d _ Hd. Qed.

Lemma commit_notOlder (s : State) (m0 : LastProcessed) (t0 : Z)
    (tracks uniqueTracks : list PlayItem) (enriched : Enrichment) :
  DateParse "" = None →
  lastProcessed s = Some m0 →
  DateParse (lp_playedAt m0) = Some t0 →
  (∀ item, In item tracks → is_Some (DateParse (played_at item))) →
  (∀ item, In item uniqueTracks →
     In item (PlayFilter.filterNewPlays DateParse tracks (Some s))) →
  keeps (shows (notOlder DateParse m0 t0)) (commit DateParse inp uniqueTracks enriched).
Proof.
  intros Hempty Hm0 Ht0 Hvalid Hunique. unfold commit.
  set (Q := notOlder DateParse m0 t0).
  assert (Hmetrics : ∀ s' v, Q s' → Q (set_metrics v s')) by done.
  assert (Halerts : ∀ s' v, Q s' → Q (set_alerts v s')) by done.
  apply keeps_bind; [apply keeps_lift|intros _].
  apply keeps_bind; [|intros _].
  { destruct (PlayFilter.getMostRecentTrack DateParse uniqueTracks)
      as [mostRecent|] eqn:Hrecent; [|apply keeps_ret].
    apply updateLastProcessed_shows. intros s' _.
    apply getMostRecentTrack_In, Hunique in Hrecent.
    assert (Hin : In mostRecent tracks).
    { by apply PlayFilterProps.filterNewPlays_In in Hrecent as [? _]. }
    destruct (Hvalid _ Hin) as [t Ht].
    pose proof (filterNewPlays_later _ _ _ _ _ _ Hempty Hm0 Ht0 Ht Hrecent).
    eexists _, t. simpl. repeat split; [done|by right|lia]. }
  apply keeps_bind; [|intros _].
  { apply keeps_forEach. intros failed _.
    by apply addToFailedQueue_shows; [apply notOlder_separable|]. }
  apply keeps_bind; [|intros _].
  { by apply updateStats_shows; [apply notOlder_separable|]. }
  apply keeps_bind; [by apply endExecution_shows|intros _].
  apply keeps_bind; [by apply checkAlertThresholds_shows|intros _].
  apply keeps_bind; [by apply trackSuccessfulRun_shows|intros _].
  apply keeps_ret.
Qed.

Lemma run_notOlder (s : State) (m0 : LastProcessed) (t0 : Z) :
  DateParse "" = None →
  lastProcessed s = Some m0 →
  DateParse (lp_playedAt m0) = Some t0 →
  (∀ tracks item, recentlyPlayed inp = Js.Ok tracks → In item tracks →
     is_Some (DateParse (played_at item))) →
  hoare (shows (eq s)) (run DateParse inp) (λ _, shows (notOlder DateParse m0 t0)).
Proof.
  intros Hempty Hm0 Ht0 Hvalid.
  assert (Hs : ∀ w, shows (eq s) w → shows (notOlder DateParse m0 t0) w).
  { intros w (s' & Hview & <-). exists s. split; [done|].
    exists m0, t0. repeat split; [done|done|by left|lia]. }
  unfold run.
  eapply hoare_bind; [apply (loadState_shows (eq s))| |by intros ?? [? _]; apply Hs].
  intros state. eapply hoare_bind
    with (Q := λ _ w, shows (eq s) w ∧ value state = s); [|intros _|by intros ?? [? _]; apply Hs].
  { intros w [Hw Hstate]. split; [by apply getStats_shows|].
    symmetry. by apply Hstate. }
  eapply hoare_bind
    with (Q := λ r w, shows (eq s) w ∧ value state = s ∧ r = recentlyPlayed inp);
    [by intros w [Hw Hstate]|intros tracks|by intros ?? [? _]; apply Hs].
  case_bool_decide.
  { intros w [Hw _]. by apply Hs. }
  case_bool_decide.
  { intros w [Hw _]. by apply Hs. }
  eapply hoare_bind
    with (Q := λ _ w, shows (eq s) w ∧ value state = s
                      ∧ Js.Ok tracks = recentlyPlayed inp);
    [by intros w Hw|intros sheetRows|by intros ?? [? _]; apply Hs].
  case_bool_decide.
  { intros w [Hw _]. by apply Hs. }
  eapply hoare_bind
    with (Q := λ _ w, shows (eq s) w ∧ value state = s
                      ∧ Js.Ok tracks = recentlyPlayed inp);
    [by intros w Hw|intros enriched|by intros ?? [? _]; apply Hs].
  intros w (Hw & Hstate & Htracks).
  apply (commit_notOlder s m0 t0 tracks); try done.
  - intros item. by apply Hvalid.
  - intros item Hitem. rewrite <- Hstate.
    by apply sortTracksByTimestamp_In, filterDuplicatesAgainstSheet_In in Hitem
      || (apply filterDuplicatesAgainstSheet_In, sortTracksByTimestamp_In in Hitem).
  - by apply Hs.
Qed.

(** C3, amended: when every fetched play has a [played_at] that is a
    valid date, and the marker persisted before the run has a valid
    [playedAt], then after a run of the logging handler, completed or
    failed, the persisted marker is the one persisted before the run or
    one with a strictly later [playedAt]; in both cases its [playedAt] is
    not earlier than before. The storage is one whose reads and writes
    fail or succeed in the same way throughout the run. *)
Theorem lastProcessed_playedAt_monotone
    (w : World) (s : State) (m0 : LastProcessed) (t0 : Z) :
  DateParse "" = None →
  (∀ tracks item, recentlyPlayed inp = Js.Ok tracks → In item tracks →
     is_Some (DateParse (played_at item))) →
  view w = Js.Ok s →
  lastProcessed s = Some m0 →
  DateParse (lp_playedAt m0) = Some t0 →
  ∃ s' m' t',
    view (handler DateParse inp w).2 = Js.Ok s'
    ∧ lastProcessed s' = Some m'
    ∧ DateParse (lp_playedAt m') = Some t'
    ∧ (m' = m0 ∨ t0 < t')
    ∧ t0 ≤ t'.
Proof.
  intros Hempty Hvalid Hview Hm0 Ht0.
  set (Q := notOlder DateParse m0 t0).
  assert (Hmetrics : ∀ s' v, Q s' → Q (set_metrics v s')) by done.
  assert (Halerts : ∀ s' v, Q s' → Q (set_alerts v s')) by done.
  assert (Hs : ∀ w, shows (eq s) w → shows Q w).
  { intros w0 (s' & Hview' & <-). exists s. split; [done|].
    exists m0, t0. repeat split; [done|done|by left|lia]. }
  assert (Hgoal : hoare (shows (eq s)) (handler DateParse inp) (λ _, shows Q)).
  { unfold handler.
    eapply hoare_bind with (Q := λ _, shows (eq s));
      [by apply startExecution_shows| |by intros ??; apply Hs].
    intros _. eapply hoare_catch; [by apply run_notOlder|done|].
    intros errorMessage.
    apply keeps_bind; [by apply endExecution_shows|intros _].
    apply keeps_bind; [by apply trackFailedRun_shows|intros _].
    apply keeps_ret. }
  destruct (Hgoal w) as (s' & Hs' & m' & t' & Hm' & Ht' & Hcases & Hle);
    [by exists s|].
  by exists s', m', t'.
Qed.

End WithInputs.

End WithDate.

End LogSpotifyProps.

(** ** Removing entries from the retry queue *)

Module ClearProps.
Import Model Runtime StateManager View StorageProps HoareProps.

Lemma loadState_view (w : World) (s : State) :
  view w = Js.Ok s →
  ∃ shared w1,
    loadState w = (Js.Ok {| value := s; sharesDefault := shared |}, w1)
    ∧ source w1 = source w
    ∧ stored w1 = stored w
    ∧ accepts w1 = accepts w
    ∧ w_DEFAULT_STATE w1 = w_DEFAULT_STATE w.
Proof.
  intros Hview.
  destruct (loadState_run w) as (w1 & Hw1 & Hsrc & Hst & Hacc & _ & Hdef & _ & Hres).
  unfold view in Hview.
  destruct (loadState w) as [r w1'] eqn:Hload. simpl in *. subst w1' r.
  destruct (source w) as [s0| |message] eqn:Hsource; simplify_eq/=.
  - exists false, w1. unfold stored. repeat split; try done; congruence.
  - exists true, w1. unfold stored. repeat split; try done; congruence.
Qed.

Lemma filter_length_lt {A} (P : A → Prop) `{!∀ x, Decision (P x)} (l : list A) :
  (length (filter P l) < length l)%nat ↔ ∃ x, x ∈ l ∧ ¬ P x.
Proof.
  induction l as [|a l IH]; simpl.
  - split; [lia|]. intros (x & Hx & _). by apply elem_of_nil in Hx.
  - rewrite filter_cons. pose proof (length_filter P l) as Hle.
    destruct (decide (P a)) as [Ha|Ha]; simpl.
    + rewrite <- Nat.succ_lt_mono, IH. split.
      * intros (x & Hx & HP). exists x. split; [by right|done].
      * intros (x & Hx & HP). apply elem_of_cons in Hx as [->|Hx]; [done|eauto].
    + split; [|lia]. intros _. exists a. split; [by left|done].
Qed.

Lemma filter_all {A} (P : A → Prop) `{!∀ x, Decision (P x)} (l : list A) :
  (∀ x, x ∈ l → P x) → filter P l = l.
Proof.
  induction l as [|a l IH]; intros Hall; [done|].
  rewrite filter_cons, decide_True by (apply Hall; by left).
  f_equal. apply IH. intros x Hx. apply Hall. by right.
Qed.

(** C10: [clearFromFailedQueue] writes nothing when no entry matches; when
    some entry matches and the write is accepted, the stored document is
    the loaded one with exactly the matching entries removed from
    [failedQueue], every other field as it was. *)
Theorem clearFromFailedQueue_frame
    (trackId playedAt : string) (w : World) (s : State) :
  view w = Js.Ok s →
  ((∀ item, item ∈ failedQueue s → ¬ sameEntry trackId playedAt item) →
     (clearFromFailedQueue trackId playedAt w).1 = Js.Ok ()
     ∧ stored (clearFromFailedQueue trackId playedAt w).2 = stored w
     ∧ view (clearFromFailedQueue trackId playedAt w).2 = Js.Ok s)
  ∧ ((∃ item, item ∈ failedQueue s ∧ sameEntry trackId playedAt item) →
     accepts w = true →
     (clearFromFailedQueue trackId playedAt w).1 = Js.Ok ()
     ∧ ∃ s',
         view (clearFromFailedQueue trackId playedAt w).2 = Js.Ok s'
         ∧ failedQueue s'
           = filter (λ item, ¬ sameEntry trackId playedAt item) (failedQueue s)
         ∧ lastProcessed s' = lastProcessed s
         ∧ stats s' = stats s
         ∧ alerts s' = alerts s
         ∧ metrics s' = metrics s
         ∧ historicalImport s' = historicalImport s).
Proof.
  intros Hview.
  destruct (loadState_view w s Hview)
    as (shared & w1 & Hload & Hsrc & Hst & Hacc & Hdef).
  unfold clearFromFailedQueue, bind. rewrite Hload. simpl.
  split.
  - intros Hnone.
    rewrite bool_decide_eq_false_2.
    + simpl. repeat split; [done|]. unfold view in *. by rewrite Hsrc, Hdef.
    + rewrite filter_all by done. lia.
  - intros Hsome Haccepts.
    rewrite bool_decide_eq_true_2.
    + rewrite <- Hacc in Haccepts.
      destruct (saveState_accepted
                  (set_failedQueue
                     (filter (λ item, ¬ sameEntry trackId playedAt item) (failedQueue s)) s)
                  w1 Haccepts) as [Hok [Hview' _]].
      split; [done|]. eexists. split; [exact Hview'|]. by destruct s.
    + assert (Hlt : (length (filter (λ item, ¬ sameEntry trackId playedAt item)
                               (failedQueue s)) < length (failedQueue s))%nat).
      { apply filter_length_lt. destruct Hsome as (item & Hin & Hsame).
        exists item. split; [done|]. by intros Hnot. }
      lia.
Qed.

End ClearProps.

(** ** The retry pass and the attempt count *)

Module RetryProps.
Import Model Runtime StateManager View StorageProps HoareProps StateManagerProps.
Import RetryFailed.



(** *** The queue updates *)







(** *** The loop *)

Section WithInputs.
Variable DateParse : string → Js.num.
Variable inp : Inputs.





(** *** The pass keeps the bound *)


(** A retry pass leaves the marker alone. *)
Lemma handler_keeps_lastProcessed (marker : option LastProcessed) :
  keeps (shows (λ s, lastProcessed s = marker)) (handler DateParse inp).
Proof.
  set (Q := λ s : State, lastProcessed s = marker).
  assert (Hsep : separable Q) by (by intros a d _ Hd).
  unfold handler. apply keeps_catch; [|intros errorMessage; apply keeps_ret].
  apply keeps_bind.
  { intros w Hw. by apply (getFailedQueue_shows Q w Hw). }
  intros queue. apply keeps_if; [apply keeps_ret|].
  apply keeps_bind; [apply keeps_lift|intros sheetRows].
  apply keeps_after_load. intros state _.
  apply keeps_bind; [|intros _].
  { apply keeps_forEach. intros key _. by apply clearFromFailedQueue_shows. }
  apply keeps_bind; [|intros _].
  { apply keeps_if; [|apply keeps_ret].
    by apply (modifyInPlace_shows Q
                (λ s, set_failedQueue
                        (foldl applyUpdate (failedQueue s)
                           (entriesToUpdate
                              (processEntries DateParse inp 0
                                 (take MAX_ENTRIES_PER_RUN queue) emptyLoop))) s)). }
  apply keeps_bind; [|intros _].
  { apply keeps_if; [|apply keeps_ret].
    by apply (modifyCopy_shows Q
                (λ s, set_failedQueue
                        (foldl dropEntry (failedQueue s)
                           (maxedOutEntries
                              (processEntries DateParse inp 0
                                 (take MAX_ENTRIES_PER_RUN queue) emptyLoop))) s)). }
  apply keeps_bind; [|intros _; apply keeps_ret].
  by apply updateStats_shows.
Qed.

(** *** The pass on a storage that accepts writes *)

Lemma accepts_view (w : World) : accepts w = true → ∃ s, view w = Js.Ok s.
Proof.
  unfold accepts, view, source.
  destruct (shouldUseKV (w_env w)).
  - unfold kvAccepts. destruct (kv_reachable (w_kv w)); [|done].
    intros _. destruct (KV_STATE_KEY (w_kv w)); eauto.
  - destruct (STATE_DIR (w_files w)); [| |done];
      destruct (STATE_FILE (w_files w)), (BACKUP_FILE (w_files w)); eauto.
Qed.







End WithInputs.

End RetryProps.

(** ** The statements on concrete runs *)

Module Runs.
Import Model Runtime StateManager View Examples.








(** C7: [loadState] returns a default document that is not zero-valued.
    In a fresh process on a directory without state files whose writes
    fail, [updateStats] rejects after it has written the counters into the
    [stats] object it shares with [DEFAULT_STATE]; with still no state
    file, the next [loadState] returns those counters. *)
Lemma loadState_default_after_rejected_update :
  (updateStats 2 1 "2024-01-15T12:05:00.000Z" (freshProcess readOnlyDir)).1
  = Js.Throw "Failed to save state"
  ∧ stored (updateStats 2 1 "2024-01-15T12:05:00.000Z" (freshProcess readOnlyDir)).2
    = (Missing, Missing, emptyKV)
  ∧ (loadState
       (updateStats 2 1 "2024-01-15T12:05:00.000Z" (freshProcess readOnlyDir)).2).1
    = Js.Ok {| value :=
                 set_stats {| lastRun := Some "2024-01-15T12:05:00.000Z";
                              successCount := 2; failureCount := 1 |}
                   DEFAULT_STATE;
               sharesDefault := true |}.
Proof. vm_compute. repeat split. Qed.

(** What [loadState] does get right on the local backend: it rejects only
    when the state directory cannot be created, reads the main file, falls
    back to the backup on a read or parse error, and otherwise answers
    with a copy of [DEFAULT_STATE]. *)
Lemma loadStateLocal_fallback (w : World) :
  STATE_DIR (w_files w) ≠ DirBlocked →
  (loadStateLocal w).1
  = Js.Ok match STATE_FILE (w_files w) with
          | Doc s => parsed s
          | Missing => {| value := w_DEFAULT_STATE w; sharesDefault := true |}
          | Unreadable | Corrupt =>
              match BACKUP_FILE (w_files w) with
              | Doc s => parsed s
              | Missing | Unreadable | Corrupt =>
                  {| value := w_DEFAULT_STATE w; sharesDefault := true |}
              end
          end.
Proof.
  destruct w as [env [dir wr main backup] kv d started]. simpl. intros Hdir.
  unfold loadStateLocal, bind, catch, ensureStateDir, copyOfDefault, ret; simpl.
  destruct dir, main, backup; simpl; done.
Qed.

Lemma lastProcessed_playedAt_monotone_witness :
  ∃ s' m' t',
    view (LogSpotify.handler Js.isoSample (loggingRun (Js.Ok ()))
            (freshProcess (dirWith noonState))).2 = Js.Ok s'
    ∧ lastProcessed s' = Some m'
    ∧ Js.isoSample (lp_playedAt m') = Some t'
    ∧ (m' = marker "abc123" "2024-01-15T12:00:00.000Z" ∨ 1705320000000 < t')
    ∧ 1705320000000 ≤ t'.
Proof.
  apply (LogSpotifyProps.lastProcessed_playedAt_monotone Js.isoSample
           (loggingRun (Js.Ok ())) (freshProcess (dirWith noonState)) noonState
           (marker "abc123" "2024-01-15T12:00:00.000Z") 1705320000000).
  - reflexivity.
  - intros tracks item [= <-] [<-|[<-|[]]]; by eexists.
  - reflexivity.
  - reflexivity.
  - reflexivity.
Defined.

Lemma append_failure_persists_nothing_witness :
  ∃ s', view (LogSpotify.handler Js.isoSample
                (loggingRun (Js.Throw "The service is currently unavailable"))
                (freshProcess (dirWith noonState))).2 = Js.Ok s'
        ∧ lastProcessed s' = lastProcessed noonState
        ∧ failedQueue s' = failedQueue noonState
        ∧ stats s' = stats noonState.
Proof.
  apply (LogSpotifyProps.append_failure_persists_nothing Js.isoSample
           (loggingRun (Js.Throw "The service is currently unavailable"))
           (freshProcess (dirWith noonState)) noonState
           "The service is currently unavailable");
    reflexivity.
Defined.

Lemma reconcileState_newer_marker_wins_witness :
  ∃ reconciled,
    Deduplication.reconcileState Js.isoSample [headerRow; loggedRow] (Some noonState)
    = Some reconciled
    ∧ lastProcessed reconciled = Some sheetMarker
    ∧ failedQueue reconciled = failedQueue noonState
    ∧ stats reconciled = stats noonState.
Proof.
  apply (DeduplicationProps.reconcileState_newer_marker_wins Js.isoSample
           [headerRow; loggedRow] noonState sheetMarker
           (marker "abc123" "2024-01-15T12:00:00.000Z")
           1705320060000 1705320000000);
    reflexivity.
Defined.

Lemma clearFromFailedQueue_frame_witness :
  ((clearFromFailedQueue "abc123" "2024-01-15T12:01:00.000Z"
      (freshProcess (dirWith twoQueued))).1 = Js.Ok ()
   ∧ ∃ s',
       view (clearFromFailedQueue "abc123" "2024-01-15T12:01:00.000Z"
               (freshProcess (dirWith twoQueued))).2 = Js.Ok s'
       ∧ failedQueue s' = [entryFor nearPlay 1]
       ∧ lastProcessed s' = lastProcessed twoQueued
       ∧ stats s' = stats twoQueued)
  ∧ (clearFromFailedQueue "zzz999" "2024-01-15T12:01:00.000Z"
       (freshProcess (dirWith twoQueued))).1 = Js.Ok ()
  ∧ stored (clearFromFailedQueue "zzz999" "2024-01-15T12:01:00.000Z"
              (freshProcess (dirWith twoQueued))).2
    = stored (freshProcess (dirWith twoQueued)).
Proof.
  split.
  - destruct (ClearProps.clearFromFailedQueue_frame
                "abc123" "2024-01-15T12:01:00.000Z"
                (freshProcess (dirWith twoQueued)) twoQueued eq_refl)
      as [_ Hsome].
    destruct Hsome as (Hok & s' & Hview & Hqueue & Hmarker & Hstats & _).
    + exists (entryFor laterPlay 3). split; [by left|by split].
    + reflexivity.
    + split; [done|]. exists s'. by repeat split.
  - destruct (ClearProps.clearFromFailedQueue_frame
                "zzz999" "2024-01-15T12:01:00.000Z"
                (freshProcess (dirWith twoQueued)) twoQueued eq_refl)
      as [Hnone _].
    destruct Hnone as (Hok & Hstored & _); [|by split].
    intros item Hitem [Hid _].
    apply elem_of_cons in Hitem as [->|Hitem]; [discriminate|].
    apply elem_of_cons in Hitem as [->|Hitem]; [discriminate|].
    by apply elem_of_nil in Hitem.
Defined.

End Runs.

(** * Further properties of the code *)

(** ** Runs that resolve *)

Module RunProps.
Import Model Runtime.

Lemma bind_Ok {A B} (m : M A) (k : A → M B) (w w' : World) (b : B) :
  bind m k w = (Js.Ok b, w') →
  ∃ a w1, m w = (Js.Ok a, w1) ∧ k a w1 = (Js.Ok b, w').
Proof.
  unfold bind. destruct (m w) as [[a|message] w1]; [|done]. intros H. by exists a, w1.
Qed.

Lemma catch_Ok {A} (m : M A) (h : string → M A) (w w' : World) (a : A) :
  catch m h w = (Js.Ok a, w') →
  m w = (Js.Ok a, w')
  ∨ ∃ message w1, m w = (Js.Throw message, w1) ∧ h message w1 = (Js.Ok a, w').
Proof.
  unfold catch. destruct (m w) as [[a'|message] w1]; [by left|].
  intros H. right. by exists message, w1.
Qed.

End RunProps.

(** ** Sorting by timestamp and the most recent track *)

Module SortProps.
Import Model PlayFilter Notions.

Section WithDate.
Variable DateParse : string → Js.num.

Lemma insertByTime_Permutation (x : PlayItem) (l : list PlayItem) :
  insertByTime DateParse x l ≡ₚ x :: l.
Proof.
  induction l as [|y l IH]; simpl; [done|].
  destruct (Js.lt _ _); [done|]. rewrite IH. apply Permutation_swap.
Qed.

Lemma foldl_insertByTime_Permutation (l sorted : list PlayItem) :
  foldl (λ sorted x, insertByTime DateParse x sorted) sorted l ≡ₚ sorted ++ l.
Proof.
  revert sorted. induction l as [|x l IH]; intros sorted; simpl.
  - by rewrite app_nil_r.
  - rewrite IH, insertByTime_Permutation. simpl. by rewrite Permutation_middle.
Qed.

Lemma allDated_cons (x : PlayItem) (l : list PlayItem) :
  allDated DateParse (x :: l)
  ↔ is_Some (DateParse (played_at x)) ∧ allDated DateParse l.
Proof.
  unfold allDated. split.
  - intros H. split; [apply H; by left|]. intros y Hy. apply H. by right.
  - intros [Hx Hl] y [->|Hy]%elem_of_cons; auto.
Qed.

Lemma insertByTime_sorted (x : PlayItem) (l : list PlayItem) :
  is_Some (DateParse (played_at x)) →
  allDated DateParse l →
  StronglySorted (playedNoLater DateParse) l →
  StronglySorted (playedNoLater DateParse) (insertByTime DateParse x l).
Proof.
  intros [tx Hx] Hl Hsorted. induction Hsorted as [|y l Hsorted IH Hy]; simpl.
  - repeat constructor.
  - apply allDated_cons in Hl as [[ty Hty] Hl].
    rewrite Hx, Hty. simpl. case_bool_decide as Hlt.
    + constructor; [by constructor|].
      constructor.
      * exists tx, ty. repeat split; try done. lia.
      * eapply Forall_impl; [exact Hy|].
        intros z (ty' & tz & Hty' & Htz & Hle). exists tx, tz.
        repeat split; try done. simplify_eq. lia.
    + constructor; [by apply IH|].
      rewrite insertByTime_Permutation. constructor; [|done].
      exists ty, tx. repeat split; try done. lia.
Qed.

Lemma foldl_insertByTime_sorted (l sorted : list PlayItem) :
  allDated DateParse l →
  allDated DateParse sorted →
  StronglySorted (playedNoLater DateParse) sorted →
  StronglySorted (playedNoLater DateParse)
    (foldl (λ sorted x, insertByTime DateParse x sorted) sorted l).
Proof.
  revert sorted. induction l as [|x l IH]; intros sorted Hl Hs Hsorted; simpl; [done|].
  apply allDated_cons in Hl as [Hx Hl].
  apply IH; [done| |by apply insertByTime_sorted].
  intros y Hy. rewrite insertByTime_Permutation in Hy.
  apply elem_of_cons in Hy as [->|Hy]; auto.
Qed.

Lemma sortTracksByTimestamp_sorted (tracks : list PlayItem) :
  allDated DateParse tracks →
  StronglySorted (playedNoLater DateParse) (sortTracksByTimestamp DateParse tracks).
Proof.
  intros Hl. apply foldl_insertByTime_sorted; [done| |constructor].
  intros y Hy. by apply elem_of_nil in Hy.
Qed.

Lemma insertByTime_last (x : PlayItem) (l : list PlayItem) :
  Forall (λ y, playedNoLater DateParse y x) l →
  insertByTime DateParse x l = l ++ [x].
Proof.
  induction 1 as [|y l (ty & tx & Hy & Hx & Hle) Hl IH]; simpl; [done|].
  rewrite Hx, Hy. simpl. rewrite bool_decide_eq_false_2 by lia. by rewrite IH.
Qed.

Lemma StronglySorted_snoc_inv (l : list PlayItem) (x : PlayItem) :
  StronglySorted (playedNoLater DateParse) (l ++ [x]) →
  StronglySorted (playedNoLater DateParse) l
  ∧ Forall (λ y, playedNoLater DateParse y x) l.
Proof.
  induction l as [|y l IH]; simpl; intros H.
  - split; constructor.
  - apply StronglySorted_inv in H as [Hs Hall].
    destruct (IH Hs) as [Hs' Hall'].
    apply Forall_app in Hall as [Hall1 Hall2].
    split; [by constructor|]. constructor; [|done].
    by apply Forall_inv in Hall2.
Qed.

Lemma foldl_insertByTime_sorted_input (l sorted : list PlayItem) :
  StronglySorted (playedNoLater DateParse) (sorted ++ l) →
  foldl (λ sorted x, insertByTime DateParse x sorted) sorted l = sorted ++ l.
Proof.
  revert sorted. induction l as [|x l IH]; intros sorted Hs; simpl.
  - by rewrite app_nil_r.
  - assert (Hs' : StronglySorted (playedNoLater DateParse) ((sorted ++ [x]) ++ l))
      by (rewrite <- app_assoc; exact Hs).
    rewrite insertByTime_last.
    + rewrite IH by done. by rewrite <- app_assoc.
    + apply StronglySorted_app_1_l in Hs'.
      by apply StronglySorted_snoc_inv in Hs' as [_ ?].
Qed.

(** X2: when every play has a valid [played_at], [sortTracksByTimestamp]
    returns them oldest first, and sorting the result again changes
    nothing. *)
Theorem sortTracksByTimestamp_ascending (tracks : list PlayItem) :
  allDated DateParse tracks →
  StronglySorted (playedNoLater DateParse) (sortTracksByTimestamp DateParse tracks)
  ∧ sortTracksByTimestamp DateParse (sortTracksByTimestamp DateParse tracks)
    = sortTracksByTimestamp DateParse tracks.
Proof.
  intros Hl. pose proof (sortTracksByTimestamp_sorted tracks Hl) as Hsorted.
  split; [done|].
  by apply (foldl_insertByTime_sorted_input (sortTracksByTimestamp DateParse tracks) []).
Qed.

(** *** Plays with the same timestamp keep their order *)

Lemma filter_later_nil (t : Z) (l : list PlayItem) :
  Forall (λ z, ∃ tz, DateParse (played_at z) = Some tz ∧ t < tz) l →
  filter (λ item, DateParse (played_at item) = Some t) l = [].
Proof.
  induction 1 as [|z l (tz & Hz & Hlt) Hl IH]; [done|].
  rewrite filter_cons_False; [done|]. rewrite Hz. intros [= ->]. lia.
Qed.

Lemma insertByTime_filter (t tx : Z) (x : PlayItem) (l : list PlayItem) :
  DateParse (played_at x) = Some tx →
  allDated DateParse l →
  StronglySorted (playedNoLater DateParse) l →
  filter (λ item, DateParse (played_at item) = Some t) (insertByTime DateParse x l)
  = filter (λ item, DateParse (played_at item) = Some t) l
    ++ filter (λ item, DateParse (played_at item) = Some t) [x].
Proof.
  intros Hx Hl Hsorted. induction Hsorted as [|y l Hsorted IH Hy]; simpl; [done|].
  apply allDated_cons in Hl as [[ty Hty] Hl].
  rewrite Hx, Hty. simpl. case_bool_decide as Hlt.
  - destruct (decide (tx = t)) as [->|Hne].
    + rewrite !(filter_cons_True _ x) by done.
      rewrite (filter_later_nil t (y :: l)); [done|].
      constructor; [exists ty; split; [done|lia]|].
      eapply Forall_impl; [exact Hy|].
      intros z (ty' & tz & Hty' & Htz & Hle). exists tz. split; [done|].
      simplify_eq. lia.
    + rewrite !(filter_cons_False _ x) by (rewrite Hx; congruence).
      by rewrite app_nil_r.
  - destruct (decide (DateParse (played_at y) = Some t)) as [Hy'|Hy'].
    + rewrite !(filter_cons_True _ y) by done. by rewrite IH.
    + rewrite !(filter_cons_False _ y) by done. by rewrite IH.
Qed.

Lemma foldl_insertByTime_filter (t : Z) (l sorted : list PlayItem) :
  allDated DateParse l →
  allDated DateParse sorted →
  StronglySorted (playedNoLater DateParse) sorted →
  filter (λ item, DateParse (played_at item) = Some t)
    (foldl (λ sorted x, insertByTime DateParse x sorted) sorted l)
  = filter (λ item, DateParse (played_at item) = Some t) (sorted ++ l).
Proof.
  revert sorted. induction l as [|x l IH]; intros sorted Hl Hs Hsorted; simpl.
  - by rewrite app_nil_r.
  - apply allDated_cons in Hl as [[tx Hx] Hl].
    rewrite IH; [|done| |by apply insertByTime_sorted].
    + rewrite !filter_app, (insertByTime_filter t tx) by done.
      rewrite <- app_assoc. f_equal. by rewrite <- filter_app.
    + intros y Hy. rewrite insertByTime_Permutation in Hy.
      apply elem_of_cons in Hy as [->|Hy]; auto.
Qed.

(** X1: when every play has a valid [played_at], [sortTracksByTimestamp]
    returns a rearrangement of its input, the same plays and each as often
    as it was given, in which the plays with one and the same timestamp
    are in the order they had in the input. *)
Theorem sortTracksByTimestamp_Permutation (tracks : list PlayItem) :
  allDated DateParse tracks →
  sortTracksByTimestamp DateParse tracks ≡ₚ tracks
  ∧ ∀ t, filter (λ item, DateParse (played_at item) = Some t)
           (sortTracksByTimestamp DateParse tracks)
         = filter (λ item, DateParse (played_at item) = Some t) tracks.
Proof.
  intros Hl. split.
  - apply (foldl_insertByTime_Permutation tracks []).
  - intros t. apply (foldl_insertByTime_filter t tracks []); [done| |constructor].
    intros y Hy. by apply elem_of_nil in Hy.
Qed.

Lemma foldl_latest (rest : list PlayItem) (latest : PlayItem) (t : Z) :
  DateParse (played_at latest) = Some t →
  allDated DateParse rest →
  ∃ x tx,
    foldl (λ latest current,
             if Js.gt (DateParse (played_at current)) (DateParse (played_at latest))
             then current else latest) latest rest = x
    ∧ (x = latest ∨ x ∈ rest)
    ∧ DateParse (played_at x) = Some tx
    ∧ t ≤ tx
    ∧ ∀ y ty, y ∈ rest → DateParse (played_at y) = Some ty → ty ≤ tx.
Proof.
  revert latest t. induction rest as [|c rest IH]; intros latest t Ht Hrest; simpl.
  - exists latest, t. repeat split; [by left|done|lia|].
    intros y ty Hy. by apply elem_of_nil in Hy.
  - apply allDated_cons in Hrest as [[tc Hc] Hrest].
    rewrite Hc, Ht. unfold Js.gt. simpl. case_bool_decide as Hlt.
    + destruct (IH c tc Hc Hrest) as (x & tx & Hx & Hin & Htx & Hle & Hmax).
      exists x, tx. repeat split; try done.
      * right. destruct Hin as [->|Hin]; [by left|by right].
      * lia.
      * intros y ty [->|Hy]%elem_of_cons Hty; [simplify_eq; lia|by eapply Hmax].
    + destruct (IH latest t Ht Hrest) as (x & tx & Hx & Hin & Htx & Hle & Hmax).
      exists x, tx. repeat split; try done.
      * destruct Hin as [->|Hin]; [by left|right; by right].
      * intros y ty [->|Hy]%elem_of_cons Hty; [simplify_eq; lia|by eapply Hmax].
Qed.

(** X3: of a non-empty list of plays with valid timestamps,
    [getMostRecentTrack] answers with one of them, and none of them was
    played later. *)
Theorem getMostRecentTrack_latest (tracks : list PlayItem) :
  tracks ≠ [] →
  allDated DateParse tracks →
  ∃ x tx,
    getMostRecentTrack DateParse tracks = Some x
    ∧ x ∈ tracks
    ∧ DateParse (played_at x) = Some tx
    ∧ ∀ y ty, y ∈ tracks → DateParse (played_at y) = Some ty → ty ≤ tx.
Proof.
  destruct tracks as [|first rest]; [done|]. intros _ Hall.
  apply allDated_cons in Hall as [[t Ht] Hrest]. simpl.
  destruct (foldl_latest rest first t Ht Hrest) as (x & tx & Hx & Hin & Htx & Hle & Hmax).
  exists x, tx. rewrite Hx. repeat split; try done.
  - destruct Hin as [->|Hin]; [by left|by right].
  - intros y ty [->|Hy]%elem_of_cons Hty; [simplify_eq; lia|by eapply Hmax].
Qed.

End WithDate.
End SortProps.

(** ** What the play filter lets through *)

Module FilterProps.
Import Model PlayFilter.

Section WithDate.
Variable DateParse : string → Js.num.

(** X4: when every fetched play has a valid timestamp that is not later
    than the marker's, [filterNewPlays] returns the empty list: a run on
    plays that were all fetched before logs nothing. *)
Theorem filterNewPlays_nothing_new (tracks : list PlayItem) (st : State)
    (m0 : LastProcessed) (t0 : Z) :
  DateParse "" = None →
  lastProcessed st = Some m0 →
  DateParse (lp_playedAt m0) = Some t0 →
  (∀ item, In item tracks →
     ∃ t, DateParse (played_at item) = Some t ∧ t ≤ t0) →
  filterNewPlays DateParse tracks (Some st) = [].
Proof.
  intros Hempty Hm0 Ht0 Hold.
  destruct (filterNewPlays DateParse tracks (Some st)) as [|e kept] eqn:Hkept; [done|].
  assert (Hin : In e (filterNewPlays DateParse tracks (Some st)))
    by (rewrite Hkept; by left).
  pose proof Hin as [Htracks _]%PlayFilterProps.filterNewPlays_In.
  destruct (Hold e Htracks) as (t & Ht & Hle).
  pose proof (LogSpotifyProps.filterNewPlays_later DateParse tracks st m0 t0 t e
                Hempty Hm0 Ht0 Ht Hin).
  lia.
Qed.

(** X5: a play whose [played_at] is not a valid date passes
    [filterNewPlays] whenever its duration passes [isValidPlay], whatever
    the marker is: both comparisons with the marker are comparisons with
    [NaN]. *)
Theorem filterNewPlays_keeps_undated (tracks : list PlayItem) (st : option State)
    (e : PlayItem) :
  In e tracks →
  DateParse (played_at e) = None →
  isValidPlay e MIN_PLAY_DURATION_MS = true →
  In e (filterNewPlays DateParse tracks st).
Proof.
  intros Hin Hdate Hvalid. apply PlayFilterProps.filterNewPlays_In. split; [done|].
  unfold keepPlay. rewrite Hvalid. simpl.
  assert (Hdup : isDuplicate DateParse e (st ≫= lastProcessed) = false).
  { unfold isDuplicate. destruct (st ≫= lastProcessed) as [lp|]; [|done].
    destruct (negb _); [done|]. rewrite Hdate. simpl. by case_bool_decide. }
  rewrite Hdup, Hdate. done.
Qed.

(** X6: a play with a valid timestamp does not pass [filterNewPlays]
    against the marker [createLastProcessedState] builds for it, with or
    without a track id. *)
Theorem filterNewPlays_excludes_recorded (tracks : list PlayItem) (st : State)
    (e : PlayItem) (now : string) :
  DateParse "" = None →
  is_Some (DateParse (played_at e)) →
  lastProcessed st = Some (createLastProcessedState e now) →
  ¬ In e (filterNewPlays DateParse tracks (Some st)).
Proof.
  intros Hempty [t Ht] Hmarker Hin.
  pose proof (LogSpotifyProps.filterNewPlays_later DateParse tracks st
                (createLastProcessedState e now) t t e Hempty Hmarker Ht Ht Hin).
  lia.
Qed.

End WithDate.

Lemma countRepeats_spec (firstTrackId : Optional string) (rest : list PlayItem) :
  (countRepeats firstTrackId rest ≤ length rest)%nat
  ∧ (∀ i item, (i < countRepeats firstTrackId rest)%nat → rest !! i = Some item →
       optionalChain item track_id = firstTrackId)
  ∧ (∀ item, rest !! countRepeats firstTrackId rest = Some item →
       optionalChain item track_id ≠ firstTrackId).
Proof.
  induction rest as [|x rest (Hle & Hsame & Hnext)]; simpl.
  - repeat split; [lia|intros; lia|done].
  - case_bool_decide as Hx; simpl.
    + repeat split; [lia| |done].
      intros [|i] item Hi; simpl; [by intros [= <-]|]. apply Hsame. lia.
    + repeat split; [lia|intros; lia|]. by intros item [= <-].
Qed.

(** X7: [analyzeRepeatBehavior] counts the longest run of plays at the
    head of the list whose [track?.id] is strictly equal to that of the
    first play, [undefined] (no track object) and [null] (a local file)
    being different values: the plays before index [repeatCount] have that
    id, the play at that index, if there is one, has another, and
    [isRepeating] says that the run has at least two plays; [trackName] is
    the [track?.name] of the first play. Of fewer than two plays it
    reports no repeat and the count zero, in an object without
    [trackName]. *)
Theorem analyzeRepeatBehavior_leading_run (tracks : list PlayItem) :
  ((length tracks < 2)%nat →
     analyzeRepeatBehavior tracks
     = {| isRepeating := false; repeatCount := 0; ra_trackName := None |})
  ∧ (∀ first,
       (2 ≤ length tracks)%nat →
       head tracks = Some first →
       (1 ≤ repeatCount (analyzeRepeatBehavior tracks) ≤ length tracks)%nat
       ∧ (∀ i item, (i < repeatCount (analyzeRepeatBehavior tracks))%nat →
            tracks !! i = Some item →
            optionalChain item track_id = optionalChain first track_id)
       ∧ (∀ item, tracks !! repeatCount (analyzeRepeatBehavior tracks) = Some item →
            optionalChain item track_id ≠ optionalChain first track_id)
       ∧ (isRepeating (analyzeRepeatBehavior tracks) = true
          ↔ (2 ≤ repeatCount (analyzeRepeatBehavior tracks))%nat)
       ∧ ra_trackName (analyzeRepeatBehavior tracks)
         = Some (optionalChain first track_name)).
Proof.
  split.
  { intros Hlen. unfold analyzeRepeatBehavior. by rewrite bool_decide_eq_true_2. }
  intros first Hlen Hfirst. unfold analyzeRepeatBehavior.
  rewrite bool_decide_eq_false_2 by lia.
  destruct tracks as [|first' rest]; simplify_eq/=.
  destruct (countRepeats_spec (optionalChain first track_id) rest)
    as (Hle & Hsame & Hnext).
  split; [lia|]. split; [|split; [done|split; [|done]]].
  - intros [|i] item Hi; simpl; [by intros [= <-]|]. apply Hsame. lia.
  - split.
    + intros H%bool_decide_eq_true. lia.
    + intros H. apply bool_decide_eq_true. lia.
Qed.

End FilterProps.

(** ** The sheet as the source of duplicates and of the marker *)

Module SheetProps.
Import Model Deduplication.

Section WithDate.
Variable DateParse : string → Js.num.

Lemma rowMatches_no_id (item : PlayItem) (row : Row) :
  default "" (track item ≫= track_id) = "" →
  rowMatches DateParse item row = false.
Proof.
  intros Hid. unfold rowMatches.
  destruct (row !! 7%nat) as [rowTrackId|] eqn:Hrow; simpl; [|done].
  destruct (Js.truthy rowTrackId) eqn:Htruthy; simpl; [|done].
  destruct (negb _); simpl; [done|].
  rewrite bool_decide_eq_false_2; [done|].
  intros Heq. rewrite <- Heq in Hid. simpl in Hid. subst.
  by apply JsFacts.truthy_true in Htruthy.
Qed.

Lemma isTrackInSheet_no_id (item : PlayItem) (sheetRows : list Row) :
  default "" (track item ≫= track_id) = "" →
  isTrackInSheet DateParse item sheetRows = false.
Proof.
  intros Hid. unfold isTrackInSheet. case_bool_decide; [done|].
  apply not_true_is_false. intros (row & _ & Hrow)%existsb_exists.
  by rewrite rowMatches_no_id in Hrow.
Qed.

(** X8: [filterDuplicatesAgainstSheet] never holds back a play without a
    track id (a local file), whatever the sheet contains, and it returns
    its input unchanged when the sheet has no data row. *)
Theorem filterDuplicatesAgainstSheet_never_drops (tracks : list PlayItem)
    (sheetRows : list Row) :
  (∀ item, In item tracks →
     default "" (track item ≫= track_id) = "" →
     In item (filterDuplicatesAgainstSheet DateParse tracks sheetRows))
  ∧ ((length sheetRows ≤ 1)%nat →
     filterDuplicatesAgainstSheet DateParse tracks sheetRows = tracks).
Proof.
  unfold filterDuplicatesAgainstSheet. split.
  - intros item Hin Hid. destruct tracks as [|x tracks]; [done|].
    apply filter_In. split; [done|]. by rewrite isTrackInSheet_no_id.
  - intros Hlen. destruct tracks as [|x tracks]; [done|].
    apply forallb_filter_id, forallb_forall. intros item _.
    unfold isTrackInSheet. by rewrite bool_decide_eq_true_2.
Qed.

Lemma validateState_fromSheet (sheetRows : list Row) (marker : LastProcessed)
    (s : State) :
  findLastProcessedInSheet sheetRows = Some marker →
  lastProcessed s = Some marker →
  validateState (Some s) = true.
Proof.
  intros Hsheet Hs. unfold validateState. rewrite Hs.
  unfold findLastProcessedInSheet in Hsheet.
  case_bool_decide; [done|].
  destruct (last sheetRows) as [lastRow|]; [|done].
  destruct (lastRow !! 7%nat) as [trackId|]; simpl in *; [|done].
  destruct (lastRow !! 0%nat) as [timestamp|]; simpl in *;
    [|by rewrite orb_true_r in Hsheet].
  destruct (Js.truthy trackId) eqn:Hid, (Js.truthy timestamp) eqn:Hts;
    simplify_eq/=. by rewrite Hid, Hts.
Qed.

(** X9: [validateState] on the states the pipeline builds. A state
    [validateState] accepts is still accepted after [reconcileState]; a
    state without marker, or no state at all, is accepted after
    [reconcileState] when the sheet yields a marker; and a state with the
    marker [createLastProcessedState] builds for a play is accepted
    exactly when the play has a non-empty track id and a non-empty
    [played_at]. *)
Theorem validateState_of_built_states (sheetData : list Row)
    (localState : option State) :
  (validateState localState = true →
     validateState (reconcileState DateParse sheetData localState) = true)
  ∧ (is_Some (findLastProcessedInSheet sheetData) →
     localState ≫= lastProcessed = None →
     validateState (reconcileState DateParse sheetData localState) = true)
  ∧ (∀ s item now,
       validateState
         (Some (set_lastProcessed
                  (Some (PlayFilter.createLastProcessedState item now)) s)) = true
       ↔ default "" (track item ≫= track_id) ≠ "" ∧ played_at item ≠ "").
Proof.
  split; [|split].
  - unfold reconcileState.
    destruct (findLastProcessedInSheet sheetData) as [marker|] eqn:Hsheet; [|done].
    intros Hlocal. destruct localState as [local|]; [|done].
    destruct (lastProcessed local) as [lp|] eqn:Hlp.
    + destruct (Js.gt _ _); [|done]. by eapply validateState_fromSheet.
    + by eapply validateState_fromSheet.
  - unfold reconcileState.
    destruct (findLastProcessedInSheet sheetData) as [marker|] eqn:Hsheet;
      [|by intros [? ?]].
    intros _ Hnone. destruct localState as [local|].
    + simpl in Hnone. rewrite Hnone. by eapply validateState_fromSheet.
    + by eapply validateState_fromSheet.
  - intros s item now. unfold validateState. simpl.
    rewrite <- !JsFacts.truthy_true.
    destruct (Js.truthy _), (Js.truthy _); simpl; intuition congruence.
Qed.

(** X10: the [isDuplicate] of lib/deduplication.js and the one of
    lib/play-filter.js give the same answer on every play and marker. *)
Theorem isDuplicate_copies_agree (item : PlayItem) (marker : option LastProcessed) :
  Deduplication.isDuplicate DateParse item marker
  = PlayFilter.isDuplicate DateParse item marker.
Proof. reflexivity. Qed.

End WithDate.
End SheetProps.

(** ** Finding the row of a failed track *)

Module ErrorRowProps.
Import Model RetryFailed.

Section WithDate.
Variable DateParse : string → Js.num.

Lemma isErrorRowOf_cells (trackId playedAt : string) (row : Deduplication.Row) :
  isErrorRowOf DateParse trackId playedAt row = true
  ↔ row !! 7%nat = Some trackId
    ∧ row !! 26%nat = Some "ERROR"
    ∧ ∃ timestamp rowTime targetTime,
        row !! 0%nat = Some timestamp
        ∧ DateParse timestamp = Some rowTime
        ∧ DateParse playedAt = Some targetTime
        ∧ Z.abs (rowTime - targetTime) < 300000.
Proof.
  unfold isErrorRowOf. split.
  - repeat case_bool_decide; simpl; try done.
    destruct (row !! 0%nat) as [timestamp|]; simpl; [|done].
    destruct (DateParse timestamp) as [rowTime|] eqn:Hrow; simpl; [|done].
    destruct (DateParse playedAt) as [targetTime|] eqn:Htarget; simpl; [|done].
    intros Hlt%bool_decide_eq_true. repeat split; try done.
    exists timestamp, rowTime, targetTime. repeat split; try done; lia.
  - intros (Hid & Hstatus & timestamp & rowTime & targetTime & Hts & Hrow & Htarget & Hlt).
    rewrite !bool_decide_eq_true_2 by done. simpl.
    rewrite Hts. simpl. rewrite Hrow, Htarget. simpl.
    apply bool_decide_eq_true. lia.
Qed.

Lemma findErrorRowFrom_spec (trackId playedAt : string)
    (rows : list Deduplication.Row) (i : nat) :
  match findErrorRowFrom DateParse i trackId playedAt rows with
  | Some n =>
      ∃ k row, n = (i + k + 1)%nat
               ∧ rows !! k = Some row
               ∧ isErrorRowOf DateParse trackId playedAt row = true
               ∧ ∀ j earlier, (j < k)%nat → rows !! j = Some earlier →
                   isErrorRowOf DateParse trackId playedAt earlier = false
  | None =>
      ∀ j row, rows !! j = Some row →
        isErrorRowOf DateParse trackId playedAt row = false
  end.
Proof.
  revert i. induction rows as [|row rows IH]; intros i; simpl; [done|].
  destruct (isErrorRowOf DateParse trackId playedAt row) eqn:Hrow.
  - exists 0%nat, row. split; [lia|]. split; [done|]. split; [done|]. intros; lia.
  - specialize (IH (S i)).
    destruct (findErrorRowFrom DateParse (S i) trackId playedAt rows) as [n|].
    + destruct IH as (k & found & -> & Hk & Hfound & Hearlier).
      exists (S k), found. split; [lia|]. split; [done|]. split; [done|].
      intros [|j] earlier Hj; simpl; [by intros [= <-]|]. apply Hearlier. lia.
    + intros [|j] row'; simpl; [by intros [= <-]|]. apply IH.
Qed.

(** X11: [findErrorRowIndex] answers with the 1-indexed number of the
    first data row whose track id is the given one, whose status is
    ["ERROR"] and whose timestamp is a valid date less than five minutes
    from the given [playedAt], itself a valid date; the number is at
    least 2, so never the header row. It answers [null] exactly when no
    data row is such a row. *)
Theorem findErrorRowIndex_first_error_row (sheetRows : list Deduplication.Row)
    (trackId playedAt : string) :
  match findErrorRowIndex DateParse sheetRows trackId playedAt with
  | Some rowIndex =>
      (2 ≤ rowIndex ≤ length sheetRows)%nat
      ∧ (∃ row timestamp rowTime targetTime,
           sheetRows !! (rowIndex - 1)%nat = Some row
           ∧ row !! 7%nat = Some trackId
           ∧ row !! 26%nat = Some "ERROR"
           ∧ row !! 0%nat = Some timestamp
           ∧ DateParse timestamp = Some rowTime
           ∧ DateParse playedAt = Some targetTime
           ∧ Z.abs (rowTime - targetTime) < 300000)
      ∧ ∀ j earlier, (1 ≤ j < rowIndex - 1)%nat → sheetRows !! j = Some earlier →
          isErrorRowOf DateParse trackId playedAt earlier = false
  | None =>
      ∀ j row, (1 ≤ j)%nat → sheetRows !! j = Some row →
        isErrorRowOf DateParse trackId playedAt row = false
  end.
Proof.
  unfold findErrorRowIndex.
  pose proof (findErrorRowFrom_spec trackId playedAt (drop 1 sheetRows) 1) as Hspec.
  destruct (findErrorRowFrom DateParse 1 trackId playedAt (drop 1 sheetRows)) as [n|].
  - destruct Hspec as (k & row & -> & Hk & Hrow & Hearlier).
    rewrite lookup_drop in Hk.
    replace (1 + k + 1 - 1)%nat with (1 + k)%nat by lia.
    split; [|split].
    + apply lookup_lt_Some in Hk. lia.
    + apply isErrorRowOf_cells in Hrow
        as (Hid & Hstatus & timestamp & rowTime & targetTime & Hts & Hparse & Htarget & Hlt).
      by exists row, timestamp, rowTime, targetTime.
    + intros j earlier Hj Hlookup. apply (Hearlier (j - 1)%nat); [lia|].
      rewrite lookup_drop. by replace (1 + (j - 1))%nat with j by lia.
  - intros j row Hj Hlookup. apply (Hspec (j - 1)%nat).
    rewrite lookup_drop. by replace (1 + (j - 1))%nat with j by lia.
Qed.

End WithDate.
End ErrorRowProps.

(** ** The state manager on a storage that accepts writes *)

Module AcceptedProps.
Import Model Runtime StateManager Telemetry View StorageProps HoareProps Notions.

Lemma set_failedQueue_same (s : State) : set_failedQueue (failedQueue s) s = s.
Proof. by destruct s. Qed.

Lemma modifyCopy_holds (s : State) (f : State → State) :
  hoare (holds s) (await state := loadState in saveState (f (value state)))
    (λ r w, r = Js.Ok () ∧ holds (f s) w).
Proof.
  eapply hoare_bind; [apply (loadState_holds s)|intros state|by intros ?? [_ (? & ? & _)]].
  intros w [[_ Hacc] (state' & [= <-] & <-)].
  by apply saveState_accepted.
Qed.

Lemma modifyInPlace_holds (s : State) (f : State → State) :
  hoare (holds s)
    (await state := loadState in
     await state := mutateInPlace state f in
     saveState (value state))
    (λ r w, r = Js.Ok () ∧ holds (f s) w).
Proof.
  eapply hoare_bind; [apply (loadState_holds s)|intros state|by intros ?? [_ (? & ? & _)]].
  apply hoare_assume with (P := holds s). intros (state' & [= <-] & <-).
  eapply hoare_bind; [|intros state'|].
  - eapply hoare_weaken; [apply mutateInPlace_accepts|by intros ? [_ ?]|done].
  - apply hoare_assume with (P := λ w, accepts w = true). intros [= ->]. simpl.
    apply saveState_accepted.
  - by intros ?? [_ ?].
Qed.

Lemma updateLastProcessed_holds (s : State) (item : PlayItem) (now : string) :
  hoare (holds s) (updateLastProcessed item now)
    (λ r w, r = Js.Ok ()
            ∧ holds (set_lastProcessed
                       (Some (PlayFilter.createLastProcessedState item now)) s) w).
Proof. apply (modifyCopy_holds s (set_lastProcessed _)). Qed.

Lemma updateStats_holds (s : State) (successes failures : Z) (now : string) :
  hoare (holds s) (updateStats successes failures now)
    (λ r w, r = Js.Ok ()
            ∧ holds (set_stats {| lastRun := Some now;
                                   successCount := successCount (stats s) + successes;
                                   failureCount := failureCount (stats s) + failures |}
                       s) w).
Proof.
  apply (modifyInPlace_holds s
           (λ s, set_stats {| lastRun := Some now;
                              successCount := successCount (stats s) + successes;
                              failureCount := failureCount (stats s) + failures |} s)).
Qed.

Lemma clearFromFailedQueue_holds (s : State) (trackId playedAt : string) :
  hoare (holds s) (clearFromFailedQueue trackId playedAt)
    (λ r w, r = Js.Ok ()
            ∧ holds (set_failedQueue
                       (filter (λ item, ¬ sameEntry trackId playedAt item) (failedQueue s))
                       s) w).
Proof.
  unfold clearFromFailedQueue.
  eapply hoare_bind; [apply (loadState_holds s)|intros state|by intros ?? [_ (? & ? & _)]].
  apply hoare_assume with (P := holds s). intros (state' & [= <-] & <-). simpl.
  case_bool_decide as Hremoved.
  - intros w [_ Hacc]. by apply saveState_accepted.
  - intros w Hw. split; [done|].
    assert (Hsame : filter (λ item, ¬ sameEntry trackId playedAt item)
                      (failedQueue (value state)) = failedQueue (value state)).
    { apply ClearProps.filter_all. intros x Hx Hsame.
      apply Hremoved.
      assert (length (filter (λ item, ¬ sameEntry trackId playedAt item)
                        (failedQueue (value state)))
              < length (failedQueue (value state)))%nat; [|lia].
      apply ClearProps.filter_length_lt. exists x. split; [done|]. by intros H. }
    by rewrite Hsame, set_failedQueue_same.
Qed.

(** The queue after [addToFailedQueue]. *)
Lemma addToFailedQueue_holds (s : State) (item : PlayItem) (error now : string) :
  hoare (holds s) (addToFailedQueue item error now)
    (λ r w, r = Js.Ok ()
            ∧ ∃ queue,
                holds (set_failedQueue queue s) w
                ∧ match list_find (sameEntry (playKey item).1 (playKey item).2)
                          (failedQueue s) with
                  | Some (existingIndex, existing) =>
                      queue = <[existingIndex :=
                                  {| fe_trackId := fe_trackId existing;
                                     fe_trackName := fe_trackName existing;
                                     fe_playedAt := fe_playedAt existing;
                                     attemptCount := attemptCount existing + 1;
                                     lastAttempt := now;
                                     fe_error := error;
                                     partialData := partialData existing |}]>
                                (failedQueue s)
                  | None =>
                      ∃ entry, queue = failedQueue s ++ [entry]
                               ∧ entryKey entry = playKey item
                               ∧ attemptCount entry = 1
                               ∧ lastAttempt entry = now
                               ∧ fe_error entry = error
                               ∧ partialData entry = item
                  end).
Proof.
  unfold addToFailedQueue.
  eapply hoare_bind; [apply (loadState_holds s)|intros state|by intros ?? [_ (? & ? & _)]].
  apply hoare_assume with (P := holds s). intros (state' & [= <-] & <-).
  unfold playKey. simpl.
  destruct (list_find _ (failedQueue (value state))) as [[existingIndex existing]|].
  - eapply hoare_bind; [|intros state'|].
    + eapply hoare_weaken; [apply mutateInPlace_accepts|by intros ? [_ ?]|done].
    + apply hoare_assume with (P := λ w, accepts w = true). intros [= ->]. simpl.
      eapply hoare_weaken; [apply saveState_accepted|done|].
      intros r w [-> Hw]. split; [done|]. by eexists.
    + by intros ?? [_ ?].
  - eapply hoare_bind; [|intros state'|].
    + eapply hoare_weaken; [apply mutateInPlace_accepts|by intros ? [_ ?]|done].
    + apply hoare_assume with (P := λ w, accepts w = true). intros [= ->]. simpl.
      eapply hoare_weaken; [apply saveState_accepted|done|].
      intros r w [-> Hw]. split; [done|]. eexists. split; [exact Hw|].
      by eexists.
    + by intros ?? [_ ?].
Qed.

(** *** Round trips *)

(** X12: on a storage that accepts writes, [saveState] resolves and the
    next [loadState] answers with the saved state, as a parsed object of
    its own. *)
Theorem saveState_then_loadState (state : State) (w : World) :
  accepts w = true →
  (saveState state w).1 = Js.Ok ()
  ∧ (loadState (saveState state w).2).1 = Js.Ok (parsed state).
Proof.
  intros Hacc.
  destruct (saveState_run state w) as (w' & Hw' & _ & _ & _ & _ & Hcase).
  rewrite Hacc in Hcase. destruct Hcase as [Hok Hsrc]. split; [done|].
  rewrite Hw'.
  destruct (loadState_run w') as (w'' & _ & _ & _ & _ & _ & _ & _ & ->).
  by rewrite Hsrc.
Qed.

(** X13: on the local backend, a [saveState] over an existing state
    document leaves that document as the backup file, and when the main
    file then becomes unreadable or corrupt, [loadState] answers with it. *)
Theorem saveState_backs_up_previous (state previous : State) (w : World)
    (broken : File) :
  shouldUseKV (w_env w) = false →
  accepts w = true →
  STATE_FILE (w_files w) = Doc previous →
  broken = Unreadable ∨ broken = Corrupt →
  BACKUP_FILE (w_files (saveState state w).2) = Doc previous
  ∧ (loadState (withStateFile broken (saveState state w).2)).1
    = Js.Ok (parsed previous).
Proof.
  destruct w as [env [dir wr main backup] kv d started]. simpl.
  intros Hkv Hacc -> Hbroken.
  unfold saveState, loadState, withStateFile, accepts in *. simpl in *.
  rewrite Hkv in *. unfold saveStateLocal, loadStateLocal, bind, catch, ensureStateDir.
  simpl. destruct dir; simpl in *; try done; subst wr; simpl; rewrite ?Hkv; simpl;
    by destruct Hbroken as [-> | ->].
Qed.

(** X14: on a storage that accepts writes, after [updateLastProcessed]
    [getLastProcessed] answers with the marker [createLastProcessedState]
    builds for the play, and every other field of the state document is
    as before. *)
Theorem updateLastProcessed_then_getLastProcessed (item : PlayItem) (now : string)
    (w : World) (s : State) :
  accepts w = true →
  view w = Js.Ok s →
  (updateLastProcessed item now w).1 = Js.Ok ()
  ∧ (getLastProcessed (updateLastProcessed item now w).2).1
    = Js.Ok (Some (PlayFilter.createLastProcessedState item now))
  ∧ ∃ s', view (updateLastProcessed item now w).2 = Js.Ok s'
          ∧ failedQueue s' = failedQueue s
          ∧ stats s' = stats s
          ∧ alerts s' = alerts s
          ∧ metrics s' = metrics s
          ∧ historicalImport s' = historicalImport s.
Proof.
  intros Hacc Hview.
  destruct (updateLastProcessed_holds s item now w (conj Hview Hacc)) as [Hok Hw'].
  split; [done|]. split; [|by eexists; split; [apply Hw'|]].
  unfold getLastProcessed.
  assert (Hget : hoare (holds (set_lastProcessed
                                 (Some (PlayFilter.createLastProcessedState item now)) s))
                   (await state := loadState in ret (lastProcessed (value state)))
                   (λ r _, r = Js.Ok (Some (PlayFilter.createLastProcessedState item now)))).
  { eapply hoare_bind; [apply loadState_holds|intros state|by intros ?? [_ (? & ? & _)]].
    by intros w0 [_ (state' & [= <-] & ->)]. }
  by apply Hget.
Qed.

(** *** Queueing a failed play *)

Lemma filter_insert_other {A} (P : A → Prop) `{!∀ x, Decision (P x)}
    (l : list A) (i : nat) (x y : A) :
  l !! i = Some x → ¬ P x → ¬ P y → filter P (<[i := y]> l) = filter P l.
Proof.
  revert i. induction l as [|a l IH]; intros [|i] Hi Hx Hy; simplify_eq/=.
  - by rewrite !filter_cons, !decide_False.
  - rewrite !filter_cons. by rewrite (IH i).
Qed.

(** X15: on a storage that accepts writes, [addToFailedQueue] resolves and
    leaves a queue that holds an entry for the play with the given error
    and time of attempt; the entries for other plays are the same, in the
    same order, and so is the rest of the state document. When the queue
    had no entry for the play the new one is appended with attempt count
    1; otherwise the first entry for the play has its attempt count
    raised by one, and the queue keeps its length. *)
Theorem addToFailedQueue_effect (item : PlayItem) (error now : string)
    (w : World) (s : State) :
  accepts w = true →
  view w = Js.Ok s →
  ∃ s' entry,
    (addToFailedQueue item error now w).1 = Js.Ok ()
    ∧ view (addToFailedQueue item error now w).2 = Js.Ok s'
    ∧ sameOutsideQueue s s'
    ∧ entry ∈ failedQueue s'
    ∧ entryKey entry = playKey item
    ∧ lastAttempt entry = now
    ∧ fe_error entry = error
    ∧ filter (λ e, entryKey e ≠ playKey item) (failedQueue s')
      = filter (λ e, entryKey e ≠ playKey item) (failedQueue s)
    ∧ match list_find (λ e, entryKey e = playKey item) (failedQueue s) with
      | Some (_, existing) =>
          attemptCount entry = attemptCount existing + 1
          ∧ length (failedQueue s') = length (failedQueue s)
      | None =>
          attemptCount entry = 1
          ∧ failedQueue s' = failedQueue s ++ [entry]
      end.
Proof.
  intros Hacc Hview.
  destruct (addToFailedQueue_holds s item error now w (conj Hview Hacc))
    as [Hok (queue & [Hview' _] & Hqueue)].
  assert (Hfind : list_find (λ e, entryKey e = playKey item) (failedQueue s)
                  = list_find (sameEntry (playKey item).1 (playKey item).2)
                      (failedQueue s)).
  { apply list_find_ext. intros e. unfold entryKey, sameEntry, playKey. simpl.
    split; [by intros [= -> ->]|by intros [-> ->]]. }
  rewrite Hfind.
  destruct (list_find (sameEntry _ _) (failedQueue s))
    as [[existingIndex existing]|] eqn:Hfound.
  - apply list_find_Some in Hfound as (Hlookup & [Hid Hat] & _).
    eexists _, _. split; [done|]. split; [exact Hview'|].
    subst queue. simpl.
    split; [by repeat split|].
    split.
    { apply list_elem_of_lookup. exists existingIndex.
      apply list_lookup_insert_eq. by eapply lookup_lt_Some. }
    split; [unfold entryKey; simpl; by rewrite Hid, Hat|].
    split; [done|]. split; [done|].
    split; [|split; [done|by rewrite length_insert]].
    apply filter_insert_other with (x := existing); [done| |].
    + unfold entryKey. rewrite Hid, Hat. by intros H.
    + unfold entryKey. simpl. rewrite Hid, Hat. by intros H.
  - destruct Hqueue as (entry & -> & Hkey & Hcount & Hlast & Herror & _).
    exists (set_failedQueue (failedQueue s ++ [entry]) s), entry.
    split; [done|]. split; [exact Hview'|]. simpl.
    split; [by repeat split|].
    split; [apply elem_of_app; right; by left|].
    split; [done|]. split; [done|]. split; [done|].
    split; [|done].
    rewrite filter_app, filter_cons, decide_False by (by intros H).
    by rewrite filter_nil, app_nil_r.
Qed.

(** X16: on a storage that accepts writes, [addToFailedQueue] for a play
    followed by [clearFromFailedQueue] with the key of that play leaves
    the state document with the queue it had before, less the entries for
    that play; when the queue had none, the document is the one before
    the two calls. *)
Theorem addToFailedQueue_then_clearFromFailedQueue (item : PlayItem)
    (error now : string) (w : World) (s : State) :
  accepts w = true →
  view w = Js.Ok s →
  (addToFailedQueue item error now w).1 = Js.Ok ()
  ∧ (clearFromFailedQueue (playKey item).1 (playKey item).2
       (addToFailedQueue item error now w).2).1 = Js.Ok ()
  ∧ view (clearFromFailedQueue (playKey item).1 (playKey item).2
            (addToFailedQueue item error now w).2).2
    = Js.Ok (set_failedQueue
               (filter (λ e, ¬ sameEntry (playKey item).1 (playKey item).2 e)
                  (failedQueue s)) s)
  ∧ ((∀ e, e ∈ failedQueue s → entryKey e ≠ playKey item) →
     view (clearFromFailedQueue (playKey item).1 (playKey item).2
             (addToFailedQueue item error now w).2).2 = Js.Ok s).
Proof.
  intros Hacc Hview.
  set (w1 := (addToFailedQueue item error now w).2).
  set (w2 := (clearFromFailedQueue (playKey item).1 (playKey item).2 w1).2).
  destruct (addToFailedQueue_holds s item error now w (conj Hview Hacc))
    as [Hok (queue & Hw1 & Hqueue)].
  destruct (clearFromFailedQueue_holds _ (playKey item).1 (playKey item).2 w1 Hw1)
    as [Hok' [Hview2 _]].
  assert (Hfilter : filter (λ e, ¬ sameEntry (playKey item).1 (playKey item).2 e) queue
                    = filter (λ e, ¬ sameEntry (playKey item).1 (playKey item).2 e)
                        (failedQueue s)).
  { destruct (list_find _ (failedQueue s)) as [[existingIndex existing]|] eqn:Hfound.
    - apply list_find_Some in Hfound as (Hlookup & [Hid Hat] & _). subst queue.
      apply filter_insert_other with (x := existing); [done| |].
      + intros H. apply H. by split.
      + intros H. apply H. by split.
    - destruct Hqueue as (entry & -> & Hkey & _).
      rewrite filter_app, filter_cons, decide_False.
      + by rewrite filter_nil, app_nil_r.
      + intros H. apply H. unfold entryKey, playKey in *. simpl in *.
        split; congruence. }
  split; [done|]. split; [done|].
  assert (Hresult : view w2
            = Js.Ok (set_failedQueue
                       (filter (λ e, ¬ sameEntry (playKey item).1 (playKey item).2 e)
                          (failedQueue s)) s)).
  { fold w2 in Hview2. rewrite Hview2.
    change (failedQueue (set_failedQueue queue s)) with queue.
    rewrite Hfilter. by destruct s. }
  split; [done|].
  intros Habsent. rewrite Hresult, ClearProps.filter_all; [by rewrite set_failedQueue_same|].
  intros e He [Hid Hat]. apply (Habsent e He). unfold entryKey. by rewrite Hid, Hat.
Qed.

(** *** The reset operations and the shared default *)

Lemma loadState_FromDefault (w : World) :
  source w = FromDefault →
  ∃ w1,
    loadState w = (Js.Ok {| value := w_DEFAULT_STATE w; sharesDefault := true |}, w1)
    ∧ source w1 = FromDefault
    ∧ accepts w1 = accepts w
    ∧ w_DEFAULT_STATE w1 = w_DEFAULT_STATE w.
Proof.
  intros Hsrc.
  destruct (loadState_run w) as (w1 & Hw1 & Hsrc1 & _ & Hacc & _ & Hdef & _ & Hres).
  rewrite Hsrc in Hres. exists w1.
  destruct (loadState w) as [r w1']. simpl in *. subst r w1'.
  split; [done|]. rewrite Hsrc1. by repeat split.
Qed.

Lemma saveState_DEFAULT_STATE (state : State) (w : World) :
  w_DEFAULT_STATE (saveState state w).2 = w_DEFAULT_STATE w.
Proof. by destruct (saveState_run state w) as (w' & -> & _ & -> & _). Qed.

Lemma clearAllState_holds (w : World) :
  accepts w = true →
  (clearAllState w).1 = Js.Ok () ∧ holds (w_DEFAULT_STATE w) (clearAllState w).2.
Proof.
  intros Hacc. unfold clearAllState, bind, copyOfDefault. simpl.
  by apply saveState_accepted.
Qed.

Lemma resetStats_holds (s : State) (w : World) :
  holds s w →
  (resetStats w).1 = Js.Ok ()
  ∧ holds (set_stats (stats (w_DEFAULT_STATE w)) s) (resetStats w).2.
Proof.
  intros Hw. unfold resetStats.
  assert (Hspec : hoare (λ w0, holds s w0 ∧ w_DEFAULT_STATE w0 = w_DEFAULT_STATE w)
                    (await state := loadState in
                     await defaults := copyOfDefault in
                     saveState (set_stats (stats (value defaults)) (value state)))
                    (λ r w', r = Js.Ok ()
                             ∧ holds (set_stats (stats (w_DEFAULT_STATE w)) s) w')).
  { eapply hoare_bind
      with (Q := λ r w0, (holds s w0 ∧ w_DEFAULT_STATE w0 = w_DEFAULT_STATE w)
                         ∧ ∃ state, r = Js.Ok state ∧ value state = s);
      [|intros state|by intros ?? [_ (? & ? & _)]].
    - intros w0 [Hw0 Hdef].
      destruct (loadState_holds s w0 Hw0) as [Hw0' Hstate].
      split; [split; [done|]|done].
      destruct (loadState_run w0) as (w1 & Hw1 & _ & _ & _ & _ & Hdef1 & _).
      rewrite Hw1. congruence.
    - intros w0 [[[_ Hacc] Hdef] (state' & [= <-] & <-)].
      unfold bind, copyOfDefault. simpl. rewrite Hdef.
      by apply saveState_accepted. }
  by apply Hspec.
Qed.

(** X17: the reset operations write what [DEFAULT_STATE] holds at that
    moment, not the literal default. In a process that finds no state
    document to read, on a storage that accepts writes: after
    [addToFailedQueue] for a play, [clearAllState] persists a queue that
    still holds an entry for that play; and after [updateStats],
    [resetStats] leaves the persisted document as it is, counters
    included. *)
Theorem reset_after_default_mutation (w : World) :
  accepts w = true →
  source w = FromDefault →
  (∀ item error now,
     ∃ s2 entry,
       view (clearAllState (addToFailedQueue item error now w).2).2 = Js.Ok s2
       ∧ entry ∈ failedQueue s2
       ∧ entryKey entry = playKey item)
  ∧ (∀ successes failures now,
       ∃ s1,
         view (updateStats successes failures now w).2 = Js.Ok s1
         ∧ stats s1 = {| lastRun := Some now;
                         successCount :=
                           successCount (stats (w_DEFAULT_STATE w)) + successes;
                         failureCount :=
                           failureCount (stats (w_DEFAULT_STATE w)) + failures |}
         ∧ view (resetStats (updateStats successes failures now w).2).2 = Js.Ok s1).
Proof.
  intros Hacc Hsrc.
  destruct (loadState_FromDefault w Hsrc) as (w0 & Hload & Hsrc0 & Hacc0 & Hdef0).
  rewrite Hacc in Hacc0.
  split.
  - intros item error now.
    set (w1 := (addToFailedQueue item error now w).2).
    assert (Hdefault : ∃ entry, entry ∈ failedQueue (w_DEFAULT_STATE w1)
                                ∧ entryKey entry = playKey item).
    { unfold w1, addToFailedQueue, bind. rewrite Hload. simpl.
      destruct (list_find _ (failedQueue (w_DEFAULT_STATE w)))
        as [[existingIndex existing]|] eqn:Hfound; simpl.
      - rewrite saveState_DEFAULT_STATE. simpl.
        apply list_find_Some in Hfound as (Hlookup & [Hid Hat] & _).
        eexists. split.
        + apply list_elem_of_lookup. exists existingIndex.
          apply list_lookup_insert_eq. by eapply lookup_lt_Some.
        + unfold entryKey, playKey. simpl. by rewrite Hid, Hat.
      - rewrite saveState_DEFAULT_STATE. simpl.
        eexists. split; [apply elem_of_app; right; by left|done]. }
    destruct Hdefault as (entry & Hin & Hkey).
    assert (Hacc1 : accepts w1 = true).
    { assert (Hview : ∃ s, view w = Js.Ok s) by (by apply RetryProps.accepts_view).
      destruct Hview as [s Hview].
      by destruct (addToFailedQueue_holds s item error now w (conj Hview Hacc))
        as [_ (queue & [_ ?] & _)]. }
    destruct (clearAllState_holds w1 Hacc1) as [_ [Hview2 _]].
    by exists (w_DEFAULT_STATE w1), entry.
  - intros successes failures now.
    set (w1 := (updateStats successes failures now w).2).
    set (updated := {| lastRun := Some now;
                       successCount :=
                         successCount (stats (w_DEFAULT_STATE w)) + successes;
                       failureCount :=
                         failureCount (stats (w_DEFAULT_STATE w)) + failures |}).
    assert (Hview : view w = Js.Ok (w_DEFAULT_STATE w)).
    { unfold view. by rewrite Hsrc. }
    destruct (updateStats_holds _ successes failures now w (conj Hview Hacc))
      as [_ Hw1]. fold w1 updated in Hw1.
    assert (Hdef1 : stats (w_DEFAULT_STATE w1) = updated).
    { unfold w1, updateStats, bind. rewrite Hload. simpl.
      by rewrite saveState_DEFAULT_STATE. }
    destruct (resetStats_holds _ w1 Hw1) as [_ [Hview2 _]].
    exists (set_stats updated (w_DEFAULT_STATE w)).
    split; [apply Hw1|]. split; [done|].
    rewrite Hview2, Hdef1. done.
Qed.

(** *** Steps that cannot fail *)

Lemma accepting_weaken (Φ Ψ : State → Prop) (w : World) :
  (∀ s, Φ s → Ψ s) → accepting Φ w → accepting Ψ w.
Proof. intros Himpl [Hacc (s & Hview & Hs)]. split; [done|]. exists s. eauto. Qed.

Lemma modifyCopy_accepting (Φ Ψ : State → Prop) (f : State → State) :
  (∀ s, Φ s → Ψ (f s)) →
  hoare (accepting Φ) (await state := loadState in saveState (f (value state)))
    (λ r w, r = Js.Ok () ∧ accepting Ψ w).
Proof.
  intros Hf w [Hacc (s & Hview & Hs)].
  destruct (modifyCopy_holds s f w (conj Hview Hacc)) as [Hok [Hview' Hacc']].
  split; [done|]. split; [done|]. exists (f s). eauto.
Qed.

Lemma modifyInPlace_accepting (Φ Ψ : State → Prop) (f : State → State) :
  (∀ s, Φ s → Ψ (f s)) →
  hoare (accepting Φ)
    (await state := loadState in
     await state := mutateInPlace state f in
     saveState (value state))
    (λ r w, r = Js.Ok () ∧ accepting Ψ w).
Proof.
  intros Hf w [Hacc (s & Hview & Hs)].
  destruct (modifyInPlace_holds s f w (conj Hview Hacc)) as [Hok [Hview' Hacc']].
  split; [done|]. split; [done|]. exists (f s). eauto.
Qed.

Lemma addToFailedQueue_accepting (Φ : State → Prop) (item : PlayItem)
    (error now : string) :
  (∀ s queue, Φ s → Φ (set_failedQueue queue s)) →
  hoare (accepting Φ) (addToFailedQueue item error now)
    (λ r w, r = Js.Ok () ∧ accepting Φ w).
Proof.
  intros Hqueue w [Hacc (s & Hview & Hs)].
  destruct (addToFailedQueue_holds s item error now w (conj Hview Hacc))
    as [Hok (queue & [Hview' Hacc'] & _)].
  split; [done|]. split; [done|]. eexists. split; [exact Hview'|]. by apply Hqueue.
Qed.

Lemma forEach_accepting {A} (Φ : State → Prop) (f : A → M unit) (l : list A) :
  (∀ x, hoare (accepting Φ) (f x) (λ r w, r = Js.Ok () ∧ accepting Φ w)) →
  hoare (accepting Φ) (forEach f l) (λ r w, r = Js.Ok () ∧ accepting Φ w).
Proof.
  intros Hf. induction l as [|x l IH]; simpl.
  - by intros w Hw.
  - eapply hoare_bind; [apply Hf| |by intros ?? [? _]].
    intros []. intros w [_ Hw]. by apply IH.
Qed.

Lemma loadState_accepting (Φ : State → Prop) :
  hoare (accepting Φ) loadState
    (λ r w, accepting Φ w ∧ ∃ state, r = Js.Ok state ∧ view w = Js.Ok (value state)).
Proof.
  intros w [Hacc (s & Hview & Hs)].
  destruct (loadState_holds s w (conj Hview Hacc)) as [[Hview' Hacc'] (state & -> & <-)].
  split; [|by eexists]. split; [done|]. eauto.
Qed.

Lemma endExecution_accepting (Φ : State → Prop) (aggregate : option Json → Json) :
  (∀ s v, Φ s → Φ (set_metrics v s)) →
  hoare (accepting Φ) (endExecution aggregate) (λ r w, r = Js.Ok () ∧ accepting Φ w).
Proof.
  intros Hmetrics. unfold endExecution.
  eapply hoare_bind with (Q := λ r w, accepting Φ w ∧ ∃ started, r = Js.Ok started);
    [|intros started|by intros ?? [_ [? ?]]].
  { intros w Hw. split; [done|by eexists]. }
  destruct started; simpl; [|by intros w [Hw _]].
  eapply hoare_bind;
    [eapply hoare_weaken; [apply (loadState_accepting Φ)|by intros ? [? _]|done]
    |intros state|by intros ?? [_ (? & ? & _)]].
  apply hoare_weaken with (P' := accepting Φ)
    (Q' := λ r w, r = Js.Ok () ∧ accepting Φ w); [|by intros ? [? _]|done].
  assert (Hsave : hoare (accepting Φ)
                    (await state0 := loadState in
                     saveState (set_metrics (Some (aggregate (metrics (value state))))
                                  (value state0)))
                    (λ r w, r = Js.Ok () ∧ accepting Φ w)).
  { apply (modifyCopy_accepting Φ Φ (set_metrics _)). intros s. apply Hmetrics. }
  intros w Hw. specialize (Hsave w Hw). unfold bind in *.
  destruct (loadState w) as [[state0|thrown] w1]; simpl in *; [|by destruct Hsave].
  destruct (saveState _ w1) as [[[]|thrown] w2]; simpl in *; [|by destruct Hsave].
  exact Hsave.
Qed.

Lemma saveAlertState_accepting (Φ : State → Prop) (alertState : Json) :
  (∀ s v, Φ s → Φ (set_alerts v s)) →
  hoare (accepting Φ) (saveAlertState alertState) (λ r w, r = Js.Ok () ∧ accepting Φ w).
Proof.
  intros Halerts. apply (modifyCopy_accepting Φ Φ (set_alerts _)).
  intros s. apply Halerts.
Qed.

Lemma getAlertState_accepting (Φ : State → Prop) :
  hoare (accepting Φ) getAlertState (λ r w, accepting Φ w ∧ ∃ a, r = Js.Ok a).
Proof.
  unfold getAlertState.
  eapply hoare_bind; [apply (loadState_accepting Φ)|intros state|by intros ?? [_ (? & ? & _)]].
  intros w [Hw _]. split; [done|by eexists].
Qed.

Lemma sendAlert_accepting (Φ : State → Prop) (decision : AlertDecision) :
  (∀ s v, Φ s → Φ (set_alerts v s)) →
  hoare (accepting Φ) (sendAlert decision) (λ r w, r = Js.Ok () ∧ accepting Φ w).
Proof.
  intros Halerts. destruct decision as [| |markSent]; simpl.
  - by intros w Hw.
  - eapply hoare_bind; [apply (getAlertState_accepting Φ)|intros a|by intros ?? [_ [? ?]]].
    by intros w [Hw _].
  - eapply hoare_bind; [apply (getAlertState_accepting Φ)|intros a|by intros ?? [_ [? ?]]].
    eapply hoare_bind;
      [eapply hoare_weaken; [apply (getAlertState_accepting Φ)|by intros ? [? _]|done]
      |intros a'|by intros ?? [_ [? ?]]].
    eapply hoare_weaken; [by apply saveAlertState_accepting|by intros ? [? _]|done].
Qed.

Lemma checkAlertThresholds_accepting (Φ : State → Prop) (slow errorRate : AlertDecision) :
  (∀ s v, Φ s → Φ (set_alerts v s)) →
  hoare (accepting Φ) (checkAlertThresholds slow errorRate)
    (λ r w, r = Js.Ok () ∧ accepting Φ w).
Proof.
  intros Halerts. unfold checkAlertThresholds.
  eapply hoare_bind; [by apply sendAlert_accepting|intros []|by intros ?? [? _]].
  eapply hoare_weaken; [by apply sendAlert_accepting|by intros ? [_ ?]|done].
Qed.

Lemma trackSuccessfulRun_accepting (Φ : State → Prop) (reset : option Json → Json) :
  (∀ s v, Φ s → Φ (set_alerts v s)) →
  hoare (accepting Φ) (trackSuccessfulRun reset) (λ r w, r = Js.Ok () ∧ accepting Φ w).
Proof.
  intros Halerts. unfold trackSuccessfulRun.
  eapply hoare_bind; [apply (getAlertState_accepting Φ)|intros a|by intros ?? [_ [? ?]]].
  eapply hoare_weaken; [by apply saveAlertState_accepting|by intros ? [? _]|done].
Qed.

End AcceptedProps.

(** ** Invariants of the storage *)

Module InvariantProps.
Import Model Runtime StateManager Telemetry View StorageProps HoareProps Notions.

Section WithInvariant.
Variable I : World → Prop.
Variable L : Loaded → Prop.

Hypothesis I_load :
  hoare I loadState (λ r w, I w ∧ ∀ state, r = Js.Ok state → L state).
Hypothesis I_save : ∀ state, keeps I (saveState state).
Hypothesis I_mutate : ∀ state f, L state → keeps I (mutateInPlace state f).
Hypothesis I_flag : ∀ b, keeps I (λ w, (Js.Ok (), set_executionStarted b w)).

Lemma inv_after_load {B} (k : Loaded → M B) :
  (∀ state, L state → keeps I (k state)) →
  keeps I (await state := loadState in k state).
Proof. intros Hk. by apply keeps_bind_with with (F := L). Qed.

Lemma inv_copyOfDefault : keeps I copyOfDefault.
Proof. by intros w Hw. Qed.

Lemma inv_mutate_save (state : Loaded) (f : State → State) :
  L state →
  keeps I (await state := mutateInPlace state f in saveState (value state)).
Proof.
  intros Hstate. apply keeps_bind; [by apply I_mutate|]. intros state'. apply I_save.
Qed.

Lemma inv_getLastProcessed : keeps I getLastProcessed.
Proof. apply inv_after_load. intros state _. apply keeps_ret. Qed.

Lemma inv_updateLastProcessed (item : PlayItem) (now : string) :
  keeps I (updateLastProcessed item now).
Proof. apply inv_after_load. intros state _. apply I_save. Qed.

Lemma inv_addToFailedQueue (item : PlayItem) (error now : string) :
  keeps I (addToFailedQueue item error now).
Proof.
  unfold addToFailedQueue. apply inv_after_load. intros state Hstate.
  destruct (list_find _ _) as [[existingIndex existing]|]; by apply inv_mutate_save.
Qed.

Lemma inv_getFailedQueue : keeps I getFailedQueue.
Proof. apply inv_after_load. intros state _. apply keeps_ret. Qed.

Lemma inv_clearFromFailedQueue (trackId playedAt : string) :
  keeps I (clearFromFailedQueue trackId playedAt).
Proof.
  unfold clearFromFailedQueue. apply inv_after_load. intros state _. simpl.
  apply keeps_if; [apply I_save|apply keeps_ret].
Qed.

Lemma inv_updateStats (successes failures : Z) (now : string) :
  keeps I (updateStats successes failures now).
Proof.
  unfold updateStats. apply inv_after_load. intros state Hstate.
  by apply inv_mutate_save.
Qed.

Lemma inv_getStats : keeps I getStats.
Proof. apply inv_after_load. intros state _. apply keeps_ret. Qed.

Lemma inv_resetStats : keeps I resetStats.
Proof.
  unfold resetStats. apply inv_after_load. intros state _.
  apply keeps_bind; [apply inv_copyOfDefault|]. intros defaults. apply I_save.
Qed.

Lemma inv_clearAllState : keeps I clearAllState.
Proof.
  unfold clearAllState. apply keeps_bind; [apply inv_copyOfDefault|].
  intros defaults. apply I_save.
Qed.

Lemma inv_endExecution (aggregate : option Json → Json) :
  keeps I (endExecution aggregate).
Proof.
  unfold endExecution. apply keeps_bind; [by intros w Hw|]. intros started.
  apply keeps_if; [apply keeps_ret|].
  apply inv_after_load. intros state _.
  apply inv_after_load. intros state' _.
  apply keeps_bind; [apply I_save|]. intros _. apply I_flag.
Qed.

Lemma inv_getAlertState : keeps I getAlertState.
Proof. apply inv_after_load. intros state _. apply keeps_ret. Qed.

Lemma inv_saveAlertState (alertState : Json) : keeps I (saveAlertState alertState).
Proof. apply inv_after_load. intros state _. apply I_save. Qed.

Lemma inv_sendAlert (decision : AlertDecision) : keeps I (sendAlert decision).
Proof.
  destruct decision as [| |markSent]; simpl.
  - apply keeps_ret.
  - apply keeps_bind; [apply inv_getAlertState|]. intros _. apply keeps_ret.
  - apply keeps_bind; [apply inv_getAlertState|]. intros _.
    apply keeps_bind; [apply inv_getAlertState|]. intros alertState.
    apply inv_saveAlertState.
Qed.

Lemma inv_trackSuccessfulRun (reset : option Json → Json) :
  keeps I (trackSuccessfulRun reset).
Proof.
  apply keeps_bind; [apply inv_getAlertState|]. intros alertState.
  apply inv_saveAlertState.
Qed.

Lemma inv_trackFailedRun (bump : option Json → Json) (decision : AlertDecision) :
  keeps I (trackFailedRun bump decision).
Proof.
  apply keeps_bind; [apply inv_getAlertState|]. intros alertState.
  apply keeps_bind; [apply inv_saveAlertState|]. intros _. apply inv_sendAlert.
Qed.

Lemma inv_checkAlertThresholds (slow errorRate : AlertDecision) :
  keeps I (checkAlertThresholds slow errorRate).
Proof. apply keeps_bind; [apply inv_sendAlert|]. intros _. apply inv_sendAlert. Qed.

Lemma inv_retry_handler (DateParse : string → Js.num) (inp : RetryFailed.Inputs) :
  keeps I (RetryFailed.handler DateParse inp).
Proof.
  unfold RetryFailed.handler.
  apply keeps_catch; [|intros errorMessage; apply keeps_ret].
  apply keeps_bind; [apply inv_getFailedQueue|]. intros queue.
  apply keeps_if; [apply keeps_ret|].
  apply keeps_bind; [apply keeps_lift|intros sheetRows].
  apply inv_after_load. intros state _.
  apply keeps_bind; [|intros _].
  { apply keeps_forEach. intros key _. apply inv_clearFromFailedQueue. }
  apply keeps_bind; [|intros _].
  { apply keeps_if; [|apply keeps_ret].
    apply inv_after_load. intros currentState Hcurrent. by apply inv_mutate_save. }
  apply keeps_bind; [|intros _].
  { apply keeps_if; [|apply keeps_ret].
    apply inv_after_load. intros currentState _. apply I_save. }
  apply keeps_bind; [apply inv_updateStats|]. intros _. apply keeps_ret.
Qed.

Lemma inv_log_handler (DateParse : string → Js.num) (inp : LogSpotify.Inputs) :
  keeps I (LogSpotify.handler DateParse inp).
Proof.
  unfold LogSpotify.handler.
  apply keeps_bind; [apply I_flag|]. intros _.
  apply keeps_catch.
  - unfold LogSpotify.run. apply inv_after_load. intros state _.
    apply keeps_bind; [apply inv_getStats|]. intros _.
    apply keeps_bind; [apply keeps_lift|]. intros tracks.
    apply keeps_if; [apply keeps_ret|].
    apply keeps_if; [apply keeps_ret|].
    apply keeps_bind; [apply keeps_lift|]. intros sheetRows.
    apply keeps_if; [apply keeps_ret|].
    apply keeps_bind; [apply keeps_lift|]. intros enriched.
    unfold LogSpotify.commit.
    apply keeps_bind; [apply keeps_lift|]. intros _.
    apply keeps_bind; [|intros _].
    { destruct (PlayFilter.getMostRecentTrack _ _);
        [apply inv_updateLastProcessed|apply keeps_ret]. }
    apply keeps_bind; [|intros _].
    { apply keeps_forEach. intros failed _. apply inv_addToFailedQueue. }
    apply keeps_bind; [apply inv_updateStats|]. intros _.
    apply keeps_bind; [apply inv_endExecution|]. intros _.
    apply keeps_bind; [apply inv_checkAlertThresholds|]. intros _.
    apply keeps_bind; [apply inv_trackSuccessfulRun|]. intros _.
    apply keeps_ret.
  - intros errorMessage.
    apply keeps_bind; [apply inv_endExecution|]. intros _.
    apply keeps_bind; [apply inv_trackFailedRun|]. intros _.
    apply keeps_ret.
Qed.

End WithInvariant.

(** *** The two backends *)

Lemma kvOnly_load (files : LocalFiles) :
  hoare (λ w, shouldUseKV (w_env w) = true ∧ w_files w = files) loadState
    (λ r w, (shouldUseKV (w_env w) = true ∧ w_files w = files)
            ∧ ∀ state, r = Js.Ok state → True).
Proof.
  intros w [Hkv Hfiles]. unfold loadState. rewrite Hkv.
  unfold loadStateKV, catch, copyOfDefault.
  destruct (kv_reachable (w_kv w)); [destruct (KV_STATE_KEY (w_kv w))|]; by simpl.
Qed.

Lemma kvOnly_save (files : LocalFiles) (state : State) :
  keeps (λ w, shouldUseKV (w_env w) = true ∧ w_files w = files) (saveState state).
Proof.
  intros w [Hkv Hfiles]. unfold saveState. rewrite Hkv.
  by destruct (saveStateKV_run state w Hkv) as (kv' & -> & _).
Qed.

Lemma localOnly_load (kv : KV) :
  hoare (λ w, shouldUseKV (w_env w) = false ∧ w_kv w = kv) loadState
    (λ r w, (shouldUseKV (w_env w) = false ∧ w_kv w = kv)
            ∧ ∀ state, r = Js.Ok state → True).
Proof.
  intros w [Hkv Hstore].
  destruct (loadState_run w) as (w' & Hw' & _ & Hstored & _ & Henv & _).
  rewrite Hw'. unfold stored in Hstored. split; [|done].
  split; [congruence|]. by simplify_eq.
Qed.

Lemma localOnly_save (kv : KV) (state : State) :
  keeps (λ w, shouldUseKV (w_env w) = false ∧ w_kv w = kv) (saveState state).
Proof.
  intros w [Hkv Hstore]. unfold saveState. rewrite Hkv.
  unfold saveStateLocal, bind, ensureStateDir.
  destruct (STATE_DIR (w_files w)), (writable (w_files w)); by simpl.
Qed.

Lemma mutateInPlace_storage (P : Env → LocalFiles → KV → Prop) (state : Loaded)
    (f : State → State) :
  keeps (λ w, P (w_env w) (w_files w) (w_kv w)) (mutateInPlace state f).
Proof. intros w Hw. unfold mutateInPlace. simpl. by destruct (sharesDefault state). Qed.

(** X18: the two backends do not mix. A run of the logging handler or of
    the retry handler in an environment where [shouldUseKV] holds leaves
    the local files as they are, the state directory included; a run
    where it does not hold leaves the key/value store as it is. *)
Theorem backends_do_not_mix (DateParse : string → Js.num)
    (logging : LogSpotify.Inputs) (retry : RetryFailed.Inputs) (w : World) :
  (shouldUseKV (w_env w) = true →
     w_files (LogSpotify.handler DateParse logging w).2 = w_files w
     ∧ w_files (RetryFailed.handler DateParse retry w).2 = w_files w)
  ∧ (shouldUseKV (w_env w) = false →
     w_kv (LogSpotify.handler DateParse logging w).2 = w_kv w
     ∧ w_kv (RetryFailed.handler DateParse retry w).2 = w_kv w).
Proof.
  split; intros Hkv.
  - set (I := λ w0, shouldUseKV (w_env w0) = true ∧ w_files w0 = w_files w).
    assert (Hmutate : ∀ state f, True → keeps I (mutateInPlace state f)).
    { intros state f _.
      apply (mutateInPlace_storage (λ env files _, shouldUseKV env = true
                                                    ∧ files = w_files w)). }
    assert (Hflag : ∀ b, keeps I (λ w0, (Js.Ok (), set_executionStarted b w0)))
      by (by intros b w0 Hw0).
    split.
    + by apply (inv_log_handler I (λ _, True) (kvOnly_load _) (kvOnly_save _)
                  Hmutate Hflag DateParse logging w).
    + by apply (inv_retry_handler I (λ _, True) (kvOnly_load _) (kvOnly_save _)
                  Hmutate DateParse retry w).
  - set (I := λ w0, shouldUseKV (w_env w0) = false ∧ w_kv w0 = w_kv w).
    assert (Hmutate : ∀ state f, True → keeps I (mutateInPlace state f)).
    { intros state f _.
      apply (mutateInPlace_storage (λ env _ kv, shouldUseKV env = false
                                                 ∧ kv = w_kv w)). }
    assert (Hflag : ∀ b, keeps I (λ w0, (Js.Ok (), set_executionStarted b w0)))
      by (by intros b w0 Hw0).
    split.
    + by apply (inv_log_handler I (λ _, True) (localOnly_load _) (localOnly_save _)
                  Hmutate Hflag DateParse logging w).
    + by apply (inv_retry_handler I (λ _, True) (localOnly_load _) (localOnly_save _)
                  Hmutate DateParse retry w).
Qed.

(** *** The component keys *)

Lemma mirrored_load (P : KV → Prop) :
  hoare (λ w, P (w_kv w)) loadState
    (λ r w, P (w_kv w) ∧ ∀ state, r = Js.Ok state → True).
Proof.
  intros w Hw.
  destruct (loadState_run w) as (w' & Hw' & _ & Hstored & _).
  rewrite Hw'. unfold stored in Hstored. split; [|done].
  injection Hstored as _ _ Hkv. by rewrite Hkv.
Qed.

(** A [saveState] whose component keys are accepted writes all four keys
    or none. *)
Lemma mirrored_save (state : State) :
  keeps (λ w, mirrored (w_kv w) ∧ componentsAccepted (w_kv w)) (saveState state).
Proof.
  intros w [Hw (H1 & H2 & H3)]. unfold saveState.
  destruct (shouldUseKV (w_env w)).
  - destruct w as [env files [reach refused full k1 k2 k3] d started].
    simpl in *. unfold saveStateKV, catch, bind, kvSet, kvAccepts, throw. cbn.
    destruct reach; cbn; [|done].
    destruct (refused state_full); cbn; [done|].
    rewrite H1. cbn. rewrite H2. cbn. rewrite H3. cbn.
    split; [|done]. by intros s [= <-].
  - unfold saveStateLocal, bind, ensureStateDir.
    destruct (STATE_DIR (w_files w)), (writable (w_files w)); by simpl.
Qed.

(** A [saveState] that resolves has written all four keys. *)
Lemma mirrored_saved (state : State) (w : World) :
  mirrored (w_kv w) →
  (saveState state w).1 = Js.Ok () →
  mirrored (w_kv (saveState state w).2).
Proof.
  intros Hw. unfold saveState.
  destruct (shouldUseKV (w_env w)).
  - destruct w as [env files [reach refused full k1 k2 k3] d started].
    simpl in *. unfold saveStateKV, catch, bind, kvSet, kvAccepts, throw. cbn.
    destruct reach; cbn; [|done].
    destruct (refused state_full); cbn; [done|].
    destruct (refused state_lastProcessed); cbn; [done|].
    destruct (refused state_failedQueue); cbn; [done|].
    destruct (refused state_stats); cbn; [done|].
    intros _ s [= <-]. done.
  - unfold saveStateLocal, bind, ensureStateDir.
    destruct (STATE_DIR (w_files w)), (writable (w_files w)); by simpl.
Qed.

(** X19: the component keys of the store mirror the full state as long
    as every [kv.set] of a [saveState] is accepted. If
    [state:lastProcessed], [state:failedQueue] and [state:stats] hold the
    fields of the document under [state:full], they do so after a
    [saveState] that resolves, and after a run of the logging handler or
    of the retry handler on a store that rejects no [kv.set] of a
    component key. A [saveState] whose [kv.set] of [state:full] is accepted
    and whose [kv.set] of [state:lastProcessed] is rejected rejects, yet
    [loadState] shows the new state afterwards, and the component keys no
    longer mirror it when its marker differs from the one before. *)
Theorem kv_components_mirror_full_state (DateParse : string → Js.num)
    (logging : LogSpotify.Inputs) (retry : RetryFailed.Inputs) (w : World) :
  mirrored (w_kv w) →
  (∀ state, (saveState state w).1 = Js.Ok () →
     mirrored (w_kv (saveState state w).2))
  ∧ (componentsAccepted (w_kv w) →
     mirrored (w_kv (LogSpotify.handler DateParse logging w).2)
     ∧ mirrored (w_kv (RetryFailed.handler DateParse retry w).2))
  ∧ (∀ state previous,
       shouldUseKV (w_env w) = true →
       kvAccepts (w_kv w) state_full = true →
       kvAccepts (w_kv w) state_lastProcessed = false →
       KV_STATE_KEY (w_kv w) = Some previous →
       lastProcessed state ≠ lastProcessed previous →
       (saveState state w).1 = Js.Throw "Failed to save state to KV"
       ∧ view (saveState state w).2 = Js.Ok state
       ∧ ¬ mirrored (w_kv (saveState state w).2)).
Proof.
  intros Hw. split; [|split].
  - intros state. by apply mirrored_saved.
  - intros Hcomponents.
    set (I := λ w0, mirrored (w_kv w0) ∧ componentsAccepted (w_kv w0)).
    assert (Hmutate : ∀ state f, True → keeps I (mutateInPlace state f)).
    { intros state f _.
      apply (mutateInPlace_storage (λ _ _ kv, mirrored kv ∧ componentsAccepted kv)). }
    assert (Hflag : ∀ b, keeps I (λ w0, (Js.Ok (), set_executionStarted b w0)))
      by (by intros b w0 Hw0).
    assert (Hload : hoare I loadState (λ r w0, I w0 ∧ ∀ state, r = Js.Ok state → True)).
    { apply (mirrored_load (λ kv, mirrored kv ∧ componentsAccepted kv)). }
    split.
    + by apply (inv_log_handler I (λ _, True) Hload mirrored_save
                  Hmutate Hflag DateParse logging w).
    + by apply (inv_retry_handler I (λ _, True) Hload mirrored_save
                  Hmutate DateParse retry w).
  - intros state previous Hkv Hfull Hmarker Hprevious Hdiffers.
    destruct (Hw previous Hprevious) as (Hcomponent & _).
    unfold view, source, saveState. rewrite Hkv.
    destruct w as [env files [reach refused full k1 k2 k3] d started].
    simpl in *. unfold saveStateKV, catch, bind, kvSet, kvAccepts, throw in *.
    cbn in *. rewrite ?Hkv.
    destruct reach; [|done]. cbn in *.
    destruct (refused state_full); [done|]. cbn in *.
    destruct (refused state_lastProcessed); [|done]. cbn. rewrite Hkv.
    split; [done|]. split; [done|].
    intros Hmirrored. destruct (Hmirrored state eq_refl) as (Hstale & _).
    simpl in Hstale. congruence.
Qed.

(** *** The default object *)

Lemma documentWithDefault_load (d : State) :
  hoare (documentWithDefault d) loadState
    (λ r w, documentWithDefault d w
            ∧ ∀ state, r = Js.Ok state → sharesDefault state = false).
Proof.
  intros w [Hdef [s Hsrc]].
  destruct (loadState_run w) as (w' & Hw' & Hsrc' & _ & _ & _ & Hdef' & _ & Hres).
  rewrite Hw', Hres, Hsrc. split.
  - split; [congruence|]. exists s. congruence.
  - by intros state [= <-].
Qed.

Lemma documentWithDefault_save (d : State) (state : State) :
  keeps (documentWithDefault d) (saveState state).
Proof.
  intros w [Hdef [s Hsrc]].
  destruct (saveState_run state w) as (w' & Hw' & _ & Hdef' & _ & _ & Hcase).
  rewrite Hw'. split; [congruence|].
  destruct (accepts w).
  - destruct Hcase as [_ ->]. by eexists.
  - destruct Hcase as (_ & [[-> _]| ->]); [by exists s|by eexists].
Qed.

Lemma documentWithDefault_mutate (d : State) (state : Loaded) (f : State → State) :
  sharesDefault state = false →
  keeps (documentWithDefault d) (mutateInPlace state f).
Proof. intros Hstate w Hw. unfold mutateInPlace. simpl. by rewrite Hstate. Qed.

(** X20: while a state document can be read, no run mutates
    [DEFAULT_STATE]: after a run of the logging handler or of the retry
    handler that started with a readable document, [DEFAULT_STATE] has the
    value it had and a document can still be read. *)
Theorem DEFAULT_STATE_untouched_with_document (DateParse : string → Js.num)
    (logging : LogSpotify.Inputs) (retry : RetryFailed.Inputs) (w : World)
    (s : State) :
  source w = FromDoc s →
  documentWithDefault (w_DEFAULT_STATE w) (LogSpotify.handler DateParse logging w).2
  ∧ documentWithDefault (w_DEFAULT_STATE w) (RetryFailed.handler DateParse retry w).2.
Proof.
  intros Hsrc.
  assert (Hw : documentWithDefault (w_DEFAULT_STATE w) w) by (split; [done|by exists s]).
  assert (Hflag : ∀ b, keeps (documentWithDefault (w_DEFAULT_STATE w))
                         (λ w0, (Js.Ok (), set_executionStarted b w0)))
    by (by intros b w0 Hw0).
  split.
  - by apply (inv_log_handler _ _ (documentWithDefault_load _)
                (documentWithDefault_save _) (documentWithDefault_mutate _)
                Hflag DateParse logging w).
  - by apply (inv_retry_handler _ _ (documentWithDefault_load _)
                (documentWithDefault_save _) (documentWithDefault_mutate _)
                DateParse retry w).
Qed.

End InvariantProps.

(** ** The retry pass: counters, early answers and the keys of the queue *)

Module RetryPassProps.
Import Model Runtime StateManager View StorageProps HoareProps StateManagerProps.
Import Notions RunProps RetryFailed.

Section WithInputs.
Variable DateParse : string → Js.num.
Variable inp : Inputs.

(** *** The counters *)

Lemma processEntries_tallied (entries : list FailedEntry) (i : nat) (acc : Loop)
    (limit : Z) :
  tallied limit (results acc) →
  Z.of_nat (length (maxedOutEntries acc)) = maxedOut (results acc) →
  let loop := processEntries DateParse inp i entries acc in
  tallied (limit + Z.of_nat (length entries)) (results loop)
  ∧ Z.of_nat (length (maxedOutEntries loop)) = maxedOut (results loop).
Proof.
  revert i acc limit. induction entries as [|entry rest IH]; intros i acc limit.
  - simpl. intros Hacc Hmaxed. split; [|done]. by rewrite Z.add_0_r.
  - intros (Hsum & Hdetails & H1 & H2 & H3 & H4 & Hlimit) Hmaxed.
    cbn [processEntries].
    replace (limit + Z.of_nat (length (entry :: rest)))
      with (limit + 1 + Z.of_nat (length rest)) by (simpl; lia).
    case_bool_decide as Htimeout.
    { simpl. split; [|done]. unfold tallied. repeat split; try done. lia. }
    case_bool_decide as Hmax.
    { apply IH; simpl; [unfold tallied; simpl; repeat split; try done; lia|].
      rewrite length_app. simpl. lia. }
    destruct (isReadyForRetry DateParse (clock inp i) entry); simpl.
    + destruct (rr_success _); apply IH; simpl; try done;
        unfold tallied; simpl; rewrite length_app; simpl; repeat split; lia.
    + apply IH; simpl; [|done]. unfold tallied; simpl. repeat split; try done; lia.
Qed.

Lemma handler_200 (w w' : World) (response : Response) :
  handler DateParse inp w = (Js.Ok response, w') →
  statusCode response = 200 →
  (responseStats response = emptyResults ∧ maxedOutTracks response = [])
  ∨ ∃ queue,
      responseStats response
      = results (processEntries DateParse inp 0 (take MAX_ENTRIES_PER_RUN queue) emptyLoop)
      ∧ maxedOutTracks response
        = fe_trackId <$> maxedOutEntries
                           (processEntries DateParse inp 0
                              (take MAX_ENTRIES_PER_RUN queue) emptyLoop).
Proof.
  intros Hrun Hcode. unfold handler in Hrun.
  apply catch_Ok in Hrun as [Hrun|(message & w1 & _ & Hcaught)].
  - apply bind_Ok in Hrun as (queue & w1 & _ & Hrun).
    case_bool_decide.
    { injection Hrun as <- _. by left. }
    apply bind_Ok in Hrun as (sheetRows & w2 & _ & Hrun).
    apply bind_Ok in Hrun as (state & w3 & _ & Hrun).
    apply bind_Ok in Hrun as ([] & w4 & _ & Hrun).
    apply bind_Ok in Hrun as ([] & w5 & _ & Hrun).
    apply bind_Ok in Hrun as ([] & w6 & _ & Hrun).
    apply bind_Ok in Hrun as ([] & w7 & _ & Hrun).
    injection Hrun as <- _. right. by exists queue.
  - injection Hcaught as <- _. by left.
Qed.

(** X21: in every 200 response of the retry handler the counters add
    up: [processed] is [succeeded] plus [failed] and the number of
    [details]; [maxedOut] is the number of [maxedOutTracks]; no counter
    is negative; and [processed], [skipped] and [maxedOut] together count
    at most 50 entries. *)
Theorem retry_counters_add_up (w : World) (response : Response) :
  (handler DateParse inp w).1 = Js.Ok response →
  statusCode response = 200 →
  tallied (Z.of_nat MAX_ENTRIES_PER_RUN) (responseStats response)
  ∧ Z.of_nat (length (maxedOutTracks response)) = maxedOut (responseStats response).
Proof.
  intros Hrun Hcode.
  destruct (handler DateParse inp w) as [r w'] eqn:Hhandler. simpl in Hrun. subst r.
  destruct (handler_200 w w' response Hhandler Hcode)
    as [[-> ->]|(queue & -> & ->)].
  - unfold tallied, MAX_ENTRIES_PER_RUN. simpl. repeat split; lia.
  - destruct (processEntries_tallied (take MAX_ENTRIES_PER_RUN queue) 0 emptyLoop 0)
      as [(Hsum & Hdetails & H1 & H2 & H3 & H4 & Hlimit) Hmaxed].
    + unfold tallied. simpl. repeat split; lia.
    + done.
    + rewrite length_fmap. split; [|done].
      unfold tallied. repeat split; try done.
      rewrite length_take in Hlimit. lia.
Qed.

(** *** The passes that write nothing *)

(** X22: the retry passes that write nothing. With an empty queue the
    handler answers 200 "No failed entries to process"; with a queue that
    is not empty and a sheet that cannot be read it answers 500 with the
    error of the read. In both cases the stored documents and what
    [loadState] shows are as before the pass. *)
Theorem retry_pass_without_write (w : World) (s : State) :
  view w = Js.Ok s →
  (failedQueue s = [] →
     (handler DateParse inp w).1
     = Js.Ok {| statusCode := 200; message := "No failed entries to process";
                responseStats := emptyResults; maxedOutTracks := [] |}
     ∧ stored (handler DateParse inp w).2 = stored w
     ∧ view (handler DateParse inp w).2 = Js.Ok s)
  ∧ (∀ thrown, failedQueue s ≠ [] → listeningLog inp = Js.Throw thrown →
       (handler DateParse inp w).1
       = Js.Ok {| statusCode := 500; message := thrown;
                  responseStats := emptyResults; maxedOutTracks := [] |}
       ∧ stored (handler DateParse inp w).2 = stored w
       ∧ view (handler DateParse inp w).2 = Js.Ok s).
Proof.
  intros Hview.
  destruct (ClearProps.loadState_view w s Hview)
    as (shared & w1 & Hload & Hsrc & Hst & _ & Hdef).
  assert (Hview1 : view w1 = Js.Ok s).
  { unfold view in *. by rewrite Hsrc, Hdef. }
  unfold handler, catch, getFailedQueue, bind. rewrite Hload. simpl.
  split.
  - intros ->. simpl. by repeat split.
  - intros thrown Hqueue Hsheet.
    rewrite bool_decide_eq_false_2 by (by destruct (failedQueue s)).
    unfold lift. rewrite Hsheet. simpl. by repeat split.
Qed.

(** *** The keys of the queue *)

Lemma applyUpdate_keys (queue : list FailedEntry) (updatedEntry : FailedEntry) :
  entryKey <$> applyUpdate queue updatedEntry = entryKey <$> queue.
Proof.
  unfold applyUpdate.
  destruct (list_find _ queue) as [[index found]|] eqn:Hfound; [|done].
  apply list_find_Some in Hfound as (Hlookup & [Hid Hat] & _).
  rewrite list_fmap_insert. apply list_insert_id.
  rewrite list_lookup_fmap, Hlookup. simpl. unfold entryKey. by rewrite Hid, Hat.
Qed.

Lemma applyUpdates_keys (updates queue : list FailedEntry) :
  entryKey <$> foldl applyUpdate queue updates = entryKey <$> queue.
Proof.
  revert queue. induction updates as [|u updates IH]; intros queue; [done|].
  simpl. by rewrite IH, applyUpdate_keys.
Qed.

Lemma dropEntries_sublist (dropped queue : list FailedEntry) :
  foldl dropEntry queue dropped `sublist_of` queue.
Proof.
  revert queue. induction dropped as [|d dropped IH]; intros queue; [done|].
  simpl. etrans; [apply IH|]. apply sublist_filter.
Qed.

Lemma handler_keeps_keysWithin (keys : list (string * string)) :
  keeps (shows (keysWithin keys)) (handler DateParse inp).
Proof.
  set (Q := keysWithin keys).
  assert (Hsep : separable Q) by (by intros a d Ha _).
  unfold handler. apply keeps_catch; [|intros errorMessage; apply keeps_ret].
  apply keeps_bind.
  { intros w Hw. by apply (getFailedQueue_shows Q w Hw). }
  intros queue. apply keeps_if; [apply keeps_ret|].
  apply keeps_bind; [apply keeps_lift|intros sheetRows].
  apply keeps_after_load. intros state _.
  apply keeps_bind; [|intros _].
  { apply keeps_forEach. intros key _. apply clearFromFailedQueue_shows.
    intros s Hs. unfold Q, keysWithin in *. simpl.
    etrans; [|exact Hs]. apply fmap_sublist, sublist_filter. }
  apply keeps_bind; [|intros _].
  { apply keeps_if; [|apply keeps_ret].
    apply (modifyInPlace_shows Q
             (λ s, set_failedQueue
                     (foldl applyUpdate (failedQueue s)
                        (entriesToUpdate
                           (processEntries DateParse inp 0
                              (take MAX_ENTRIES_PER_RUN queue) emptyLoop))) s));
      [done|].
    intros s Hs. unfold Q, keysWithin in *. simpl. by rewrite applyUpdates_keys. }
  apply keeps_bind; [|intros _].
  { apply keeps_if; [|apply keeps_ret].
    apply (modifyCopy_shows Q
             (λ s, set_failedQueue
                     (foldl dropEntry (failedQueue s)
                        (maxedOutEntries
                           (processEntries DateParse inp 0
                              (take MAX_ENTRIES_PER_RUN queue) emptyLoop))) s)).
    intros s Hs. unfold Q, keysWithin in *. simpl.
    etrans; [|exact Hs]. apply fmap_sublist, dropEntries_sublist. }
  apply keeps_bind; [|intros _; apply keeps_ret].
  by apply updateStats_shows.
Qed.

(** X23: a retry pass adds no entry to the queue and does not reorder
    it: the keys of the queue after the pass are a sublist of the keys
    before it, so the queue is not longer than before and a queue without
    two entries for one play stays so. *)
Theorem retry_pass_adds_no_entry (w : World) (s : State) :
  view w = Js.Ok s →
  ∃ s', view (handler DateParse inp w).2 = Js.Ok s'
        ∧ (entryKey <$> failedQueue s') `sublist_of` (entryKey <$> failedQueue s)
        ∧ (length (failedQueue s') ≤ length (failedQueue s))%nat
        ∧ (uniqueKeys s → uniqueKeys s').
Proof.
  intros Hview.
  destruct (handler_keeps_keysWithin (entryKey <$> failedQueue s) w)
    as (s' & Hview' & Hkeys); [exists s; split; [done|unfold keysWithin; reflexivity]|].
  unfold keysWithin in Hkeys.
  exists s'. split; [done|]. split; [done|]. split.
  - apply sublist_length in Hkeys. by rewrite !length_fmap in Hkeys.
  - intros Hunique. by eapply sublist_NoDup.
Qed.

End WithInputs.
End RetryPassProps.

(** ** The attempt count: what bounds it and what does not *)

Module AttemptLimitProps.
Import Model Runtime StateManager View Notions StorageProps HoareProps.
Import RunProps AcceptedProps RetryProps RetryFailed.

Section WithInputs.
Variable DateParse : string → Js.num.
Variable inp : Inputs.




End WithInputs.

End AttemptLimitProps.

(** ** The logging run: enrichment, early answers and what a completed run persists *)

Module LoggingRunProps.
Import Model Runtime StateManager Telemetry View StorageProps HoareProps.
Import StateManagerProps AcceptedProps Notions RunProps LogSpotify.

Section WithInputs.
Variable DateParse : string → Js.num.
Variable inp : Inputs.

(** *** The enrichment loop *)

Lemma enrichTracks_counts (uniqueTracks : list PlayItem) (i : nat)
    (acc enriched : Enrichment) :
  enrichTracks DateParse inp i uniqueTracks acc = Js.Ok enriched →
  ft_trackId <$> formattedTracks enriched
  = (ft_trackId <$> formattedTracks acc) ++ ((λ item, (playKey item).1) <$> uniqueTracks)
  ∧ successes enriched + failures enriched
    = successes acc + failures acc + Z.of_nat (length uniqueTracks)
  ∧ successes acc ≤ successes enriched
  ∧ Z.of_nat (length (failedTracks enriched)) - failures enriched
    = Z.of_nat (length (failedTracks acc)) - failures acc
  ∧ Z.of_nat (length (filter (λ t, ft_status t = "ERROR") (formattedTracks enriched)))
    - failures enriched
    = Z.of_nat (length (filter (λ t, ft_status t = "ERROR") (formattedTracks acc)))
      - failures acc
  ∧ ∃ failed, failedTracks enriched = failedTracks acc ++ failed
              ∧ failed.*1 `sublist_of` uniqueTracks.
Proof.
  revert i acc. induction uniqueTracks as [|item rest IH]; intros i acc; simpl.
  - intros [= <-]. rewrite app_nil_r. repeat split; try lia.
    exists []. by rewrite app_nil_r.
  - destruct (enrichment inp i item) as [errorMessage|].
    + destruct (createErrorPlaceholder DateParse inp item errorMessage)
        as [errorPlaceholder|thrown] eqn:Hplaceholder; [|done].
      intros (Hids & Hsum & Hle & Hfailed & Herrors & failed & Hlist & Hsub)%IH.
      simpl in *.
      assert (Hshape : ft_trackId errorPlaceholder = (playKey item).1
                       ∧ ft_status errorPlaceholder = "ERROR").
      { unfold createErrorPlaceholder in Hplaceholder.
        destruct (Js.truthy (played_at item));
          [destruct (DateParse (played_at item))|]; by simplify_eq. }
      destruct Hshape as [Hid Hstatus].
      rewrite fmap_app, <- app_assoc in Hids. simpl in Hids. rewrite Hid in Hids.
      rewrite filter_app, filter_cons, decide_True, length_app in Herrors by done.
      rewrite !length_app in Hfailed. simpl in *.
      repeat split; try lia; try done.
      exists ((item, errorMessage) :: failed).
      rewrite Hlist, <- app_assoc. split; [done|]. simpl. by constructor.
    + intros (Hids & Hsum & Hle & Hfailed & Herrors & failed & Hlist & Hsub)%IH.
      simpl in *.
      rewrite fmap_app, <- app_assoc in Hids. simpl in Hids.
      rewrite filter_app, filter_cons, decide_False, filter_nil, app_nil_r in Herrors
        by done.
      repeat split; try lia; try done.
      exists failed. split; [done|]. by constructor.
Qed.

(** X24: when the enrichment loop completes it has built one formatted
    track per unique track, in the order of the unique tracks and with
    their track ids; [successes] and [failures] add up to the number of
    unique tracks; and the tracks with status ["ERROR"], the entries of
    [failedTracks] and [failures] are equally many, every failed track
    being one of the unique tracks. *)
Theorem enrichTracks_one_row_per_track (uniqueTracks : list PlayItem)
    (enriched : Enrichment) :
  enrichTracks DateParse inp 0 uniqueTracks emptyEnrichment = Js.Ok enriched →
  ft_trackId <$> formattedTracks enriched = (λ item, (playKey item).1) <$> uniqueTracks
  ∧ successes enriched + failures enriched = Z.of_nat (length uniqueTracks)
  ∧ 0 ≤ successes enriched
  ∧ Z.of_nat (length (failedTracks enriched)) = failures enriched
  ∧ Z.of_nat (length (filter (λ t, ft_status t = "ERROR") (formattedTracks enriched)))
    = failures enriched
  ∧ (failedTracks enriched).*1 `sublist_of` uniqueTracks.
Proof.
  intros (Hids & Hsum & Hle & Hfailed & Herrors & failed & Hlist & Hsub)%enrichTracks_counts.
  simpl in *. subst. repeat split; try done; lia.
Qed.

(** *** The runs that leave early *)

Lemma commit_Ok (uniqueTracks : list PlayItem) (enriched : Enrichment)
    (w w' : World) (response : Response) :
  commit DateParse inp uniqueTracks enriched w = (Js.Ok response, w') →
  response = respond 200 "Logging complete" (successes enriched) (failures enriched).
Proof.
  unfold commit. intros Hrun.
  apply bind_Ok in Hrun as ([] & w1 & _ & Hrun).
  apply bind_Ok in Hrun as ([] & w2 & _ & Hrun).
  apply bind_Ok in Hrun as ([] & w3 & _ & Hrun).
  apply bind_Ok in Hrun as ([] & w4 & _ & Hrun).
  apply bind_Ok in Hrun as ([] & w5 & _ & Hrun).
  apply bind_Ok in Hrun as ([] & w6 & _ & Hrun).
  apply bind_Ok in Hrun as ([] & w7 & _ & Hrun).
  by injection Hrun as <- _.
Qed.

(** What a run that resolves went through. *)
Lemma run_Ok (w w' : World) (s : State) (response : Response) :
  view w = Js.Ok s →
  run DateParse inp w = (Js.Ok response, w') →
  (message response ≠ "Logging complete"
   ∧ stored w' = stored w ∧ view w' = Js.Ok s
   ∧ w_executionStarted w' = w_executionStarted w)
  ∨ ∃ tracks sheetRows enriched w0,
      recentlyPlayed inp = Js.Ok tracks
      ∧ listeningLog inp = Js.Ok sheetRows
      ∧ uniqueTracksOf DateParse tracks sheetRows s ≠ []
      ∧ enrichTracks DateParse inp 0 (uniqueTracksOf DateParse tracks sheetRows s)
          emptyEnrichment = Js.Ok enriched
      ∧ view w0 = Js.Ok s ∧ accepts w0 = accepts w
      ∧ w_executionStarted w0 = w_executionStarted w
      ∧ commit DateParse inp (uniqueTracksOf DateParse tracks sheetRows s) enriched w0
        = (Js.Ok response, w').
Proof.
  intros Hview Hrun. unfold run in Hrun.
  destruct (ClearProps.loadState_view w s Hview)
    as (shared & w1 & Hload & Hsrc & Hst & Hacc & Hdef).
  assert (Hview1 : view w1 = Js.Ok s).
  { unfold view in *. by rewrite Hsrc, Hdef. }
  assert (Hflag1 : w_executionStarted w1 = w_executionStarted w).
  { destruct (loadState_run w) as (w1' & Hw1' & _ & _ & _ & _ & _ & Hflag & _).
    rewrite Hload in Hw1'. simpl in Hw1'. by subst. }
  destruct (ClearProps.loadState_view w1 s Hview1)
    as (shared2 & w2 & Hload2 & Hsrc2 & Hst2 & Hacc2 & Hdef2).
  assert (Hview2 : view w2 = Js.Ok s).
  { unfold view in *. by rewrite Hsrc2, Hdef2. }
  assert (Hflag2 : w_executionStarted w2 = w_executionStarted w).
  { destruct (loadState_run w1) as (w2' & Hw2' & _ & _ & _ & _ & _ & Hflag & _).
    rewrite Hload2 in Hw2'. simpl in Hw2'. subst. congruence. }
  unfold bind at 1 in Hrun. rewrite Hload in Hrun.
  unfold getStats, bind at 1 in Hrun. unfold bind at 1 in Hrun.
  rewrite Hload2 in Hrun. simpl in Hrun.
  unfold bind at 1, lift in Hrun.
  destruct (recentlyPlayed inp) as [tracks|thrown] eqn:Htracks; [|done].
  assert (Hearly : ∀ text, text ≠ "Logging complete" →
            (Js.Ok (respond 200 text 0 0), w2) = (Js.Ok response, w') →
            message response ≠ "Logging complete"
            ∧ stored w' = stored w ∧ view w' = Js.Ok s
            ∧ w_executionStarted w' = w_executionStarted w).
  { intros text Htext [= <- <-]. repeat split; try done. congruence. }
  case_bool_decide; [left; by apply (Hearly "No recent tracks to process")|].
  case_bool_decide; [left; by apply (Hearly "No new plays to log")|].
  unfold bind at 1 in Hrun.
  destruct (listeningLog inp) as [sheetRows|thrown] eqn:Hrows; [|done].
  case_bool_decide as Hunique; [left; by apply (Hearly "All tracks already logged")|].
  unfold bind at 1 in Hrun.
  destruct (enrichTracks _ _ _ _ _) as [enriched|thrown] eqn:Henriched; [|done].
  right. exists tracks, sheetRows, enriched, w2.
  repeat split; try done; try congruence.
  intros Hnil. apply Hunique. unfold uniqueTracksOf in Hnil. by rewrite Hnil.
Qed.

(** X25: a run of the logging handler that answers 200 with another
    message than "Logging complete" (no recent tracks, no new plays, or
    all tracks already in the sheet) has written nothing: the stored
    documents and what [loadState] shows are as before the run. The
    execution metrics it started are still open. *)
Theorem logging_early_exit_writes_nothing (w : World) (s : State)
    (response : Response) :
  view w = Js.Ok s →
  (handler DateParse inp w).1 = Js.Ok response →
  statusCode response = 200 →
  message response ≠ "Logging complete" →
  stored (handler DateParse inp w).2 = stored w
  ∧ view (handler DateParse inp w).2 = Js.Ok s
  ∧ w_executionStarted (handler DateParse inp w).2 = true.
Proof.
  intros Hview Hrun Hcode Hmessage.
  destruct (handler DateParse inp w) as [r w'] eqn:Hhandler. simpl in *. subst r.
  unfold handler, bind, startExecution in Hhandler.
  apply catch_Ok in Hhandler as [Hok|(thrown & w1 & _ & Hcaught)].
  - apply run_Ok with (s := s) in Hok as
        [(_ & Hstored & Hview' & Hflag)
        |(tracks & sheetRows & enriched & w0 & _ & _ & _ & _ & _ & _ & _ & Hcommit)];
      [done| |done].
    apply commit_Ok in Hcommit. by subst response.
  - apply bind_Ok in Hcaught as ([] & w2 & _ & Hcaught).
    apply bind_Ok in Hcaught as ([] & w3 & _ & Hcaught).
    injection Hcaught as <- _. done.
Qed.


(** *** A run on a storage that accepts writes *)

(** The marker and the counters after steps 8 to 10. *)
Lemma commit_accepting (s : State) (uniqueTracks : list PlayItem)
    (enriched : Enrichment) :
  hoare (holds s) (commit DateParse inp uniqueTracks enriched)
    (λ r w, ∀ response, r = Js.Ok response →
       ∃ s', view w = Js.Ok s'
             ∧ lastProcessed s'
               = match PlayFilter.getMostRecentTrack DateParse uniqueTracks with
                 | Some mostRecent =>
                     Some (PlayFilter.createLastProcessedState mostRecent (now inp))
                 | None => lastProcessed s
                 end
             ∧ stats s'
               = {| lastRun := Some (now inp);
                    successCount := successCount (stats s) + successes enriched;
                    failureCount := failureCount (stats s) + failures enriched |}).
Proof.
  set (marker := match PlayFilter.getMostRecentTrack DateParse uniqueTracks with
                 | Some mostRecent =>
                     Some (PlayFilter.createLastProcessedState mostRecent (now inp))
                 | None => lastProcessed s
                 end).
  set (Φ1 := λ s' : State, lastProcessed s' = marker ∧ stats s' = stats s).
  set (Φ2 := λ s' : State,
         lastProcessed s' = marker
         ∧ stats s' = {| lastRun := Some (now inp);
                         successCount := successCount (stats s) + successes enriched;
                         failureCount := failureCount (stats s) + failures enriched |}).
  assert (Hstart : ∀ w, holds s w → accepting (eq s) w).
  { intros w [Hview Hacc]. split; [done|]. by exists s. }
  unfold commit.
  eapply hoare_bind with (Q := λ _, holds s);
    [by intros w Hw|intros []|by intros ?? _ ? [=]].
  eapply hoare_bind with (Q := λ r w, r = Js.Ok () ∧ accepting Φ1 w);
    [|intros []|by intros ?? [? _]].
  { unfold marker, Φ1.
    destruct (PlayFilter.getMostRecentTrack DateParse uniqueTracks) as [mostRecent|].
    - eapply hoare_weaken;
        [apply (modifyCopy_accepting (eq s) Φ1
                  (set_lastProcessed
                     (Some (PlayFilter.createLastProcessedState mostRecent (now inp)))))
        |exact Hstart|done].
      by intros ? <-.
    - intros w Hw. split; [done|]. apply (accepting_weaken (eq s)); [|by apply Hstart].
      by intros ? <-. }
  eapply hoare_bind with (Q := λ r w, r = Js.Ok () ∧ accepting Φ1 w);
    [|intros []|by intros ?? [? _]].
  { eapply hoare_weaken; [apply (forEach_accepting Φ1)|by intros ? [_ ?]|done].
    intros failed. by apply addToFailedQueue_accepting. }
  eapply hoare_bind with (Q := λ r w, r = Js.Ok () ∧ accepting Φ2 w);
    [|intros []|by intros ?? [? _]].
  { eapply hoare_weaken;
      [apply (modifyInPlace_accepting Φ1 Φ2
                (λ s0, set_stats
                         {| lastRun := Some (now inp);
                            successCount := successCount (stats s0) + successes enriched;
                            failureCount := failureCount (stats s0) + failures enriched |}
                         s0))
      |by intros ? [_ ?]|done].
    intros s0 [Hmarker Hstats]. split; [done|]. simpl. by rewrite Hstats. }
  eapply hoare_bind with (Q := λ r w, r = Js.Ok () ∧ accepting Φ2 w);
    [|intros []|by intros ?? [? _]].
  { eapply hoare_weaken; [by apply (endExecution_accepting Φ2)|by intros ? [_ ?]|done]. }
  eapply hoare_bind with (Q := λ r w, r = Js.Ok () ∧ accepting Φ2 w);
    [|intros []|by intros ?? [? _]].
  { eapply hoare_weaken; [by apply (checkAlertThresholds_accepting Φ2)|by intros ? [_ ?]|done]. }
  eapply hoare_bind with (Q := λ r w, r = Js.Ok () ∧ accepting Φ2 w);
    [|intros []|by intros ?? [? _]].
  { eapply hoare_weaken; [by apply (trackSuccessfulRun_accepting Φ2)|by intros ? [_ ?]|done]. }
  intros w [_ [_ (s' & Hview' & Hmarker & Hstats)]] response _. by exists s'.
Qed.



(** X26: what a completed run persists. When the storage accepts writes
    and the logging handler answers 200 "Logging complete", the marker
    [loadState] shows afterwards is the one [createLastProcessedState]
    builds for the most recent of the unique tracks, the counters are the
    ones before the run plus the [logged] and [failed] of the response,
    [lastRun] is the time of the run, and [logged] plus [failed] is the
    number of unique tracks. *)
Theorem logging_completed_run (w : World) (s : State) (response : Response) :
  accepts w = true →
  view w = Js.Ok s →
  (handler DateParse inp w).1 = Js.Ok response →
  statusCode response = 200 →
  message response = "Logging complete" →
  ∃ s' tracks sheetRows mostRecent,
    recentlyPlayed inp = Js.Ok tracks
    ∧ listeningLog inp = Js.Ok sheetRows
    ∧ PlayFilter.getMostRecentTrack DateParse (uniqueTracksOf DateParse tracks sheetRows s)
      = Some mostRecent
    ∧ view (handler DateParse inp w).2 = Js.Ok s'
    ∧ lastProcessed s'
      = Some (PlayFilter.createLastProcessedState mostRecent (now inp))
    ∧ stats s'
      = {| lastRun := Some (now inp);
           successCount := successCount (stats s) + logged response;
           failureCount := failureCount (stats s) + failedCount response |}
    ∧ logged response + failedCount response
      = Z.of_nat (length (uniqueTracksOf DateParse tracks sheetRows s)).
Proof.
  intros Hacc Hview Hrun Hcode Hmessage.
  destruct (handler DateParse inp w) as [r w'] eqn:Hhandler. simpl in *. subst r.
  unfold handler, bind, startExecution in Hhandler.
  apply catch_Ok in Hhandler as [Hok|(thrown & w1 & _ & Hcaught)].
  - apply run_Ok with (s := s) in Hok as
        [(Hother & _)
        |(tracks & sheetRows & enriched & w0 & Htracks & Hrows & Hunique & Henriched
          & Hview0 & Hacc0 & _ & Hcommit)];
      [done| |done].
    pose proof (commit_Ok _ _ _ _ _ Hcommit) as ->.
    pose proof (commit_accepting s (uniqueTracksOf DateParse tracks sheetRows s)
                  enriched w0) as Hspec.
    rewrite Hcommit in Hspec. simpl in Hspec.
    destruct Hspec with (response := respond 200 "Logging complete" (successes enriched)
                                       (failures enriched))
      as (s' & Hview' & Hmarker & Hstats); [|done|].
    { split; [done|]. by rewrite Hacc0. }
    destruct (PlayFilter.getMostRecentTrack DateParse
                (uniqueTracksOf DateParse tracks sheetRows s)) as [mostRecent|] eqn:Hrecent.
    + exists s', tracks, sheetRows, mostRecent. repeat split; try done.
      simpl. apply enrichTracks_counts in Henriched as (_ & Hsum & _).
      simpl in Hsum. lia.
    + by destruct (uniqueTracksOf DateParse tracks sheetRows s).
  - apply bind_Ok in Hcaught as ([] & w2 & _ & Hcaught).
    apply bind_Ok in Hcaught as ([] & w3 & _ & Hcaught).
    injection Hcaught as <- _. done.
Qed.

(** *** Invariants of the state across a run *)

Section Shows.
Variable Q : State → Prop.
Hypothesis Q_separable : separable Q.
Hypothesis Q_marker : ∀ s m, Q s → Q (set_lastProcessed m s).
Hypothesis Q_stats : ∀ s st, Q s → Q (set_stats st s).
Hypothesis Q_metrics : ∀ s v, Q s → Q (set_metrics v s).
Hypothesis Q_alerts : ∀ s v, Q s → Q (set_alerts v s).
Hypothesis Q_queued :
  ∀ item error nowIso, keeps (shows Q) (addToFailedQueue item error nowIso).

Lemma handler_keeps_shows : keeps (shows Q) (handler DateParse inp).
Proof.
  unfold handler.
  apply keeps_bind; [apply set_executionStarted_shows|]. intros _.
  apply keeps_catch.
  - unfold run. apply keeps_after_load. intros state _.
    apply keeps_bind; [apply getStats_shows|]. intros _.
    apply keeps_bind; [apply keeps_lift|]. intros tracks.
    apply keeps_if; [apply keeps_ret|].
    apply keeps_if; [apply keeps_ret|].
    apply keeps_bind; [apply keeps_lift|]. intros sheetRows.
    apply keeps_if; [apply keeps_ret|].
    apply keeps_bind; [apply keeps_lift|]. intros enriched.
    unfold commit.
    apply keeps_bind; [apply keeps_lift|]. intros _.
    apply keeps_bind; [|intros _].
    { destruct (PlayFilter.getMostRecentTrack _ _); [|apply keeps_ret].
      apply updateLastProcessed_shows. intros s. apply Q_marker. }
    apply keeps_bind; [|intros _].
    { apply keeps_forEach. intros failed _. apply Q_queued. }
    apply keeps_bind; [by apply updateStats_shows|]. intros _.
    apply keeps_bind; [by apply endExecution_shows|]. intros _.
    apply keeps_bind; [by apply checkAlertThresholds_shows|]. intros _.
    apply keeps_bind; [by apply trackSuccessfulRun_shows|]. intros _.
    apply keeps_ret.
  - intros errorMessage.
    apply keeps_bind; [by apply endExecution_shows|]. intros _.
    apply keeps_bind; [by apply trackFailedRun_shows|]. intros _.
    apply keeps_ret.
Qed.

End Shows.

End WithInputs.

Lemma addToFailedQueue_keeps_uniqueKeys (item : PlayItem) (error now : string) :
  keeps (shows uniqueKeys) (addToFailedQueue item error now).
Proof.
  unfold addToFailedQueue. apply keeps_after_load. intros state Hstate.
  destruct (list_find _ _) as [[existingIndex existing]|] eqn:Hfound.
  - apply list_find_Some in Hfound as (Hlookup & [Hid Hat] & _).
    match goal with
    | |- keeps _ (await state0 := mutateInPlace _ (set_failedQueue ?q) in _) =>
        remember q as queue' eqn:Hqueue'
    end.
    assert (Hkeys : entryKey <$> queue' = entryKey <$> failedQueue (value state)).
    { subst queue'. rewrite list_fmap_insert. apply list_insert_id.
      by rewrite list_lookup_fmap, Hlookup. }
    eapply hoare_bind; [apply (mutateInPlace_shows uniqueKeys state)| |].
    + intros d _. unfold uniqueKeys. simpl. by rewrite Hkeys.
    + intros state' w [Hw [= ->]]. simpl. revert w Hw.
      apply saveState_shows. unfold uniqueKeys. simpl. by rewrite Hkeys.
    + by intros message w [Hw _].
  - apply list_find_None in Hfound.
    match goal with
    | |- keeps _ (await state0 := mutateInPlace _ (set_failedQueue ?q) in _) =>
        remember q as queue' eqn:Hqueue'
    end.
    assert (Hkeys : NoDup (entryKey <$> queue')).
    { subst queue'. rewrite fmap_app. apply NoDup_app. split; [exact Hstate|]. split.
      - intros key Hkey [->|[]%elem_of_nil]%elem_of_cons.
        apply list_elem_of_fmap in Hkey as (e & Hkey & He).
        rewrite Forall_forall in Hfound. apply (Hfound e He).
        unfold entryKey in Hkey. simpl in Hkey. by simplify_eq.
      - simpl. apply NoDup_singleton. }
    eapply hoare_bind; [apply (mutateInPlace_shows uniqueKeys state)| |].
    + by intros d _.
    + intros state' w [Hw [= ->]]. simpl. revert w Hw. by apply saveState_shows.
    + by intros message w [Hw _].
Qed.

End LoggingRunProps.

(** ** The keys of the retry queue *)

Module QueueKeyProps.
Import Model Runtime StateManager View HoareProps Notions.

(** X27: no operation of the pipeline gives the retry queue two entries
    for one play. If the queue [loadState] shows has no two entries with
    the same track id and [playedAt], then neither has the queue it shows
    after [addToFailedQueue], after a run of the logging handler, or
    after a retry pass. *)
Theorem retry_queue_keys_stay_unique (DateParse : string → Js.num)
    (logging : LogSpotify.Inputs) (retry : RetryFailed.Inputs) (w : World)
    (s : State) :
  view w = Js.Ok s →
  uniqueKeys s →
  (∀ item error now,
     ∃ s', view (addToFailedQueue item error now w).2 = Js.Ok s' ∧ uniqueKeys s')
  ∧ (∃ s', view (LogSpotify.handler DateParse logging w).2 = Js.Ok s'
           ∧ uniqueKeys s')
  ∧ (∃ s', view (RetryFailed.handler DateParse retry w).2 = Js.Ok s'
           ∧ uniqueKeys s').
Proof.
  intros Hview Hunique.
  assert (Hw : shows uniqueKeys w) by (by exists s).
  split; [|split].
  - intros item error now.
    by apply (LoggingRunProps.addToFailedQueue_keeps_uniqueKeys item error now w).
  - apply (LoggingRunProps.handler_keeps_shows DateParse logging uniqueKeys);
      try done.
    + by intros a d Ha _.
    + intros item error now. apply LoggingRunProps.addToFailedQueue_keeps_uniqueKeys.
  - destruct (RetryPassProps.handler_keeps_keysWithin DateParse retry
                (entryKey <$> failedQueue s) w) as (s' & Hview' & Hkeys).
    { exists s. split; [done|]. unfold keysWithin. reflexivity. }
    exists s'. split; [done|]. by eapply sublist_NoDup.
Qed.

End QueueKeyProps.

(** ** Strings for the sheet *)

Module DataValidatorProps.
Import DataValidator.

Lemma filter_no_control (value : CodeUnits) :
  existsb isControlCharacter (List.filter (λ c, negb (isControlCharacter c)) value)
  = false.
Proof.
  apply not_true_is_false. intros (c & Hin & Hc)%existsb_exists.
  apply filter_In in Hin as [_ Hnot]. by rewrite Hc in Hnot.
Qed.

Lemma existsb_take {A} (f : A → bool) (n : nat) (l : list A) :
  existsb f l = false → existsb f (take n l) = false.
Proof.
  intros Hl. apply not_true_is_false. intros (c & Hin & Hc)%existsb_exists.
  apply not_true_iff_false in Hl. apply Hl, existsb_exists. exists c.
  split; [|done]. apply list_elem_of_In. apply list_elem_of_In in Hin.
  apply elem_of_take in Hin as (i & Hi & _). by eapply list_elem_of_lookup_2.
Qed.

Lemma filter_clean (value : CodeUnits) :
  existsb isControlCharacter value = false →
  List.filter (λ c, negb (isControlCharacter c)) value = value.
Proof.
  intros Hclean. apply forallb_filter_id, forallb_forall. intros c Hc.
  apply negb_true_iff, not_true_is_false. intros Hcontrol.
  apply not_true_iff_false in Hclean. apply Hclean, existsb_exists. by exists c.
Qed.

Lemma sanitizeString_clean (value : CodeUnits) :
  existsb isControlCharacter (sanitizeString value) = false
  ∧ (length (sanitizeString value) ≤ MAX_STRING_LENGTH)%nat.
Proof.
  unfold sanitizeString. case_bool_decide as Hempty; [subst; split; [done|simpl; lia]|].
  pose proof (filter_no_control value) as Hclean.
  case_bool_decide as Hlong.
  - split.
    + rewrite existsb_app, existsb_take by done. done.
    + rewrite length_app, length_take. unfold MAX_STRING_LENGTH in *.
      change (length [46; 46; 46]%N) with 3%nat. lia.
  - split; [done|lia].
Qed.

(** X28: what [sanitizeString] returns passes [validateString] for every
    field name: it has at most 500 code units and no control character;
    and sanitizing it again changes nothing. *)
Theorem sanitizeString_passes_validateString (value : CodeUnits) (fieldName : string) :
  validateString (sanitizeString value) fieldName = None
  ∧ (length (sanitizeString value) ≤ MAX_STRING_LENGTH)%nat
  ∧ Forall (λ c, isControlCharacter c = false) (sanitizeString value)
  ∧ sanitizeString (sanitizeString value) = sanitizeString value.
Proof.
  destruct (sanitizeString_clean value) as [Hclean Hlength].
  split; [|split; [done|split]].
  - unfold validateString. case_bool_decide; [done|].
    rewrite bool_decide_eq_false_2 by lia. by rewrite Hclean.
  - apply Forall_forall. intros c Hc. apply not_true_is_false. intros Hcontrol.
    apply not_true_iff_false in Hclean. apply Hclean, existsb_exists. exists c.
    split; [by apply list_elem_of_In|done].
  - unfold sanitizeString at 1. case_bool_decide; [done|].
    rewrite filter_clean by done. by rewrite bool_decide_eq_false_2 by lia.
Qed.

End DataValidatorProps.


(** ** Requests to the sheet *)

Module SheetsApiProps.
Import SheetsApi.

Lemma makeSheetsRequest_unfold {A} (requestFn : nat → Outcome A) (retryCount : nat) :
  makeSheetsRequest requestFn retryCount
  = match requestFn retryCount with
    | Resolved a => {| slept := []; outcome := Resolved a |}
    | Rejected error =>
        if isRetryable error && bool_decide (retryCount < MAX_RETRIES)%nat then
          sleepThen (INITIAL_RETRY_DELAY * 2 ^ Z.of_nat retryCount)
            (makeSheetsRequest requestFn (S retryCount))
        else {| slept := []; outcome := Rejected (rethrown error) |}
    end.
Proof.
  unfold makeSheetsRequest.
  destruct (requestFn retryCount) as [a|error] eqn:Hcall.
  - destruct (MAX_RETRIES - retryCount)%nat; cbn [attempt]; by rewrite Hcall.
  - destruct (decide (retryCount < MAX_RETRIES)%nat) as [Hlt|Hge].
    + replace (MAX_RETRIES - retryCount)%nat with (S (MAX_RETRIES - S retryCount))
        by lia.
      cbn [attempt]. by rewrite Hcall.
    + destruct (MAX_RETRIES - retryCount)%nat; cbn [attempt]; rewrite Hcall;
        rewrite bool_decide_eq_false_2 by done; by rewrite andb_false_r.
Qed.

Lemma makeSheetsRequest_trace {A} (requestFn : nat → Outcome A) (budget retryCount : nat) :
  (budget = MAX_RETRIES - retryCount)%nat →
  ∃ n,
    (n ≤ MAX_RETRIES - retryCount)%nat
    ∧ slept (makeSheetsRequest requestFn retryCount)
      = (λ k, INITIAL_RETRY_DELAY * 2 ^ Z.of_nat k) <$> seq retryCount n
    ∧ retried requestFn retryCount n
    ∧ match requestFn (retryCount + n)%nat with
      | Resolved a => outcome (makeSheetsRequest requestFn retryCount) = Resolved a
      | Rejected error =>
          outcome (makeSheetsRequest requestFn retryCount) = Rejected (rethrown error)
          ∧ (isRetryable error = true → (MAX_RETRIES ≤ retryCount + n)%nat)
      end.
Proof.
  assert (Hstop : ∀ retryCount,
            match requestFn retryCount with
            | Resolved _ => True
            | Rejected error =>
                isRetryable error && bool_decide (retryCount < MAX_RETRIES)%nat = false
            end →
            ∃ n,
              (n ≤ MAX_RETRIES - retryCount)%nat
              ∧ slept (makeSheetsRequest requestFn retryCount)
                = (λ k, INITIAL_RETRY_DELAY * 2 ^ Z.of_nat k) <$> seq retryCount n
              ∧ retried requestFn retryCount n
              ∧ match requestFn (retryCount + n)%nat with
                | Resolved a =>
                    outcome (makeSheetsRequest requestFn retryCount) = Resolved a
                | Rejected error =>
                    outcome (makeSheetsRequest requestFn retryCount)
                    = Rejected (rethrown error)
                    ∧ (isRetryable error = true → (MAX_RETRIES ≤ retryCount + n)%nat)
                end).
  { intros count Hcall. exists 0%nat. rewrite makeSheetsRequest_unfold, Nat.add_0_r.
    split; [lia|].
    destruct (requestFn count) as [a|error].
    - repeat split. intros k Hk. lia.
    - rewrite Hcall. repeat split; [intros k Hk; lia|].
      intros Hretry. rewrite Hretry in Hcall. simpl in Hcall.
      apply bool_decide_eq_false in Hcall. lia. }
  revert retryCount. induction budget as [|budget IH]; intros retryCount Hbudget.
  - apply Hstop. destruct (requestFn retryCount) as [a|error]; [done|].
    rewrite bool_decide_eq_false_2 by lia. by rewrite andb_false_r.
  - destruct (requestFn retryCount) as [a|error] eqn:Hcall;
      [apply Hstop; by rewrite Hcall|].
    destruct (isRetryable error) eqn:Hretry;
      [|apply Hstop; by rewrite Hcall, Hretry].
    destruct (IH (S retryCount)) as (n & Hn & Hslept & Hretried & Hlast); [lia|].
    exists (S n). rewrite makeSheetsRequest_unfold, Hcall, Hretry.
    rewrite (bool_decide_eq_true_2 (retryCount < MAX_RETRIES)%nat) by lia.
    replace (retryCount + S n)%nat with (S retryCount + n)%nat by lia.
    simpl. split; [lia|]. split; [by rewrite Hslept|]. split; [|exact Hlast].
    intros k Hk. destruct (decide (k = retryCount)) as [->|Hne]; [by eexists|].
    apply Hretried. lia.
Qed.

(** X29: [makeSheetsRequest] makes at most four requests. Before the
    [n+1]-th it has slept 1000, 2000, ... milliseconds, once after each
    of the [n] requests before, which were all rejected with status 429 or
    5xx. It resolves with the answer of the first request that resolves;
    it rejects with the error of the first request rejected with another
    status (a fixed message for 403 and for 404), or with the error of
    the fourth request. *)
Theorem makeSheetsRequest_backoff {A} (requestFn : nat → Outcome A) :
  ∃ n,
    (n ≤ 3)%nat
    ∧ slept (makeSheetsRequest requestFn 0) = take n [1000; 2000; 4000]
    ∧ (∀ k, (k < n)%nat →
         ∃ error, requestFn k = Rejected error ∧ isRetryable error = true)
    ∧ match requestFn n with
      | Resolved a => outcome (makeSheetsRequest requestFn 0) = Resolved a
      | Rejected error =>
          outcome (makeSheetsRequest requestFn 0) = Rejected (rethrown error)
          ∧ (isRetryable error = true → n = 3%nat)
      end.
Proof.
  destruct (makeSheetsRequest_trace requestFn 3 0 eq_refl)
    as (n & Hn & Hslept & Hretried & Hlast).
  unfold MAX_RETRIES in *. simpl in Hlast.
  exists n. split; [lia|]. split; [|split].
  - rewrite Hslept. destruct n as [|[|[|[|n']]]]; try done. lia.
  - intros k Hk. apply Hretried. lia.
  - destruct (requestFn n) as [a|error]; [done|].
    destruct Hlast as [Houtcome Hmax]. split; [done|]. intros Hretry.
    specialize (Hmax Hretry). lia.
Qed.

End SheetsApiProps.


(** ** The system logger *)

Module SystemLoggerProps.
Import SystemLogger.








End SystemLoggerProps.

(** ** The further properties on concrete runs *)

Module MoreRuns.
Import Model Runtime StateManager View Notions Examples Samples.

Lemma threePlays_allDated : allDated Js.isoSample threePlays.
Proof.
  intros item Hitem. unfold threePlays in Hitem.
  apply elem_of_cons in Hitem as [Hitem|Hitem]; [subst; by eexists|].
  apply elem_of_cons in Hitem as [Hitem|Hitem]; [subst; by eexists|].
  apply elem_of_cons in Hitem as [Hitem|Hitem]; [subst; by eexists|].
  by apply elem_of_nil in Hitem.
Qed.

Lemma tiedPlays_allDated : allDated Js.isoSample tiedPlays.
Proof.
  intros item Hitem. unfold tiedPlays in Hitem.
  apply elem_of_cons in Hitem as [Hitem|Hitem]; [subst; by eexists|].
  apply elem_of_cons in Hitem as [Hitem|Hitem]; [subst; by eexists|].
  apply elem_of_cons in Hitem as [Hitem|Hitem]; [subst; by eexists|].
  by apply elem_of_nil in Hitem.
Qed.

Lemma sortTracksByTimestamp_Permutation_witness :
  PlayFilter.sortTracksByTimestamp Js.isoSample tiedPlays ≡ₚ tiedPlays
  ∧ filter (λ item, Js.isoSample (played_at item) = Some 1705320060000)
      (PlayFilter.sortTracksByTimestamp Js.isoSample tiedPlays)
    = [laterPlay; localFilePlay].
Proof.
  destruct (SortProps.sortTracksByTimestamp_Permutation Js.isoSample tiedPlays
              tiedPlays_allDated) as [Hsame Hstable].
  split; [exact Hsame|exact (Hstable 1705320060000)].
Defined.

Lemma sortTracksByTimestamp_ascending_witness :
  StronglySorted (playedNoLater Js.isoSample)
    (PlayFilter.sortTracksByTimestamp Js.isoSample threePlays)
  ∧ PlayFilter.sortTracksByTimestamp Js.isoSample
      (PlayFilter.sortTracksByTimestamp Js.isoSample threePlays)
    = [olderPlay; nearPlay; laterPlay].
Proof.
  exact (SortProps.sortTracksByTimestamp_ascending Js.isoSample threePlays
           threePlays_allDated).
Defined.

Lemma getMostRecentTrack_latest_witness :
  ∃ x tx,
    PlayFilter.getMostRecentTrack Js.isoSample threePlays = Some x
    ∧ x ∈ threePlays
    ∧ Js.isoSample (played_at x) = Some tx
    ∧ ∀ y ty, y ∈ threePlays → Js.isoSample (played_at y) = Some ty → ty ≤ tx.
Proof.
  apply (SortProps.getMostRecentTrack_latest Js.isoSample threePlays).
  - discriminate.
  - exact threePlays_allDated.
Defined.

Lemma filterNewPlays_nothing_new_witness :
  PlayFilter.filterNewPlays Js.isoSample [olderPlay; nearPlay] (Some lateState) = [].
Proof.
  apply (FilterProps.filterNewPlays_nothing_new Js.isoSample [olderPlay; nearPlay]
           lateState (marker "abc123" "2024-01-15T12:05:00.000Z") 1705320300000).
  - reflexivity.
  - reflexivity.
  - reflexivity.
  - intros item [Hitem|[Hitem|[]]]; subst item.
    + exists 1705319940000. split; [reflexivity|lia].
    + exists 1705320010000. split; [reflexivity|lia].
Defined.

Lemma filterNewPlays_keeps_undated_witness :
  In undatedPlay (PlayFilter.filterNewPlays Js.isoSample [undatedPlay] (Some lateState)).
Proof.
  apply (FilterProps.filterNewPlays_keeps_undated Js.isoSample [undatedPlay]
           (Some lateState) undatedPlay).
  - left. reflexivity.
  - reflexivity.
  - reflexivity.
Defined.

Lemma filterNewPlays_excludes_recorded_witness :
  ¬ In laterPlay
      (PlayFilter.filterNewPlays Js.isoSample [laterPlay; olderPlay] (Some recordedState)).
Proof.
  apply (FilterProps.filterNewPlays_excludes_recorded Js.isoSample
           [laterPlay; olderPlay] recordedState laterPlay "2024-01-15T12:05:00.000Z").
  - reflexivity.
  - eexists. reflexivity.
  - reflexivity.
Defined.

Lemma analyzeRepeatBehavior_leading_run_witness :
  PlayFilter.analyzeRepeatBehavior [nearPlay]
  = {| PlayFilter.isRepeating := false; PlayFilter.repeatCount := 0;
       PlayFilter.ra_trackName := None |}
  ∧ (1 ≤ PlayFilter.repeatCount (PlayFilter.analyzeRepeatBehavior repeatedPlays) ≤ 3)%nat
  ∧ (PlayFilter.isRepeating (PlayFilter.analyzeRepeatBehavior repeatedPlays) = true
     ↔ (2 ≤ PlayFilter.repeatCount (PlayFilter.analyzeRepeatBehavior repeatedPlays))%nat)
  ∧ PlayFilter.repeatCount
      (PlayFilter.analyzeRepeatBehavior [localFilePlay; tracklessPlay]) = 1%nat.
Proof.
  split.
  - apply (proj1 (FilterProps.analyzeRepeatBehavior_leading_run [nearPlay])).
    simpl. lia.
  - destruct (proj2 (FilterProps.analyzeRepeatBehavior_leading_run repeatedPlays)
                nearPlay) as (Hcount & _ & _ & Hrepeating & _).
    + simpl. lia.
    + reflexivity.
    + split; [exact Hcount|]. split; [exact Hrepeating|].
      destruct (proj2 (FilterProps.analyzeRepeatBehavior_leading_run
                         [localFilePlay; tracklessPlay]) localFilePlay)
        as (Hone & Hsame & _).
      * simpl. lia.
      * reflexivity.
      * destruct (decide (1 < PlayFilter.repeatCount
                                (PlayFilter.analyzeRepeatBehavior
                                   [localFilePlay; tracklessPlay]))%nat) as [Htwo|Hnot].
        -- discriminate (Hsame 1%nat tracklessPlay Htwo eq_refl).
        -- lia.
Defined.

Lemma filterDuplicatesAgainstSheet_never_drops_witness :
  In localFilePlay
    (Deduplication.filterDuplicatesAgainstSheet Js.isoSample [localFilePlay; laterPlay]
       [headerRow; loggedRow])
  ∧ Deduplication.filterDuplicatesAgainstSheet Js.isoSample [localFilePlay; laterPlay]
      [headerRow]
    = [localFilePlay; laterPlay].
Proof.
  split.
  - apply (proj1 (SheetProps.filterDuplicatesAgainstSheet_never_drops Js.isoSample
                    [localFilePlay; laterPlay] [headerRow; loggedRow])).
    + left. reflexivity.
    + reflexivity.
  - apply (proj2 (SheetProps.filterDuplicatesAgainstSheet_never_drops Js.isoSample
                    [localFilePlay; laterPlay] [headerRow])).
    simpl. lia.
Defined.

Lemma validateState_of_built_states_witness :
  Deduplication.validateState
    (Deduplication.reconcileState Js.isoSample [headerRow; loggedRow] (Some noonState))
  = true
  ∧ Deduplication.validateState
      (Deduplication.reconcileState Js.isoSample [headerRow; loggedRow] None)
    = true.
Proof.
  split.
  - apply (proj1 (SheetProps.validateState_of_built_states Js.isoSample
                    [headerRow; loggedRow] (Some noonState))).
    reflexivity.
  - apply (proj1 (proj2 (SheetProps.validateState_of_built_states Js.isoSample
                           [headerRow; loggedRow] None))).
    + eexists. reflexivity.
    + reflexivity.
Defined.

Lemma saveState_then_loadState_witness :
  (saveState noonState (freshProcess emptyDir)).1 = Js.Ok ()
  ∧ (loadState (saveState noonState (freshProcess emptyDir)).2).1
    = Js.Ok (parsed noonState).
Proof.
  apply (AcceptedProps.saveState_then_loadState noonState (freshProcess emptyDir)).
  reflexivity.
Defined.

Lemma saveState_backs_up_previous_witness :
  BACKUP_FILE (w_files (saveState twoQueued (freshProcess (dirWith noonState))).2)
  = Doc noonState
  ∧ (loadState
       (withStateFile Corrupt
          (saveState twoQueued (freshProcess (dirWith noonState))).2)).1
    = Js.Ok (parsed noonState).
Proof.
  apply (AcceptedProps.saveState_backs_up_previous twoQueued noonState
           (freshProcess (dirWith noonState)) Corrupt).
  - reflexivity.
  - reflexivity.
  - reflexivity.
  - right. reflexivity.
Defined.

Lemma updateLastProcessed_then_getLastProcessed_witness :
  (getLastProcessed
     (updateLastProcessed laterPlay "2024-01-15T12:05:00.000Z"
        (freshProcess (dirWith twoQueued))).2).1
  = Js.Ok (Some (PlayFilter.createLastProcessedState laterPlay
                   "2024-01-15T12:05:00.000Z")).
Proof.
  apply (AcceptedProps.updateLastProcessed_then_getLastProcessed laterPlay
           "2024-01-15T12:05:00.000Z" (freshProcess (dirWith twoQueued)) twoQueued).
  - reflexivity.
  - reflexivity.
Defined.

Lemma addToFailedQueue_effect_witness :
  ∃ s' entry,
    view (addToFailedQueue nearPlay "503 Service Unavailable"
            "2024-01-15T12:05:00.000Z" (freshProcess (dirWith twoQueued))).2 = Js.Ok s'
    ∧ entry ∈ failedQueue s'
    ∧ entryKey entry = playKey nearPlay
    ∧ lastAttempt entry = "2024-01-15T12:05:00.000Z".
Proof.
  destruct (AcceptedProps.addToFailedQueue_effect nearPlay "503 Service Unavailable"
              "2024-01-15T12:05:00.000Z" (freshProcess (dirWith twoQueued)) twoQueued
              eq_refl eq_refl)
    as (s' & entry & _ & Hview & _ & Hin & Hkey & Hlast & _).
  exists s', entry. split; [exact Hview|]. split; [exact Hin|].
  split; [exact Hkey|exact Hlast].
Defined.

Lemma addToFailedQueue_then_clearFromFailedQueue_witness :
  view (clearFromFailedQueue (playKey olderPlay).1 (playKey olderPlay).2
          (addToFailedQueue olderPlay "503 Service Unavailable"
             "2024-01-15T12:05:00.000Z" (freshProcess (dirWith twoQueued))).2).2
  = Js.Ok twoQueued.
Proof.
  apply (AcceptedProps.addToFailedQueue_then_clearFromFailedQueue olderPlay
           "503 Service Unavailable" "2024-01-15T12:05:00.000Z"
           (freshProcess (dirWith twoQueued)) twoQueued eq_refl eq_refl).
  intros e He Hkey.
  apply elem_of_cons in He as [He|He]; [subst e; discriminate Hkey|].
  apply elem_of_cons in He as [He|He]; [subst e; discriminate Hkey|].
  by apply elem_of_nil in He.
Defined.

Lemma reset_after_default_mutation_witness :
  (∃ s2 entry,
     view (clearAllState
             (addToFailedQueue laterPlay "503 Service Unavailable"
                "2024-01-15T12:05:00.000Z" (freshProcess emptyDir)).2).2 = Js.Ok s2
     ∧ entry ∈ failedQueue s2
     ∧ entryKey entry = playKey laterPlay)
  ∧ ∃ s1,
      view (updateStats 2 1 "2024-01-15T12:05:00.000Z" (freshProcess emptyDir)).2
      = Js.Ok s1
      ∧ stats s1 = {| lastRun := Some "2024-01-15T12:05:00.000Z";
                      successCount := 2; failureCount := 1 |}
      ∧ view (resetStats
                (updateStats 2 1 "2024-01-15T12:05:00.000Z" (freshProcess emptyDir)).2).2
        = Js.Ok s1.
Proof.
  destruct (AcceptedProps.reset_after_default_mutation (freshProcess emptyDir)
              eq_refl eq_refl) as [Hclear Hreset].
  split.
  - exact (Hclear laterPlay "503 Service Unavailable" "2024-01-15T12:05:00.000Z").
  - exact (Hreset 2 1 "2024-01-15T12:05:00.000Z").
Defined.

Lemma backends_do_not_mix_witness :
  w_files (LogSpotify.handler Js.isoSample (loggingRun (Js.Ok ()))
             (kvProcess (kvWith noonState))).2 = emptyDir
  ∧ w_kv (RetryFailed.handler Js.isoSample timelyPass
            (freshProcess (dirWith twoQueued))).2 = emptyKV.
Proof.
  split.
  - apply (proj1 (InvariantProps.backends_do_not_mix Js.isoSample
                    (loggingRun (Js.Ok ())) timelyPass (kvProcess (kvWith noonState)))).
    reflexivity.
  - apply (proj2 (InvariantProps.backends_do_not_mix Js.isoSample
                    (loggingRun (Js.Ok ())) timelyPass
                    (freshProcess (dirWith twoQueued)))).
    reflexivity.
Defined.

Lemma kvWith_mirrored (s : State) : mirrored (kvWith s).
Proof. intros s0 Hs0. injection Hs0 as <-. by repeat split. Qed.

Lemma kvStale_mirrored (s : State) : mirrored (kvStale s).
Proof. intros s0 Hs0. injection Hs0 as <-. by repeat split. Qed.

Lemma kv_components_mirror_full_state_witness :
  (mirrored (w_kv (saveState twoQueued (kvProcess (kvWith noonState))).2)
   ∧ mirrored (w_kv (LogSpotify.handler Js.isoSample (loggingRun (Js.Ok ()))
                       (kvProcess (kvWith noonState))).2)
   ∧ mirrored (w_kv (RetryFailed.handler Js.isoSample timelyPass
                       (kvProcess (kvWith noonState))).2))
  ∧ (saveState lateState (kvProcess (kvStale noonState))).1
    = Js.Throw "Failed to save state to KV"
  ∧ view (saveState lateState (kvProcess (kvStale noonState))).2 = Js.Ok lateState
  ∧ ¬ mirrored (w_kv (saveState lateState (kvProcess (kvStale noonState))).2).
Proof.
  split.
  - destruct (InvariantProps.kv_components_mirror_full_state Js.isoSample
                (loggingRun (Js.Ok ())) timelyPass (kvProcess (kvWith noonState))
                (kvWith_mirrored noonState)) as (Hsave & Hruns & _).
    split; [exact (Hsave twoQueued eq_refl)|].
    apply Hruns. by repeat split.
  - destruct (InvariantProps.kv_components_mirror_full_state Js.isoSample
                (loggingRun (Js.Ok ())) timelyPass (kvProcess (kvStale noonState))
                (kvStale_mirrored noonState)) as (_ & _ & Hstale).
    apply (Hstale lateState noonState eq_refl eq_refl eq_refl eq_refl).
    discriminate.
Defined.

Lemma DEFAULT_STATE_untouched_with_document_witness :
  documentWithDefault DEFAULT_STATE
    (LogSpotify.handler Js.isoSample (loggingRun (Js.Ok ()))
       (freshProcess (dirWith noonState))).2
  ∧ documentWithDefault DEFAULT_STATE
      (RetryFailed.handler Js.isoSample timelyPass
         (freshProcess (dirWith noonState))).2.
Proof.
  apply (InvariantProps.DEFAULT_STATE_untouched_with_document Js.isoSample
           (loggingRun (Js.Ok ())) timelyPass (freshProcess (dirWith noonState))
           noonState).
  reflexivity.
Defined.

(** C3 as stated fails: a run that fetches a play whose [played_at] is
    the empty string completes, since every comparison of the filter with
    an invalid date is false, and persists the empty string as [playedAt]
    over the marker of noon. *)
Lemma monotone_counterexample :
  (LogSpotify.handler Js.isoSample blankRun (freshProcess (dirWith noonState))).1
  = Js.Ok (LogSpotify.respond 200 "Logging complete" 1 0)
  ∧ view (LogSpotify.handler Js.isoSample blankRun
            (freshProcess (dirWith noonState))).2
    = Js.Ok (set_stats {| lastRun := Some "2024-01-15T12:05:00.000Z";
                          successCount := 1; failureCount := 0 |}
               (set_metrics (Some "{}")
                  (set_alerts (Some "{}")
                     (stateWith {| lp_trackId := "abc123"; lp_trackName := None;
                                   lp_timestamp := "2024-01-15T12:05:00.000Z";
                                   lp_playedAt := "" |}))))
  ∧ ¬ monotone_as_stated Js.isoSample.
Proof.
  split; [vm_compute; reflexivity|]. split; [vm_compute; reflexivity|].
  intros H.
  destruct (H blankRun (freshProcess (dirWith noonState)) noonState _
              (marker "abc123" "2024-01-15T12:00:00.000Z") _ 1705320000000 _
              eq_refl eq_refl eq_refl eq_refl eq_refl eq_refl eq_refl)
    as (t' & Ht' & _).
  discriminate Ht'.
Qed.


Lemma retry_counters_add_up_witness :
  ∃ response,
    (RetryFailed.handler Js.isoSample timelyPass (freshProcess (dirWith twoQueued))).1
    = Js.Ok response
    ∧ tallied 50 (RetryFailed.responseStats response)
    ∧ Z.of_nat (length (RetryFailed.maxedOutTracks response))
      = RetryFailed.maxedOut (RetryFailed.responseStats response).
Proof.
  eexists. split; [vm_compute; reflexivity|].
  apply (RetryPassProps.retry_counters_add_up Js.isoSample timelyPass
           (freshProcess (dirWith twoQueued))).
  - vm_compute. reflexivity.
  - reflexivity.
Defined.

Lemma retry_pass_without_write_witness :
  stored (RetryFailed.handler Js.isoSample timelyPass (freshProcess emptyDir)).2
  = stored (freshProcess emptyDir)
  ∧ stored (RetryFailed.handler Js.isoSample blindPass
              (freshProcess (dirWith twoQueued))).2
    = stored (freshProcess (dirWith twoQueued)).
Proof.
  split.
  - apply (proj1 (RetryPassProps.retry_pass_without_write Js.isoSample timelyPass
                    (freshProcess emptyDir) DEFAULT_STATE eq_refl)).
    reflexivity.
  - apply (proj2 (RetryPassProps.retry_pass_without_write Js.isoSample blindPass
                    (freshProcess (dirWith twoQueued)) twoQueued eq_refl)
             "The service is currently unavailable").
    + discriminate.
    + reflexivity.
Defined.

Lemma twoQueued_uniqueKeys : uniqueKeys twoQueued.
Proof. apply (bool_decide_unpack _). vm_compute. exact I. Qed.

Lemma retry_pass_adds_no_entry_witness :
  ∃ s', view (RetryFailed.handler Js.isoSample timelyPass
                (freshProcess (dirWith twoQueued))).2 = Js.Ok s'
        ∧ (length (failedQueue s') ≤ 2)%nat
        ∧ uniqueKeys s'.
Proof.
  destruct (RetryPassProps.retry_pass_adds_no_entry Js.isoSample timelyPass
              (freshProcess (dirWith twoQueued)) twoQueued eq_refl)
    as (s' & Hview & _ & Hlength & Hunique).
  exists s'. split; [exact Hview|]. split; [exact Hlength|].
  exact (Hunique twoQueued_uniqueKeys).
Defined.

Lemma retry_queue_keys_stay_unique_witness :
  (∃ s', view (LogSpotify.handler Js.isoSample (loggingRun (Js.Ok ()))
                 (freshProcess (dirWith twoQueued))).2 = Js.Ok s'
         ∧ uniqueKeys s')
  ∧ (∃ s', view (RetryFailed.handler Js.isoSample timelyPass
                   (freshProcess (dirWith twoQueued))).2 = Js.Ok s'
           ∧ uniqueKeys s').
Proof.
  exact (proj2 (QueueKeyProps.retry_queue_keys_stay_unique Js.isoSample
                  (loggingRun (Js.Ok ())) timelyPass
                  (freshProcess (dirWith twoQueued)) twoQueued eq_refl
                  twoQueued_uniqueKeys)).
Defined.

Lemma enrichTracks_one_row_per_track_witness :
  ∃ enriched,
    LogSpotify.enrichTracks Js.isoSample (loggingRun (Js.Ok ())) 0
      [nearPlay; laterPlay] LogSpotify.emptyEnrichment = Js.Ok enriched
    ∧ LogSpotify.successes enriched + LogSpotify.failures enriched = 2
    ∧ Z.of_nat (length (LogSpotify.failedTracks enriched)) = LogSpotify.failures enriched.
Proof.
  eexists. split; [vm_compute; reflexivity|].
  destruct (LoggingRunProps.enrichTracks_one_row_per_track Js.isoSample
              (loggingRun (Js.Ok ())) [nearPlay; laterPlay] _ eq_refl)
    as (_ & Hsum & _ & Hfailed & _).
  split; [exact Hsum|exact Hfailed].
Defined.

Lemma logging_early_exit_writes_nothing_witness :
  stored (LogSpotify.handler Js.isoSample (loggingRun (Js.Ok ()))
            (freshProcess (dirWith lateState))).2
  = stored (freshProcess (dirWith lateState))
  ∧ view (LogSpotify.handler Js.isoSample (loggingRun (Js.Ok ()))
            (freshProcess (dirWith lateState))).2 = Js.Ok lateState
  ∧ w_executionStarted
      (LogSpotify.handler Js.isoSample (loggingRun (Js.Ok ()))
         (freshProcess (dirWith lateState))).2 = true.
Proof.
  apply (LoggingRunProps.logging_early_exit_writes_nothing Js.isoSample
           (loggingRun (Js.Ok ())) (freshProcess (dirWith lateState)) lateState
           (LogSpotify.respond 200 "No new plays to log" 0 0)).
  - reflexivity.
  - vm_compute. reflexivity.
  - reflexivity.
  - discriminate.
Defined.

Lemma logging_completed_run_witness :
  ∃ s', view (LogSpotify.handler Js.isoSample (loggingRun (Js.Ok ()))
                (freshProcess (dirWith noonState))).2 = Js.Ok s'
        ∧ lastProcessed s'
          = Some (PlayFilter.createLastProcessedState laterPlay
                    "2024-01-15T12:05:00.000Z")
        ∧ stats s' = {| lastRun := Some "2024-01-15T12:05:00.000Z";
                        successCount := 0; failureCount := 1 |}.
Proof.
  destruct (LoggingRunProps.logging_completed_run Js.isoSample
              (loggingRun (Js.Ok ())) (freshProcess (dirWith noonState)) noonState
              (LogSpotify.respond 200 "Logging complete" 0 1))
    as (s' & tracks & sheetRows & mostRecent & Htracks & Hrows & Hrecent & Hview
        & Hmarker & Hstats & _).
  - reflexivity.
  - reflexivity.
  - vm_compute. reflexivity.
  - reflexivity.
  - reflexivity.
  - exists s'. split; [exact Hview|].
    injection Htracks as Htracks. injection Hrows as Hrows.
    rewrite <- Htracks, <- Hrows in Hrecent.
    injection Hrecent as Hrecent. rewrite <- Hrecent in Hmarker.
    split; [exact Hmarker|exact Hstats].
Defined.


End MoreRuns.
